(** * singularity_scan: exact clones and near-clones of numeric vectors

    A shallow embedding of [singularity_scan.py].  The first part models the
    pieces of the Python runtime the scanner calls (binary64 floats, the
    [float()] constructor, ['.17g'] formatting, SHA-256, the seeded Mersenne
    Twister); the second part is the scanner itself, function by function,
    under the names of the source. *)

From Stdlib Require Import ZArith List String Ascii Floats Lia Bool Permutation.
Import ListNotations.
Set Warnings "-register-all".
Local Open Scope Z_scope.

(** ** Exceptions and fallible computations *)

Inductive exn := ValueError | TypeError | OverflowError | ZeroDivisionError.

Inductive result (A : Type) : Type :=
| Ok (a : A)
| Raise (e : exn).
Arguments Ok {A} a.
Arguments Raise {A} e.

Definition bind {A B : Type} (r : result A) (k : A -> result B) : result B :=
  match r with
  | Ok a => k a
  | Raise e => Raise e
  end.

Notation "x <- r ;; k" := (bind r (fun x => k))
  (at level 61, r at next level, right associativity).

(** [tuple(f(x) for x in l)]: elements are evaluated left to right and the
    first exception ends the evaluation. *)
Fixpoint mapM {A B : Type} (f : A -> result B) (l : list A) : result (list B) :=
  match l with
  | [] => Ok []
  | x :: l' => y <- f x ;; ys <- mapM f l' ;; Ok (y :: ys)
  end.

(** ** Values produced by the JSON decoder *)

Inductive pyval :=
| PyNone
| PyBool (b : bool)
| PyInt (z : Z)
| PyFloat (f : float)
| PyStr (s : string)
| PyList (l : list pyval)
| PyDict (d : list (string * pyval)).

(** ** Text of numbers

    Characters are handled as [list ascii]; [string] is used at the
    interfaces. *)
Module Text.

Definition chr (n : Z) : ascii := ascii_of_N (Z.to_N n).
Definition ord (c : ascii) : Z := Z.of_N (N_of_ascii c).

Definition is_digit (c : ascii) : bool := (48 <=? ord c) && (ord c <=? 57).
Definition digit_val (c : ascii) : Z := ord c - 48.
Definition digit_chr (d : Z) : ascii := chr (48 + d).

(** The [p] low decimal digits of [n], most significant first. *)
Fixpoint dec_digits (p : nat) (n : Z) : list ascii :=
  match p with
  | O => []
  | S p' => dec_digits p' (n / 10) ++ [digit_chr (n mod 10)]
  end.

Definition int_of_digits (ds : list ascii) : Z :=
  fold_left (fun a c => 10 * a + digit_val c) ds 0.

Fixpoint span (f : ascii -> bool) (l : list ascii) : list ascii * list ascii :=
  match l with
  | [] => ([], [])
  | c :: l' =>
      if f c then let (a, b) := span f l' in (c :: a, b) else ([], l)
  end.

Fixpoint drop_while (f : ascii -> bool) (l : list ascii) : list ascii :=
  match l with
  | [] => []
  | c :: l' => if f c then drop_while f l' else l
  end.

Definition strip_right (f : ascii -> bool) (l : list ascii) : list ascii :=
  rev (drop_while f (rev l)).

Definition lower (c : ascii) : ascii :=
  if (65 <=? ord c) && (ord c <=? 90) then chr (ord c + 32) else c.

Definition eqb_chars (a b : list ascii) : bool :=
  String.eqb (string_of_list_ascii a) (string_of_list_ascii b).

End Text.

(** ** Binary64 arithmetic with exact intermediate values *)
Module F64.

Local Open Scope float_scope.

(** Python's [x >= y] on floats. *)
Definition ge (x y : float) : bool := PrimFloat.leb y x.

(** Truth value of a float: every float except [0.0] and [-0.0]. *)
Definition truthy (x : float) : bool := negb (PrimFloat.eqb x 0).

Definition of_SF (x : spec_float) : float := SF2Prim x.

(** Nearest float (ties to even) to the integer [z]; an infinity when the
    rounding overflows. *)
Definition SF_of_Z (z : Z) : spec_float := binary_normalize prec emax z 0%Z false.

(** Nearest float (ties to even) to [n / d], for positive [n] and [d]. *)
Definition SF_of_ratio (neg : bool) (n d : Z) : spec_float :=
  let '(q, e, l) := SFdiv_core_binary prec emax n 0%Z d 0%Z in
  binary_round_aux prec emax neg q e l.

(** Nearest float to [(-1)^neg * n * 10^k], for [n >= 0]. *)
Definition SF_of_decimal (neg : bool) (n k : Z) : spec_float :=
  if (n =? 0)%Z then S754_zero neg
  else if (0 <=? k)%Z then SF_of_Z ((if neg then Z.opp else id) (n * 10 ^ k)%Z)
  else SF_of_ratio neg n (10 ^ (- k))%Z.

End F64.

(** ** The [float()] constructor *)
Module PyFloatCtor.
Import Text.

(** ASCII characters that [float()] strips around the number. *)
Definition is_space (c : ascii) : bool :=
  let n := ord c in
  ((9 <=? n) && (n <=? 13)) || (n =? 32).

(** *** Text outside ASCII

    A text is held as the bytes of its UTF-8 encoding.  When a text has a
    character outside ASCII, [float()] first rewrites it character by
    character: a character below 127 is kept, white space becomes a space,
    a decimal digit of any script becomes its ASCII digit, and any other
    character makes the text refused (the tables are those of Unicode 14.0,
    which CPython 3.11 carries). *)

Definition continuation (b : Z) : bool := (128 <=? b) && (b <? 192).

(** The code points that the bytes encode, surrogates included; [None] when
    the bytes are the encoding of no text. *)
Fixpoint code_points (bs : list Z) : option (list Z) :=
  match bs with
  | [] => Some []
  | b0 :: bs1 =>
      if b0 <? 128 then option_map (cons b0) (code_points bs1)
      else if b0 <? 194 then None
      else if b0 <? 224 then
        match bs1 with
        | b1 :: bs2 =>
            if continuation b1
            then option_map (cons ((b0 - 192) * 64 + (b1 - 128))) (code_points bs2)
            else None
        | _ => None
        end
      else if b0 <? 240 then
        match bs1 with
        | b1 :: b2 :: bs3 =>
            let c := ((b0 - 224) * 64 + (b1 - 128)) * 64 + (b2 - 128) in
            if continuation b1 && continuation b2 && (2048 <=? c)
            then option_map (cons c) (code_points bs3)
            else None
        | _ => None
        end
      else if b0 <? 245 then
        match bs1 with
        | b1 :: b2 :: b3 :: bs4 =>
            let c := (((b0 - 240) * 64 + (b1 - 128)) * 64 + (b2 - 128)) * 64 + (b3 - 128) in
            if continuation b1 && continuation b2 && continuation b3
               && (65536 <=? c) && (c <=? 1114111)
            then option_map (cons c) (code_points bs4)
            else None
        | _ => None
        end
      else None
  end.

(** White space from 127 on ([Py_UNICODE_ISSPACE]). *)
Definition unicode_space (c : Z) : bool :=
  existsb (Z.eqb c) [133; 160; 5760; 8232; 8233; 8239; 8287; 12288]
  || ((8192 <=? c) && (c <=? 8202)).

(** The runs of decimal digits outside ASCII: the first code point of each
    and its length; the digits count from zero again every ten. *)
Definition decimal_runs : list (Z * Z) :=
  [(1632, 10); (1776, 10); (1984, 10); (2406, 10); (2534, 10); (2662, 10);
   (2790, 10); (2918, 10); (3046, 10); (3174, 10); (3302, 10); (3430, 10);
   (3558, 10); (3664, 10); (3792, 10); (3872, 10); (4160, 10); (4240, 10);
   (6112, 10); (6160, 10); (6470, 10); (6608, 10); (6784, 10); (6800, 10);
   (6992, 10); (7088, 10); (7232, 10); (7248, 10); (42528, 10); (43216, 10);
   (43264, 10); (43472, 10); (43504, 10); (43600, 10); (44016, 10);
   (65296, 10); (66720, 10); (68912, 10); (69734, 10); (69872, 10);
   (69942, 10); (70096, 10); (70384, 10); (70736, 10); (70864, 10);
   (71248, 10); (71360, 10); (71472, 10); (71904, 10); (72016, 10);
   (72784, 10); (73040, 10); (73120, 10); (92768, 10); (92864, 10);
   (93008, 10); (120782, 50); (123200, 10); (123632, 10); (125264, 10);
   (130032, 10)].

(** [Py_UNICODE_TODECIMAL] from 127 on. *)
Definition unicode_decimal (c : Z) : option Z :=
  match find (fun r => (fst r <=? c) && (c <? fst r + snd r)) decimal_runs with
  | Some r => Some ((c - fst r) mod 10)
  | None => None
  end.

Definition to_ascii_char (c : Z) : option ascii :=
  if c <? 127 then Some (chr c)
  else if unicode_space c then Some " "%char
  else option_map digit_chr (unicode_decimal c).

Fixpoint traverse {A B : Type} (f : A -> option B) (l : list A) : option (list B) :=
  match l with
  | [] => Some []
  | x :: l' =>
      match f x, traverse f l' with
      | Some y, Some ys => Some (y :: ys)
      | _, _ => None
      end
  end.

(** The text [float()] reads: an ASCII text as it is, another text
    rewritten, or refused. *)
Definition to_ascii (l : list ascii) : option (list ascii) :=
  match code_points (map ord l) with
  | Some cs => if forallb (fun c => c <? 128) cs then Some l else traverse to_ascii_char cs
  | None => None
  end.

(** Underscores are accepted between two digits only, and are dropped. *)
Fixpoint drop_underscores (prev : option ascii) (l : list ascii) : option (list ascii) :=
  match l with
  | [] => match prev with
          | Some "_"%char => None
          | _ => Some []
          end
  | c :: l' =>
      if Ascii.eqb c "_" then
        match prev with
        | Some p => if is_digit p then drop_underscores (Some c) l' else None
        | None => None
        end
      else
        let ok := match prev with
                  | Some "_"%char => is_digit c
                  | _ => true
                  end in
        if ok then
          match drop_underscores (Some c) l' with
          | Some r => Some (c :: r)
          | None => None
          end
        else None
  end.

Definition split_sign (l : list ascii) : bool * list ascii :=
  match l with
  | "-"%char :: l' => (true, l')
  | "+"%char :: l' => (false, l')
  | _ => (false, l)
  end.

(** The exponent part: [e] or [E], an optional sign and at least one digit,
    up to the end of the text. *)
Definition parse_exponent (l : list ascii) : option Z :=
  match l with
  | [] => Some 0
  | c :: l' =>
      if Ascii.eqb (lower c) "e" then
        let (neg, l'') := split_sign l' in
        let (ds, rest) := span is_digit l'' in
        match ds, rest with
        | _ :: _, [] => Some ((if neg then Z.opp else id) (int_of_digits ds))
        | _, _ => None
        end
      else None
  end.

(** A decimal numeral: digits, an optional point and digits, an optional
    exponent; at least one digit before the exponent. *)
Definition parse_decimal (neg : bool) (l : list ascii) : option spec_float :=
  let (ip, r1) := span is_digit l in
  let (fp, r2) := match r1 with
                  | "."%char :: r => span is_digit r
                  | _ => ([], r1)
                  end in
  match ip ++ fp with
  | [] => None
  | ds =>
      match parse_exponent r2 with
      | Some e => Some (F64.SF_of_decimal neg (int_of_digits ds) (e - Z.of_nat (List.length fp)))
      | None => None
      end
  end.

Definition parse_float (l : list ascii) : option spec_float :=
  match drop_underscores None (strip_right is_space (drop_while is_space l)) with
  | None => None
  | Some t =>
      let (neg, body) := split_sign t in
      let low := map lower body in
      if eqb_chars low (list_ascii_of_string "inf")
         || eqb_chars low (list_ascii_of_string "infinity")
      then Some (S754_infinity neg)
      else if eqb_chars low (list_ascii_of_string "nan") then Some S754_nan
      else parse_decimal neg body
  end.

(** [float(s)] for a string [s]; [None] stands for the ValueError. *)
Definition float_of_string (s : string) : option float :=
  match to_ascii (list_ascii_of_string s) with
  | Some l => option_map F64.of_SF (parse_float l)
  | None => None
  end.

(** [float(z)] for an int [z]; [None] stands for the OverflowError. *)
Definition float_of_int (z : Z) : option float :=
  match F64.SF_of_Z z with
  | S754_infinity _ => None
  | x => Some (F64.of_SF x)
  end.

(** [float(x)] for a decoded JSON value. *)
Definition float_of (x : pyval) : result float :=
  match x with
  | PyFloat f => Ok f
  | PyInt z =>
      match float_of_int z with
      | Some f => Ok f
      | None => Raise OverflowError
      end
  | PyBool b => Ok (if b then 1%float else 0%float)
  | PyStr s =>
      match float_of_string s with
      | Some f => Ok f
      | None => Raise ValueError
      end
  | PyNone | PyList _ | PyDict _ => Raise TypeError
  end.

End PyFloatCtor.

(** ** General format: [format(x, '.{p}g')] *)
Module PyFormat.
Import Text.

(** [v >= 10^x] for [v = num/den]. *)
Definition ge_pow10 (num den x : Z) : bool :=
  if 0 <=? x then den * 10 ^ x <=? num else den <=? num * 10 ^ (- x).

(** Largest [x] with [10^x <= num/den], searched upwards from an estimate
    that is too small by at most three. *)
Fixpoint climb (fuel : nat) (num den x : Z) : Z :=
  match fuel with
  | O => x
  | S fuel' => if ge_pow10 num den (x + 1) then climb fuel' num den (x + 1) else x
  end.

Definition decimal_exponent (num den : Z) : Z :=
  climb 6 num den ((Z.log2 num - Z.log2 den) * 1233 / 4096 - 2).

(** [a / b] rounded to the nearest integer, ties to even. *)
Definition round_half_even (a b : Z) : Z :=
  let q := a / b in
  match Z.compare (2 * (a mod b)) b with
  | Lt => q
  | Gt => q + 1
  | Eq => if Z.even q then q else q + 1
  end.

(** The [p] significant digits of [num/den] and its decimal exponent. *)
Definition significand (p : nat) (num den : Z) : Z * Z :=
  let x := decimal_exponent num den in
  let s := x - Z.of_nat p + 1 in
  let n := if 0 <=? s then round_half_even num (den * 10 ^ s)
           else round_half_even (num * 10 ^ (- s)) den in
  if 10 ^ Z.of_nat p <=? n then (n / 10, x + 1) else (n, x).

Definition strip_zeros (ds : list ascii) : list ascii :=
  strip_right (fun c => Ascii.eqb c "0") ds.

Definition with_point (ip fp : list ascii) : list ascii :=
  match strip_zeros fp with
  | [] => ip
  | fp' => ip ++ "."%char :: fp'
  end.

Definition exponent_text (x : Z) : list ascii :=
  "e"%char :: (if x <? 0 then "-"%char else "+"%char)
  :: dec_digits (if Z.abs x <? 100 then 2 else 3) (Z.abs x).

(** Layout of the digits [ds] (there are [p] of them) with decimal
    exponent [x]: scientific when [x < -4] or [x >= p], fixed otherwise;
    trailing zeros of the fraction are removed. *)
Definition layout (p : nat) (ds : list ascii) (x : Z) : list ascii :=
  if (x <? -4) || (Z.of_nat p <=? x) then
    with_point (firstn 1 ds) (skipn 1 ds) ++ exponent_text x
  else if 0 <=? x then
    with_point (firstn (Z.to_nat (x + 1)) ds) (skipn (Z.to_nat (x + 1)) ds)
  else
    with_point ["0"%char] (repeat "0"%char (Z.to_nat (- x - 1)) ++ ds).

Definition format_finite (p : nat) (neg : bool) (m : positive) (e : Z) : list ascii :=
  let num := if 0 <=? e then Z.pos m * 2 ^ e else Z.pos m in
  let den := if 0 <=? e then 1 else 2 ^ (- e) in
  let (n, x) := significand p num den in
  (if neg then ["-"%char] else []) ++ layout p (dec_digits p n) x.

(** The text of [format(x, '.{p}g')] for a precision the formatter takes;
    a precision of 0 is read as 1. *)
Definition format_g (p : nat) (x : float) : string :=
  let p := Nat.max p 1 in
  string_of_list_ascii
    match Prim2SF x with
    | S754_nan => list_ascii_of_string "nan"
    | S754_infinity neg => list_ascii_of_string (if neg then "-inf" else "inf")
    | S754_zero neg => list_ascii_of_string (if neg then "-0" else "0")
    | S754_finite neg m e => format_finite p neg m e
    end.

(** The largest precision the formatter takes, C's [INT_MAX]. *)
Definition INT_MAX : Z := 2 ^ 31 - 1.

(** [format(x, '.{p}g')] for any precision: beyond [INT_MAX] it raises
    ValueError (precision too big), whatever the float. *)
Definition format_spec (p : nat) (x : float) : result string :=
  if Z.of_nat p <=? INT_MAX then Ok (format_g p x) else Raise ValueError.

End PyFormat.

(** ** SHA-256 (FIPS 180-4), as [hashlib.sha256] computes it *)
Module SHA256.

Definition w32 (x : Z) : Z := x mod 2 ^ 32.
Definition add32 (x y : Z) : Z := w32 (x + y).
Definition rotr (n x : Z) : Z := Z.lor (Z.shiftr x n) (w32 (Z.shiftl x (32 - n))).
Definition not32 (x : Z) : Z := Z.lxor x 0xffffffff.

Definition Ch (x y z : Z) : Z := Z.lxor (Z.land x y) (Z.land (not32 x) z).
Definition Maj (x y z : Z) : Z :=
  Z.lxor (Z.lxor (Z.land x y) (Z.land x z)) (Z.land y z).
Definition Sigma0 (x : Z) : Z := Z.lxor (Z.lxor (rotr 2 x) (rotr 13 x)) (rotr 22 x).
Definition Sigma1 (x : Z) : Z := Z.lxor (Z.lxor (rotr 6 x) (rotr 11 x)) (rotr 25 x).
Definition sigma0 (x : Z) : Z := Z.lxor (Z.lxor (rotr 7 x) (rotr 18 x)) (Z.shiftr x 3).
Definition sigma1 (x : Z) : Z := Z.lxor (Z.lxor (rotr 17 x) (rotr 19 x)) (Z.shiftr x 10).

(** The constants are fractional parts of roots of the first primes: the
    first 32 bits after the point of the cube roots of the first 64 primes
    ([K]) and of the square roots of the first 8 ([H0]). *)
Definition is_prime (n : Z) : bool :=
  forallb (fun d => negb (n mod Z.of_nat d =? 0)) (seq 2 (Z.to_nat n - 2)).

Definition primes : list Z := filter is_prime (map Z.of_nat (seq 2 310)).

(** Integer cube root, one bit at a time. *)
Definition cube_root (n : Z) : Z :=
  fold_left (fun r b => if (r + 2 ^ b) ^ 3 <=? n then r + 2 ^ b else r)
            (rev (map Z.of_nat (seq 0 40))) 0.

Definition K : list Z :=
  Eval vm_compute in map (fun p => cube_root (p * 2 ^ 96) mod 2 ^ 32) primes.

Definition H0 : list Z :=
  Eval vm_compute in map (fun p => Z.sqrt (p * 2 ^ 64) mod 2 ^ 32) (firstn 8 primes).

(** Big-endian bytes of the [n]-byte integer [x]. *)
Fixpoint be_bytes (n : nat) (x : Z) : list Z :=
  match n with
  | O => []
  | S n' => be_bytes n' (x / 256) ++ [x mod 256]
  end.

(** The message followed by the bit 1, zeros, and its length in bits on
    eight bytes, a multiple of 64 bytes in all. *)
Definition pad (msg : list Z) : list Z :=
  let len := Z.of_nat (List.length msg) in
  msg ++ [0x80] ++ repeat 0 (Z.to_nat ((55 - len) mod 64)) ++ be_bytes 8 (8 * len).

Fixpoint be_words (bs : list Z) : list Z :=
  match bs with
  | b0 :: b1 :: b2 :: b3 :: bs' =>
      (((b0 * 256 + b1) * 256 + b2) * 256 + b3) :: be_words bs'
  | _ => []
  end.

(** Message schedule; [rw] holds the words computed so far, latest first. *)
Fixpoint schedule (n : nat) (rw : list Z) : list Z :=
  match n with
  | O => rev rw
  | S n' =>
      let w := add32 (add32 (sigma1 (nth 1 rw 0)) (nth 6 rw 0))
                     (add32 (sigma0 (nth 14 rw 0)) (nth 15 rw 0)) in
      schedule n' (w :: rw)
  end.

Record regs := { ra : Z; rb : Z; rc : Z; rd : Z; re : Z; rf : Z; rg : Z; rh : Z }.

Definition round (s : regs) (kw : Z * Z) : regs :=
  let t1 := add32 (add32 (add32 (rh s) (Sigma1 (re s)))
                         (add32 (Ch (re s) (rf s) (rg s)) (fst kw))) (snd kw) in
  let t2 := add32 (Sigma0 (ra s)) (Maj (ra s) (rb s) (rc s)) in
  {| ra := add32 t1 t2; rb := ra s; rc := rb s; rd := rc s;
     re := add32 (rd s) t1; rf := re s; rg := rf s; rh := rg s |}.

Definition regs_of (h : list Z) : regs :=
  {| ra := nth 0 h 0; rb := nth 1 h 0; rc := nth 2 h 0; rd := nth 3 h 0;
     re := nth 4 h 0; rf := nth 5 h 0; rg := nth 6 h 0; rh := nth 7 h 0 |}.

Definition list_of (s : regs) : list Z :=
  [ra s; rb s; rc s; rd s; re s; rf s; rg s; rh s].

Definition compress (h : list Z) (block : list Z) : list Z :=
  let w := schedule 48 (rev (be_words block)) in
  let s := fold_left round (combine K w) (regs_of h) in
  map (fun p => add32 (fst p) (snd p)) (combine h (list_of s)).

Fixpoint blocks (fuel : nat) (bs : list Z) : list (list Z) :=
  match fuel, bs with
  | S fuel', _ :: _ => firstn 64 bs :: blocks fuel' (skipn 64 bs)
  | _, _ => []
  end.

Definition digest (msg : list Z) : list Z :=
  let p := pad msg in
  flat_map (be_bytes 4) (fold_left compress (blocks (List.length p) p) H0).

Definition hex_digit (d : Z) : ascii :=
  if d <? 10 then Text.chr (48 + d) else Text.chr (87 + d).

Definition hex (bs : list Z) : string :=
  string_of_list_ascii (flat_map (fun b => [hex_digit (b / 16); hex_digit (b mod 16)]) bs).

(** A hash object is modelled by the bytes fed to it so far. *)
Definition hasher := list Z.
Definition new : hasher := [].
Definition update (h : hasher) (data : list Z) : hasher := h ++ data.
Definition hexdigest (h : hasher) : string := hex (digest h).

End SHA256.

(** [s.encode()]: the UTF-8 bytes of the text, as the text is held. *)
Definition encode (s : string) : list Z := map Text.ord (list_ascii_of_string s).

(** ** [random.Random(seed)]: the Mersenne Twister MT19937 *)
Module MT.

Definition N : nat := 624.
Definition M : nat := 397.
Definition w32 (x : Z) : Z := x mod 2 ^ 32.

Definition get (mt : list Z) (i : nat) : Z := nth i mt 0.

Fixpoint set (mt : list Z) (i : nat) (v : Z) : list Z :=
  match mt, i with
  | [], _ => []
  | _ :: mt', O => v :: mt'
  | x :: mt', S i' => x :: set mt' i' v
  end.

Definition mix (x : Z) : Z := Z.lxor x (Z.shiftr x 30).

(** [init_genrand]: [mt[0] = s], then each word from the one before. *)
Fixpoint init_words (n : nat) (i : Z) (prev : Z) : list Z :=
  match n with
  | O => []
  | S n' =>
      let x := w32 (1812433253 * mix prev + i) in
      x :: init_words n' (i + 1) x
  end.

Definition init_genrand (s : Z) : list Z := s :: init_words (N - 1) 1 s.

(** The key of an integer seed: the 32-bit words of its absolute value,
    lowest first, one word at least. *)
Fixpoint key_words (fuel : nat) (n : Z) : list Z :=
  match fuel with
  | O => []
  | S fuel' =>
      if n <? 2 ^ 32 then [n] else w32 n :: key_words fuel' (n / 2 ^ 32)
  end.

Definition key_of_seed (seed : Z) : list Z :=
  let n := Z.abs seed in
  key_words (S (Z.to_nat (Z.log2 n))) n.

Definition wrap (mt : list Z) (i : nat) : list Z * nat :=
  if (N <=? i)%nat then (set mt 0 (get mt (N - 1)), 1%nat) else (mt, i).

(** First loop of [init_by_array]. *)
Fixpoint key_loop (k : nat) (key : list Z) (mt : list Z) (i j : nat) : list Z * nat :=
  match k with
  | O => (mt, i)
  | S k' =>
      let v := w32 (Z.lxor (get mt i) (w32 (mix (get mt (i - 1)) * 1664525))
                    + nth j key 0 + Z.of_nat j) in
      let (mt', i') := wrap (set mt i v) (S i) in
      let j' := if (List.length key <=? S j)%nat then O else S j in
      key_loop k' key mt' i' j'
  end.

(** Second loop of [init_by_array]. *)
Fixpoint final_loop (k : nat) (mt : list Z) (i : nat) : list Z :=
  match k with
  | O => mt
  | S k' =>
      let v := w32 (Z.lxor (get mt i) (w32 (mix (get mt (i - 1)) * 1566083941))
                    - Z.of_nat i) in
      let (mt', i') := wrap (set mt i v) (S i) in
      final_loop k' mt' i'
  end.

Definition init_by_array (key : list Z) : list Z :=
  let (mt, i) := key_loop (Nat.max N (List.length key)) key (init_genrand 19650218) 1 0 in
  set (final_loop (N - 1) mt i) 0 0x80000000.

(** The generator: the state words and the index of the next one. *)
Record rng := { words : list Z; index : nat }.

Definition seed (s : Z) : rng :=
  {| words := init_by_array (key_of_seed s); index := N |}.

Definition twist_word (mt : list Z) (kk other : nat) : list Z :=
  let y := Z.lor (Z.land (get mt kk) 0x80000000) (Z.land (get mt (S kk mod N)) 0x7fffffff) in
  set mt kk (Z.lxor (Z.lxor (get mt other) (Z.shiftr y 1))
                    (if Z.odd y then 0x9908b0df else 0)).

(** Regeneration of the [N] words, in place and in index order. *)
Definition twist (mt : list Z) : list Z :=
  fold_left (fun mt kk => twist_word mt kk ((kk + M) mod N)) (seq 0 N) mt.

Definition temper (y : Z) : Z :=
  let y := Z.lxor y (Z.shiftr y 11) in
  let y := Z.lxor y (Z.land (w32 (Z.shiftl y 7)) 0x9d2c5680) in
  let y := Z.lxor y (Z.land (w32 (Z.shiftl y 15)) 0xefc60000) in
  Z.lxor y (Z.shiftr y 18).

Definition genrand_uint32 (g : rng) : Z * rng :=
  let g := if (N <=? index g)%nat then {| words := twist (words g); index := O |} else g in
  (temper (get (words g) (index g)), {| words := words g; index := S (index g) |}).

Definition float_of_word (z : Z) : float := F64.of_SF (F64.SF_of_Z z).

(** [rng.random()]: 53 random bits scaled to [0, 1). *)
Definition random (g : rng) : float * rng :=
  let (x, g) := genrand_uint32 g in
  let (y, g) := genrand_uint32 g in
  let a := float_of_word (Z.shiftr x 5) in
  let b := float_of_word (Z.shiftr y 6) in
  ((a * 67108864 + b) * (1 / 9007199254740992), g)%float.

End MT.

(** ** The scanner *)

Import PyFloatCtor PyFormat.

(** *** Tuning *)

Definition PREC : nat := 17.
(** [0.9995], the binary64 value the literal denotes. *)
Definition NEAR_THRESH : float := 0x1.ffbe76c8b4396p-1%float.
Definition N_PROJ : nat := 12.

(** *** Vectors *)

(** [round_vec(v, p)]: every element is formatted with [p] significant
    digits and read back with [float()]. *)
Definition round_elt (p : nat) (x : float) : result float :=
  s <- format_spec p x ;;
  match float_of_string s with
  | Some y => Ok y
  | None => Raise ValueError
  end.

Definition round_vec (v : list float) (p : nat) : result (list float) :=
  mapM (round_elt p) v.

(** [hash_vec(v)]: the hash object is fed, for every element, its
    ['{:.17g}'] text and a comma. *)
Definition hash_vec (v : list float) : string :=
  SHA256.hexdigest
    (fold_left
       (fun h x => SHA256.update (SHA256.update h (encode (format_g 17 x))) (encode ","%string))
       v SHA256.new).

Fixpoint zip {A B : Type} (a : list A) (b : list B) : list (A * B) :=
  match a, b with
  | x :: a', y :: b' => (x, y) :: zip a' b'
  | _, _ => []
  end.

(** [sum(...)] over floats: additions from 0, left to right, each rounded
    (the built-in of CPython up to 3.11; an empty sum is 0). *)
Definition sum (l : list float) : float := fold_left PrimFloat.add l 0%float.

Definition dot (a b : list float) : float :=
  sum (map (fun xy => (fst xy * snd xy)%float) (zip a b)).

(** [math.sqrt]: a ValueError below zero. *)
Definition math_sqrt (x : float) : result float :=
  if PrimFloat.ltb x 0 then Raise ValueError else Ok (PrimFloat.sqrt x).

(** [x or 1.0]. *)
Definition or_one (x : float) : float := if F64.truthy x then x else 1%float.

Definition norm (v : list float) : result float :=
  s <- math_sqrt (sum (map (fun x => (x * x)%float) v)) ;;
  Ok (or_one s).

(** Float division: a ZeroDivisionError when the divisor is zero. *)
Definition truediv (x y : float) : result float :=
  if PrimFloat.eqb y 0 then Raise ZeroDivisionError else Ok (x / y)%float.

Definition cos (a b : list float) : result float :=
  let d := dot a b in
  na <- norm a ;;
  nb <- norm b ;;
  truediv d (na * nb)%float.

(** *** Projections *)

(** One Rademacher vector: [1.0 if rng.random() < 0.5 else -1.0], [dim] times. *)
Fixpoint rademacher (dim : nat) (g : MT.rng) : list float * MT.rng :=
  match dim with
  | O => ([], g)
  | S dim' =>
      let (u, g1) := MT.random g in
      let (r, g2) := rademacher dim' g1 in
      ((if PrimFloat.ltb u 0.5 then 1 else -1)%float :: r, g2)
  end.

Fixpoint projections (n dim : nat) (g : MT.rng) : list (list float) :=
  match n with
  | O => []
  | S n' => let (r, g1) := rademacher dim g in r :: projections n' dim g1
  end.

Definition gen_projections (dim n : nat) (seed : Z) : list (list float) :=
  projections n dim (MT.seed seed).

(** The loop [s = 0.0; for xi, ri in zip(v, r): s += xi*ri]. *)
Fixpoint project (s : float) (v r : list float) : float :=
  match v, r with
  | xi :: v', ri :: r' => project (s + xi * ri)%float v' r'
  | _, _ => s
  end.

Definition sign_signature (v : list float) (R : list (list float)) : list Z :=
  map (fun r => if F64.ge (project 0%float v r) 0%float then 1 else 0) R.

(** *** Records and indices *)

(** A decoded record as [main] reads it: [g.get("id")] and [g.get("vec")].
    Identifiers are text, as the record schema has them ([None]: no id, or
    null; an id of another JSON type is outside this embedding); the vector
    field is any decoded value ([PyNone] when absent). *)
Record glyph := { g_id : option string; g_vec : pyval }.

(** [os.path.basename]: what follows the last slash. *)
Definition basename (path : string) : string :=
  string_of_list_ascii
    (fold_left (fun acc c => if Ascii.eqb c "/" then [] else acc ++ [c])
               (list_ascii_of_string path) []).

(** [(gid, file)] *)
Definition member : Type := string * string.

(** [(gid, file, vec_rounded, vec_raw)] *)
Record entry := { e_id : string; e_src : string; e_vr : list float; e_raw : list float }.

(** A dict whose values are lists, in insertion order of its keys;
    [d.setdefault(k, []).append(x)]. *)
Fixpoint setdefault_append {K V : Type} (eqb : K -> K -> bool)
         (d : list (K * list V)) (k : K) (x : V) : list (K * list V) :=
  match d with
  | [] => [(k, [x])]
  | (k', l) :: d' =>
      if eqb k' k then (k', l ++ [x]) :: d'
      else (k', l) :: setdefault_append eqb d' k x
  end.

Definition sig_eqb (a b : list Z) : bool :=
  (List.length a =? List.length b)%nat && forallb (fun p => fst p =? snd p) (combine a b).

Record state := {
  exact_index : list (string * list member);
  sig_buckets : list (list Z * list entry);
  dims : option nat;
  R : option (list (list float));
  total : nat
}.

Definition init : state :=
  {| exact_index := []; sig_buckets := []; dims := None; R := None; total := O |}.

Definition truthy_id (gid : option string) : bool :=
  match gid with
  | Some s => negb (String.eqb s "")
  | None => false
  end.

(** Lines 78-83: the first list seen fixes [dims] and [R]; afterwards a list
    of another length is skipped ([None]). *)
Definition establish (st : state) (n : nat) : option state :=
  match dims st with
  | None =>
      Some {| exact_index := exact_index st; sig_buckets := sig_buckets st;
              dims := Some n; R := Some (gen_projections n N_PROJ 47);
              total := total st |}
  | Some d => if (n =? d)%nat then Some st else None
  end.

Definition isinstance_list (v : pyval) : bool :=
  match v with
  | PyList _ => true
  | _ => false
  end.

Definition items (v : pyval) : list pyval :=
  match v with
  | PyList l => l
  | _ => []
  end.

Definition text (gid : option string) : string :=
  match gid with
  | Some s => s
  | None => ""
  end.

(** Lines 85-99: the conversion of the elements and, unless it raises, the
    two insertions. *)
Definition insert (st : state) (g : glyph) (src : string) : result state :=
  let gid := g_id g in
  let v := g_vec g in
  match mapM float_of (items v) with
  | Raise _ => Ok st
  | Ok v_raw =>
      v_r <- round_vec v_raw PREC ;;
      let h := hash_vec v_r in
      let exact' :=
        setdefault_append String.eqb (exact_index st) h (text gid, basename src) in
      basis <- match R st with
               | Some basis => Ok basis
               | None => Raise TypeError
               end ;;
      let sig := sign_signature v_raw basis in
      let e := {| e_id := text gid; e_src := basename src;
                  e_vr := v_r; e_raw := v_raw |} in
      Ok {| exact_index := exact';
            sig_buckets := setdefault_append sig_eqb (sig_buckets st) sig e;
            dims := dims st; R := R st;
            total := S (total st) |}
  end.

(** One turn of the ingestion loop for the record [g] streamed from [src];
    [continue] returns the state as it stands. *)
Definition ingest (st : state) (g : glyph) (src : string) : result state :=
  let gid := g_id g in
  let v := g_vec g in
  if negb (truthy_id gid) || negb (isinstance_list v) then Ok st
  else
    match establish st (List.length (items v)) with
    | None => Ok st
    | Some st1 => insert st1 g src
    end.

Fixpoint ingest_file (st : state) (src : string) (gs : list glyph) : result state :=
  match gs with
  | [] => Ok st
  | g :: gs' => st1 <- ingest st g src ;; ingest_file st1 src gs'
  end.

(** The two loops over [paths] and over the records streamed from each. *)
Fixpoint ingest_all (st : state) (files : list (string * list glyph)) : result state :=
  match files with
  | [] => Ok st
  | (p, gs) :: files' => st1 <- ingest_file st p gs ;; ingest_all st1 files'
  end.

(** *** Reports *)

(** Clusters printed: the lists of the exact index with more than one member. *)
Definition exact_clusters (idx : list (string * list member)) : list (list member) :=
  map snd (filter (fun kv => (1 <? List.length (snd kv))%nat) idx).

(** One printed near-clone: both ends and their cosine. *)
Record near := { n_left : entry; n_right : entry; n_cos : float }.

(** The scan state: [seen_pairs] and the pairs printed so far, in order. *)
Record scan := { seen_pairs : list (string * string); found : list near }.

Definition key_eqb (a b : string * string) : bool :=
  String.eqb (fst a) (fst b) && String.eqb (snd a) (snd b).

Definition key_in (key : string * string) (seen : list (string * string)) : bool :=
  existsb (key_eqb key) seen.

(** Body of the inner loop for [entries[i]] and [entries[j]]. *)
Definition compare_pair (ei ej : entry) (sc : scan) : result scan :=
  let key := (e_id ei, e_id ej) in
  if key_in key (seen_pairs sc) then Ok sc
  else
    c <- cos (e_raw ei) (e_raw ej) ;;
    let found' := if F64.ge c NEAR_THRESH
                  then found sc ++ [{| n_left := ei; n_right := ej; n_cos := c |}]
                  else found sc in
    Ok {| seen_pairs := key :: seen_pairs sc; found := found' |}.

(** [for j in range(i+1, len(entries))] *)
Fixpoint scan_from (ei : entry) (rest : list entry) (sc : scan) : result scan :=
  match rest with
  | [] => Ok sc
  | ej :: rest' => sc1 <- compare_pair ei ej sc ;; scan_from ei rest' sc1
  end.

(** [for i in range(len(entries))] *)
Fixpoint scan_bucket (entries : list entry) (sc : scan) : result scan :=
  match entries with
  | [] => Ok sc
  | ei :: rest => sc1 <- scan_from ei rest sc ;; scan_bucket rest sc1
  end.

Fixpoint scan_buckets (buckets : list (list Z * list entry)) (sc : scan) : result scan :=
  match buckets with
  | [] => Ok sc
  | (_, entries) :: buckets' =>
      if (List.length entries <? 2)%nat then scan_buckets buckets' sc
      else sc1 <- scan_bucket entries sc ;; scan_buckets buckets' sc1
  end.

(** What a run prints: the counts of the first line, the exact clusters and
    the near-clones, each in printing order (the data of the lines, not
    their text). *)
Record report := {
  scanned : nat;
  n_files : nat;
  clusters : list (list member);
  near_clones : list near
}.

(** [main(paths)]: every path comes with the records [stream_glyphs] yields
    for it (reading and decoding the files is not part of the embedding). *)
Definition main (files : list (string * list glyph)) : result report :=
  st <- ingest_all init files ;;
  sc <- scan_buckets (sig_buckets st) {| seen_pairs := []; found := [] |} ;;
  Ok {| scanned := total st; n_files := List.length files;
        clusters := exact_clusters (exact_index st);
        near_clones := found sc |}.


(** * Notions used in the statements *)

Import Text.

(** ** Floats *)

Definition fexp64 := fexp prec emax.

(** A spec float that is not zero and, when finite, at least [2^(k-1)] in
    magnitude. *)
Definition big (k : Z) (x : spec_float) : Prop :=
  match x with
  | S754_zero _ => False
  | S754_finite _ m e => k <= Z.log2 (Z.pos m) + 1 + e
  | _ => True
  end.

(** No sign bit on a negative value: zero of either sign, a positive
    number, plus infinity or NaN. *)
Definition not_negative (x : spec_float) : Prop :=
  match x with
  | S754_finite true _ _ | S754_infinity true => False
  | _ => True
  end.

Definition plus_signed (x : spec_float) : Prop :=
  match x with
  | S754_zero s | S754_infinity s | S754_finite s _ _ => s = false
  | S754_nan => True
  end.

(** The squares summed by [norm]. *)
Definition squares (v : list float) : list float := map (fun x => (x * x)%float) v.

(** ** Text *)

(** Characters a numeral is made of: no space, no underscore. *)
Definition plain (c : ascii) : bool := negb (is_space c) && negb (Ascii.eqb c "_").

(** ** The run *)

(** The records of a run in streaming order, each with the path it comes
    from. *)
Definition stream (files : list (string * list glyph)) : list (glyph * string) :=
  flat_map (fun pg => map (fun g => (g, fst pg)) (snd pg)) files.

(** A record that passes the test of line 76. *)
Definition eligible (g : glyph) : bool :=
  truthy_id (g_id g) && isinstance_list (g_vec g).

(** The length that line 79 records: that of the first eligible record. *)
Definition first_dims (s : list (glyph * string)) : option nat :=
  match find (fun gp => eligible (fst gp)) s with
  | Some gp => Some (List.length (items (g_vec (fst gp))))
  | None => None
  end.

Definition basis_of (d : nat) : list (list float) := gen_projections d N_PROJ 47.

(** The entry a record contributes once the dimension is [d], if any. *)
Definition accept (d : nat) (gp : glyph * string) : option entry :=
  let v := items (g_vec (fst gp)) in
  if eligible (fst gp) && (List.length v =? d)%nat then
    match mapM float_of v with
    | Ok v_raw =>
        match round_vec v_raw PREC with
        | Ok v_r => Some {| e_id := text (g_id (fst gp)); e_src := basename (snd gp);
                            e_vr := v_r; e_raw := v_raw |}
        | Raise _ => None
        end
    | Raise _ => None
    end
  else None.

Definition opt_list {A : Type} (o : option A) : list A :=
  match o with
  | Some a => [a]
  | None => []
  end.

Definition accepted_under (d : nat) (s : list (glyph * string)) : list entry :=
  flat_map (fun gp => opt_list (accept d gp)) s.

(** The entries of a run, in the order of their insertion. *)
Definition accepted (s : list (glyph * string)) : list entry :=
  match first_dims s with
  | Some d => accepted_under d s
  | None => []
  end.

(** The dict that inserting the pairs in order builds. *)
Definition group {K V : Type} (eqb : K -> K -> bool) (kvs : list (K * V)) : list (K * list V) :=
  fold_left (fun d kv => setdefault_append eqb d (fst kv) (snd kv)) kvs [].

(** The values inserted under [k], in order. *)
Definition select {K V : Type} (eqb : K -> K -> bool) (k : K) (kvs : list (K * V)) : list V :=
  map snd (filter (fun kv => eqb (fst kv) k) kvs).

Definition exact_key (e : entry) : string := hash_vec (e_vr e).
Definition member_of (e : entry) : member := (e_id e, e_src e).

Definition exact_of (acc : list entry) : list (string * list member) :=
  group String.eqb (map (fun e => (exact_key e, member_of e)) acc).

Definition buckets_of (basis : list (list float)) (acc : list entry) : list (list Z * list entry) :=
  group sig_eqb (map (fun e => (sign_signature (e_raw e) basis, e)) acc).

(** The state reached when the dimension is [d] and the entries inserted
    are [acc]. *)
Definition state_of (d : option nat) (acc : list entry) : state :=
  {| exact_index := exact_of acc;
     sig_buckets := match d with
                    | Some n => buckets_of (basis_of n) acc
                    | None => []
                    end;
     dims := d;
     R := option_map basis_of d;
     total := List.length acc |}.

(** The effect of one record on the dimension and on the entries. *)
Definition step (da : option nat * list entry) (gp : glyph * string) : option nat * list entry :=
  let d' := match fst da with
            | Some n => Some n
            | None => if eligible (fst gp) then Some (List.length (items (g_vec (fst gp)))) else None
            end in
  (d', match d' with
       | Some n => (snd da ++ opt_list (accept n gp))%list
       | None => snd da
       end).

(** ** The scan *)

(** The cosine as [cos] computes it when nothing is raised. *)
Definition cosine (a b : list float) : float :=
  (dot a b / (or_one (PrimFloat.sqrt (sum (squares a)))
              * or_one (PrimFloat.sqrt (sum (squares b)))))%float.

(** The pairs [(entries[i], entries[j])], [i < j], in the order of the two
    loops. *)
Fixpoint bucket_pairs (entries : list entry) : list (entry * entry) :=
  match entries with
  | [] => []
  | ei :: rest => (map (pair ei) rest ++ bucket_pairs rest)%list
  end.

(** All pairs the scan reaches, bucket after bucket. *)
Definition candidates (buckets : list (list Z * list entry)) : list (entry * entry) :=
  flat_map (fun b => bucket_pairs (snd b)) buckets.

Definition pair_key (p : entry * entry) : string * string := (e_id (fst p), e_id (snd p)).

(** Every element of a list with the elements before it. *)
Fixpoint occurrences_from {A : Type} (pre l : list A) : list (list A * A) :=
  match l with
  | [] => []
  | x :: l' => (pre, x) :: occurrences_from (pre ++ [x])%list l'
  end.

Definition occurrences {A : Type} (l : list A) : list (list A * A) := occurrences_from [] l.

(** A pair is reported when its ids are those of no earlier pair and its
    cosine is at least the threshold. *)
Definition qualifies (o : list (entry * entry) * (entry * entry)) : bool :=
  negb (key_in (pair_key (snd o)) (map pair_key (fst o)))
  && F64.ge (cosine (e_raw (fst (snd o))) (e_raw (snd (snd o)))) NEAR_THRESH.

Definition near_of (p : entry * entry) : near :=
  {| n_left := fst p; n_right := snd p; n_cos := cosine (e_raw (fst p)) (e_raw (snd p)) |}.

Definition reported (cands : list (entry * entry)) : list near :=
  map (fun o => near_of (snd o)) (filter qualifies (occurrences cands)).

(** The scan over a list of pairs. *)
Fixpoint scan_pairs (cands : list (entry * entry)) (sc : scan) : result scan :=
  match cands with
  | [] => Ok sc
  | p :: cands' => sc1 <- compare_pair (fst p) (snd p) sc ;; scan_pairs cands' sc1
  end.

(** The basis and the buckets of a run ([R] is read only once set). *)
Definition run_basis (s : list (glyph * string)) : list (list float) :=
  match first_dims s with
  | Some d => basis_of d
  | None => []
  end.

Definition run_buckets (s : list (glyph * string)) : list (list Z * list entry) :=
  buckets_of (run_basis s) (accepted s).

(** What a run over the stream [s] of [n] files prints. *)
Definition report_of (n : nat) (s : list (glyph * string)) : report :=
  {| scanned := List.length (accepted s);
     n_files := n;
     clusters := exact_clusters (exact_of (accepted s));
     near_clones := reported (candidates (run_buckets s)) |}.

(** ** Comparing two runs *)

(** All eligible records carry lists of one length. *)
Definition uniform (s : list (glyph * string)) : Prop :=
  forall gp gp', In gp s -> In gp' s ->
    eligible (fst gp) = true -> eligible (fst gp') = true ->
    List.length (items (g_vec (fst gp))) = List.length (items (g_vec (fst gp'))).

(** Two lists of clusters that are the same set of sets of members. *)
Definition same_clusters (c1 c2 : list (list member)) : Prop :=
  (forall c, In c c1 -> exists c', In c' c2 /\ Permutation c c')
  /\ (forall c', In c' c2 -> exists c, In c c1 /\ Permutation c c').

(** Two near-clones with the same two ends, in either order, and the same
    cosine. *)
Definition same_pair (n n' : near) : Prop :=
  n_cos n = n_cos n'
  /\ ((n_left n = n_left n' /\ n_right n = n_right n')
      \/ (n_left n = n_right n' /\ n_right n = n_left n')).

Definition same_pairs (l1 l2 : list near) : Prop :=
  (forall n, In n l1 -> exists n', In n' l2 /\ same_pair n n')
  /\ (forall n', In n' l2 -> exists n, In n l1 /\ same_pair n n').

(** * Inputs of the examples *)
Module Ex.

Definition ints (l : list Z) : pyval := PyList (map PyInt l).
Definition floats (l : list float) : pyval := PyList (map PyFloat l).
Definition rec (i : string) (v : pyval) : glyph := {| g_id := Some i; g_vec := v |}.

(** [3.0000000000000004] as the decoder reads it: the float after 3. *)
Definition three_up : float := 0x1.8000000000001p+1%float.

(** The end-to-end scenario: [a] and [b] carry [1, 2, 3], [c] carries
    [1, 2, 3.0000000000000004]. *)
Definition a : glyph := rec "a" (ints [1; 2; 3]).
Definition b : glyph := rec "b" (ints [1; 2; 3]).
Definition c : glyph := rec "c" (PyList [PyInt 1; PyInt 2; PyFloat three_up]).
Definition scenario : list (string * list glyph) :=
  [("f1.json"%string, [a; b]); ("f2.json"%string, [c])].

(** Two records whose only element is NaN. *)
Definition nan_files : list (string * list glyph) :=
  [("f"%string, [rec "a" (floats [nan]); rec "b" (floats [nan])])].

(** A record whose element is not a number, before two sound records. *)
Definition oops : glyph := rec "x" (PyList [PyStr "oops"]).
Definition oops_files : list (string * list glyph) :=
  [("f"%string, [oops; a; b])].

(** Records of two lengths, in two orders. *)
Definition short1 : glyph := rec "s1" (ints [1; 2]).
Definition short2 : glyph := rec "s2" (ints [1; 2]).
Definition short_first : list (string * list glyph) :=
  [("f"%string, [short1; short2; a; b])].
Definition long_first : list (string * list glyph) :=
  [("f"%string, [a; b; short1; short2])].

(** Three records of one bucket, two of them under the id [q], in two
    orders. *)
Definition p : glyph := rec "p" (ints [10; 1]).
Definition q_far : glyph := rec "q" (ints [10; 2]).
Definition q_same : glyph := rec "q" (ints [10; 1]).
Definition far_first : list (string * list glyph) :=
  [("f"%string, [p; q_far; q_same])].
Definition same_first : list (string * list glyph) :=
  [("f"%string, [p; q_same; q_far])].

(** An empty vector first. *)
Definition empty_first : list (string * list glyph) :=
  [("f"%string, [rec "p" (PyList []); rec "q" (ints [10; 1]); rec "r" (PyList [])])].

(** Two vectors a hair apart on both sides of the hyperplane [1, -1]
    ([1.0001] is the float the decoder reads). *)
Definition near_one : float := 0x1.00068db8bac71p+0%float.
Definition left_of : glyph := rec "l" (PyList [PyInt 1; PyFloat near_one]).
Definition right_of : glyph := rec "r" (PyList [PyFloat near_one; PyInt 1]).
Definition across_hyperplane : list (string * list glyph) :=
  [("f"%string, [left_of; right_of])].

(** The ids [p] and [q] in one file, the id [q] again in another. *)
Definition two_sources : list (string * list glyph) :=
  [("f1"%string, [p; q_far]); ("f2"%string, [q_same])].

End Ex.

(** * Further notions *)

(** NaN or an infinity. *)
Definition non_finite (x : float) : bool :=
  match Prim2SF x with
  | S754_nan | S754_infinity _ => true
  | _ => false
  end.

(** [0.0] or [-0.0]. *)
Definition is_zero (x : float) : bool := PrimFloat.eqb x 0.

(** [1.0] or [-1.0]. *)
Definition unit_entry (x : float) : Prop := x = 1%float \/ x = (-1)%float.

(** Plus infinity or NaN, and an infinity of either sign or NaN, as spec
    floats; a zero of either sign or NaN. *)
Definition sf_top (x : spec_float) : Prop :=
  match x with
  | S754_nan | S754_infinity false => True
  | _ => False
  end.

Definition sf_unbounded (x : spec_float) : Prop :=
  match x with
  | S754_nan | S754_infinity _ => True
  | _ => False
  end.

Definition sf_null (x : spec_float) : Prop :=
  match x with
  | S754_nan | S754_zero _ => True
  | _ => False
  end.

(** The bytes [hash_vec] feeds to the hash object. *)
Definition hash_input (v : list float) : list Z :=
  flat_map (fun x => encode (format_g 17 x) ++ encode ","%string)%list v.

(** Characters of the text of a number. *)
Definition numeric_char (c : ascii) : bool :=
  Text.is_digit c
  || existsb (Ascii.eqb c) (list_ascii_of_string ".e+-infa").

Definition hex_char (c : ascii) : bool :=
  existsb (Ascii.eqb c) (list_ascii_of_string "0123456789abcdef").

Definition has_slash (s : string) : bool :=
  existsb (fun c => Ascii.eqb c "/") (list_ascii_of_string s).

Definition is_nan (x : float) : bool :=
  match Prim2SF x with
  | S754_nan => true
  | _ => false
  end.

(** The values [format] writes without digits of their own, and the zeros. *)
Definition special (x : float) : bool := non_finite x || is_zero x.

(** A signature bit. *)
Definition is_bit (b : Z) : Prop := b = 0 \/ b = 1.

(** Texts outside ASCII, by the bytes of their UTF-8 encoding. *)
Definition utf8 (bytes : list Z) : string := string_of_list_ascii (map Text.chr bytes).

(** The Arabic-Indic digits one and two, U+0661 U+0662. *)
Definition arabic_12 : string := utf8 [217; 161; 217; 162].

(** A no-break space, then the fullwidth [1.5] with an ASCII point:
    U+00A0 U+FF11 U+002E U+FF15. *)
Definition fullwidth_1_5 : string := utf8 [194; 160; 239; 188; 145; 46; 239; 188; 149].

(** The superscript two, U+00B2, and the minus sign U+2212 before [1]. *)
Definition superscript_2 : string := utf8 [194; 178].
Definition minus_sign_1 : string := utf8 [226; 136; 146; 49].

(** One record whose element is the text of Arabic-Indic digits. *)
Definition arabic_file : list (string * list glyph) :=
  [("f"%string, [{| g_id := Some "u"%string; g_vec := PyList [PyStr arabic_12] |}])].

(** Two records that differ by the sign of a zero. *)
Definition signed_zeros : list (string * list glyph) :=
  [("f"%string,
    [{| g_id := Some "z1"%string; g_vec := PyList [PyFloat 0; PyFloat 0] |};
     {| g_id := Some "z2"%string; g_vec := PyList [PyFloat 0; PyFloat (-0)] |}])].
(** * Properties *)

(** ** Floats: comparisons with zero *)

Lemma Prim2SF_zero : Prim2SF 0%float = S754_zero false.
Proof. reflexivity. Qed.

Lemma eqb_zero_inv (x : float) :
  PrimFloat.eqb x 0 = true -> exists s, Prim2SF x = S754_zero s.
Proof.
  rewrite FloatAxioms.eqb_spec, Prim2SF_zero. unfold SFeqb.
  destruct (Prim2SF x) as [s | s | | s m e]; simpl; try discriminate.
  - intros _. now exists s.
  - destruct s; discriminate.
  - destruct s; discriminate.
Qed.

Lemma eqb_zero_ge (x : float) : PrimFloat.eqb x 0 = true -> F64.ge x 0 = true.
Proof.
  intros H. destruct (eqb_zero_inv x H) as [s Hs].
  unfold F64.ge. now rewrite FloatAxioms.leb_spec, Prim2SF_zero, Hs.
Qed.

(** ** Signatures *)

Lemma project_fold (v r : list float) (s : float) :
  project s v r = fold_left PrimFloat.add (map (fun xy => (fst xy * snd xy)%float) (zip v r)) s.
Proof.
  revert r s. induction v as [| x v IH]; intros [| y r] s; simpl; auto.
Qed.

Lemma project_dot (v r : list float) : project 0%float v r = dot v r.
Proof. apply project_fold. Qed.

Lemma sign_signature_map (v : list float) (basis : list (list float)) :
  sign_signature v basis = map (fun r => if F64.ge (dot v r) 0%float then 1 else 0) basis.
Proof.
  unfold sign_signature. apply map_ext. intros r. now rewrite project_dot.
Qed.

(** C7: the signature has one bit per hyperplane, in order; the bit of the
    k-th hyperplane is 1 when the dot product of the vector with it is
    [>= 0] and 0 otherwise, and a dot product equal to zero gives 1. *)
Theorem sign_signature_bits (v : list float) (basis : list (list float)) (k : nat) (r : list float) :
  nth_error basis k = Some r ->
  List.length (sign_signature v basis) = List.length basis
  /\ nth_error (sign_signature v basis) k
     = Some (if F64.ge (dot v r) 0%float then 1 else 0)
  /\ (PrimFloat.eqb (dot v r) 0%float = true ->
      nth_error (sign_signature v basis) k = Some 1).
Proof.
  intros Hk. rewrite sign_signature_map.
  assert (Hn : nth_error (map (fun r => if F64.ge (dot v r) 0%float then 1 else 0) basis) k
               = Some (if F64.ge (dot v r) 0%float then 1 else 0)).
  { now rewrite nth_error_map, Hk. }
  split; [apply length_map |]. split; [exact Hn |].
  intros Hz. rewrite Hn. now rewrite (eqb_zero_ge _ Hz).
Qed.

(** The vector [1, -1] lies on the hyperplane [1, 1]: a tie, bit 1. *)
Lemma sign_signature_bits_witness :
  nth_error [[1; 1]; [1; -1]]%float 0 = Some [1; 1]%float
  /\ nth_error (sign_signature [1; -1]%float [[1; 1]; [1; -1]]%float) 0 = Some 1.
Proof.
  split; [reflexivity |].
  apply (sign_signature_bits [1; -1]%float [[1; 1]; [1; -1]]%float 0 [1; 1]%float);
    reflexivity.
Defined.

(** ** The runtime model on known values

    Values of [hashlib], [random], [format] and [float] that the
    definitions above reproduce. *)

Lemma sha256_abc :
  SHA256.hexdigest (encode "abc")
  = "ba7816bf8f01cfea414140de5dae2223b00361a396177a9cb410ff61f20015ad"%string.
Proof. vm_compute. reflexivity. Qed.

(** [random.Random(47).random()] *)
Lemma random_47_first : fst (MT.random (MT.seed 47)) = 0x1.684a628800d32p-2%float.
Proof. vm_compute. reflexivity. Qed.

(** [gen_projections(2)] *)
Lemma projections_2 :
  gen_projections 2 N_PROJ 47
  = [[1; 1]; [1; 1]; [-1; 1]; [1; 1]; [1; 1]; [1; -1];
     [1; -1]; [-1; -1]; [-1; 1]; [-1; 1]; [-1; 1]; [1; -1]]%float.
Proof. vm_compute. reflexivity. Qed.

Lemma format_samples :
  format_g 17 0x1.999999999999ap-4%float = "0.10000000000000001"%string
  /\ format_g 17 0x1.0f0cf064dd592p+73%float = "1e+22"%string
  /\ format_g 17 0x1.4f8b588e368f1p-17%float = "1.0000000000000001e-05"%string
  /\ format_g 17 0x1.e240c9fbe76c9p+16%float = "123456.789"%string
  /\ format_g 17 (-0)%float = "-0"%string
  /\ format_g 17 infinity = "inf"%string.
Proof. vm_compute. auto 10. Qed.

Lemma float_samples :
  float_of_string "0.9995" = Some NEAR_THRESH
  /\ float_of_string " 1_000.5e-3 " = Some 0x1.0020c49ba5e35p+0%float
  /\ float_of_string "1e-5" = Some 0x1.4f8b588e368f1p-17%float
  /\ float_of_string "-Infinity" = Some neg_infinity
  /\ float_of_string "1e999" = Some infinity
  /\ float_of_string "1__0" = None
  /\ float_of_string "oops" = None
  /\ float_of_int (2 ^ 53 + 1) = Some 0x1p+53%float
  /\ float_of_int (2 ^ 1024) = None.
Proof. vm_compute. auto 12. Qed.

(** [float()] on texts outside ASCII: decimal digits of other scripts and
    white space are read, other characters are refused. *)
Lemma float_unicode_samples :
  float_of_string arabic_12 = Some 12%float
  /\ float_of_string fullwidth_1_5 = Some 1.5%float
  /\ float_of_string superscript_2 = None
  /\ float_of_string minus_sign_1 = None
  /\ float_of_string (utf8 [217]) = None.
Proof. repeat split; vm_compute; reflexivity. Qed.

(** ** Floats: the rounding of [SpecFloat] *)

Lemma digits2_size (m : positive) : digits2_pos m = Pos.size m.
Proof. induction m; simpl; congruence. Qed.

Lemma Zdigits2_log2 (m : Z) : 0 < m -> Zdigits2 m = Z.log2 m + 1.
Proof.
  destruct m as [| p | p]; try lia. intros _. simpl.
  rewrite digits2_size. destruct p; simpl; lia.
Qed.

Lemma shr_1_m (mrs : shr_record) :
  0 <= shr_m mrs -> shr_m (shr_1 mrs) = Z.div2 (shr_m mrs).
Proof.
  destruct mrs as [m r s]. simpl. destruct m as [| p | p]; try lia; intros _.
  - reflexivity.
  - destruct p; reflexivity.
Qed.

Lemma iter_shr_1_m (p : positive) (mrs : shr_record) :
  0 <= shr_m mrs -> shr_m (iter_pos shr_1 p mrs) = Z.shiftr (shr_m mrs) (Z.pos p).
Proof.
  revert mrs. induction p as [p IH | p IH |]; intros mrs Hm; simpl iter_pos.
  - assert (H1 : 0 <= shr_m (shr_1 mrs)).
    { rewrite shr_1_m by assumption. rewrite Z.div2_div. apply Z.div_pos; lia. }
    assert (H2 : 0 <= shr_m (iter_pos shr_1 p (shr_1 mrs))).
    { rewrite IH by assumption. apply Z.shiftr_nonneg. assumption. }
    rewrite IH by assumption. rewrite IH by assumption. rewrite shr_1_m by assumption.
    rewrite Z.div2_spec. rewrite !Z.shiftr_shiftr by lia. f_equal. lia.
  - assert (H2 : 0 <= shr_m (iter_pos shr_1 p mrs)).
    { rewrite IH by assumption. apply Z.shiftr_nonneg. assumption. }
    rewrite IH by assumption. rewrite IH by assumption.
    rewrite !Z.shiftr_shiftr by lia. f_equal. lia.
  - rewrite shr_1_m by assumption. now rewrite Z.div2_spec.
Qed.

(** Shifting a positive mantissa by less than its width keeps it positive
    and keeps digits + exponent. *)
Lemma shiftr_digits (m n : Z) :
  0 < m -> 0 <= n -> n <= Z.log2 m ->
  0 < Z.shiftr m n /\ Z.log2 (Z.shiftr m n) = Z.log2 m - n.
Proof.
  intros Hm Hn Hle.
  assert (Hl : Z.log2 (Z.shiftr m n) = Z.log2 m - n).
  { rewrite Z.log2_shiftr by assumption. lia. }
  split; [| assumption].
  rewrite Z.shiftr_div_pow2 by assumption.
  assert (H2 : 2 ^ n <= m).
  { transitivity (2 ^ Z.log2 m).
    - apply Z.pow_le_mono_r; lia.
    - apply Z.log2_spec. assumption. }
  assert (0 < 2 ^ n) by (apply Z.pow_pos_nonneg; lia).
  apply Z.div_str_pos. lia.
Qed.

Lemma fexp64_eq (x : Z) : fexp64 x = Z.max (x - 53) (-1074).
Proof. reflexivity. Qed.

(** The mantissa and exponent after [shr_fexp], when the value is above the
    smallest subnormal. *)
Lemma shr_fexp_pos (m e : Z) (l : location) :
  0 < m -> -1074 < Z.log2 m + 1 + e ->
  let '(mrs, e') := shr_fexp prec emax m e l in
  0 < shr_m mrs
  /\ Z.log2 (shr_m mrs) + e' = Z.log2 m + e
  /\ (e' = e \/ e' = fexp64 (Z.log2 m + 1 + e))
  /\ fexp64 (Z.log2 m + 1 + e) <= e'.
Proof.
  intros Hm Hmag. unfold shr_fexp. rewrite (Zdigits2_log2 m Hm).
  change (fexp prec emax) with fexp64.
  set (n := fexp64 (Z.log2 m + 1 + e) - e).
  assert (Hn : n <= Z.log2 m).
  { unfold n. rewrite fexp64_eq. lia. }
  assert (Hrec : shr_m (shr_record_of_loc m l) = m).
  { destruct l as [| c]; [reflexivity | destruct c; reflexivity]. }
  unfold shr. destruct n as [| p | p] eqn:En.
  - rewrite Hrec. repeat split; try lia.
  - rewrite iter_shr_1_m by (rewrite Hrec; lia). rewrite Hrec.
    destruct (shiftr_digits m (Z.pos p) Hm ltac:(lia) Hn) as [H1 H2].
    repeat split; try lia.
  - rewrite Hrec. repeat split; try lia.
Qed.

Lemma big_weaken (k k' : Z) (x : spec_float) : k' <= k -> big k x -> big k' x.
Proof. destruct x; unfold big; auto. lia. Qed.

Lemma round_nearest_even_bounds (m : Z) (l : location) :
  m <= round_nearest_even m l <= m + 1.
Proof.
  destruct l as [| c]; simpl; [lia |].
  destruct c; simpl; try lia. destruct (Z.even m); lia.
Qed.

Lemma binary_round_aux_big (s : bool) (m e : Z) (l : location) :
  0 < m -> -1074 < Z.log2 m + 1 + e ->
  big (Z.log2 m + 1 + e) (binary_round_aux prec emax s m e l).
Proof.
  intros Hm Hmag. unfold binary_round_aux.
  pose proof (shr_fexp_pos m e l Hm Hmag) as H1.
  destruct (shr_fexp prec emax m e l) as [mrs1 e1].
  destruct H1 as (Hp1 & Hl1 & _ & _).
  pose proof (round_nearest_even_bounds (shr_m mrs1) (loc_of_shr_record mrs1)) as Hr.
  set (m2 := round_nearest_even (shr_m mrs1) (loc_of_shr_record mrs1)) in *.
  assert (Hlog : Z.log2 (shr_m mrs1) <= Z.log2 m2) by (apply Z.log2_le_mono; lia).
  assert (Hm2 : 0 < m2) by lia.
  assert (Hmag2 : -1074 < Z.log2 m2 + 1 + e1) by lia.
  pose proof (shr_fexp_pos m2 e1 loc_Exact Hm2 Hmag2) as H2.
  destruct (shr_fexp prec emax m2 e1 loc_Exact) as [mrs2 e2].
  destruct H2 as (Hp2 & Hl2 & _ & _).
  destruct (shr_m mrs2) as [| m3 | m3]; try lia.
  destruct (e2 <=? emax - prec); unfold big; [lia | exact I].
Qed.

Lemma binary_round_aux_sign (s : bool) (m e : Z) (l : location) :
  match binary_round_aux prec emax s m e l with
  | S754_zero s' | S754_infinity s' | S754_finite s' _ _ => s' = s
  | S754_nan => True
  end.
Proof.
  unfold binary_round_aux.
  destruct (shr_fexp prec emax m e l) as [mrs1 e1].
  destruct (shr_fexp prec emax _ e1 loc_Exact) as [mrs2 e2].
  destruct (shr_m mrs2); auto. destruct (e2 <=? emax - prec); auto.
Qed.

(** *** Multiplication *)

Lemma SFmul_comm (x y : spec_float) : SF64mul x y = SF64mul y x.
Proof.
  destruct x as [sx | sx | | sx mx ex], y as [sy | sy | | sy my ey]; simpl;
    try reflexivity; try (now rewrite xorb_comm).
  now rewrite xorb_comm, Pos.mul_comm, Z.add_comm.
Qed.

Lemma mul_comm (x y : float) : (x * y)%float = (y * x)%float.
Proof. apply Prim2SF_inj. rewrite !mul_spec. apply SFmul_comm. Qed.

Lemma SFmul_big (x y : spec_float) :
  big (-536) x -> big (-536) y -> big (-1073) (SF64mul x y).
Proof.
  destruct x as [sx | sx | | sx mx ex], y as [sy | sy | | sy my ey];
    unfold big at 1 2; try tauto; try (intros; exact I).
  intros Hx Hy.
  assert (Hlog : Z.log2 (Z.pos mx) + Z.log2 (Z.pos my) <= Z.log2 (Z.pos mx * Z.pos my))
    by (apply Z.log2_mul_below; lia).
  unfold SF64mul, SFmul.
  change (Z.pos (mx * my)) with (Z.pos mx * Z.pos my).
  eapply big_weaken; [| apply binary_round_aux_big]; lia.
Qed.

(** *** Square root *)

Lemma log2_sqrt_half (m : Z) : 0 < m -> Z.log2 m / 2 <= Z.log2 (Z.sqrt m).
Proof.
  intros Hm. set (k := Z.log2 m / 2).
  assert (Hk : 0 <= k) by (apply Z.div_pos; [apply Z.log2_nonneg | lia]).
  assert (Hsq : 2 ^ k * 2 ^ k <= m).
  { rewrite <- Z.pow_add_r by lia. transitivity (2 ^ Z.log2 m).
    - apply Z.pow_le_mono_r; [lia |]. unfold k.
      pose proof (Z.mul_div_le (Z.log2 m) 2 ltac:(lia)). lia.
    - apply Z.log2_spec. assumption. }
  assert (H2k : 2 ^ k <= Z.sqrt m).
  { rewrite <- (Z.sqrt_square (2 ^ k)) by (apply Z.pow_nonneg; lia).
    apply Z.sqrt_le_mono. assumption. }
  rewrite <- (Z.log2_pow2 k) by assumption. apply Z.log2_le_mono. assumption.
Qed.

Lemma SFsqrt_big (m : positive) (e : Z) :
  -1074 <= e -> big (-536) (SF64sqrt (S754_finite false m e)).
Proof.
  intros He. unfold SF64sqrt, SFsqrt, SFsqrt_core_binary.
  rewrite (Zdigits2_log2 (Z.pos m)) by lia.
  set (d := Z.log2 (Z.pos m) + 1).
  assert (Hd : 1 <= d) by (pose proof (Z.log2_nonneg (Z.pos m)); lia).
  set (e' := Z.min (fexp prec emax (Z.div2 (d + e + 1))) (Z.div2 e)).
  assert (He' : 2 * e' <= e).
  { unfold e'. rewrite (Z.div2_div e). pose proof (Z.mul_div_le e 2 ltac:(lia)). lia. }
  remember (e - 2 * e') as s eqn:Es.
  assert (Hs : 0 <= s) by lia.
  set (m' := match s with Z.pos _ => Z.shiftl (Z.pos m) s | 0 => Z.pos m | Z.neg _ => 0 end).
  assert (Hm' : m' = Z.pos m * 2 ^ s).
  { unfold m'. destruct s as [| p | p]; try lia.
    rewrite Z.shiftl_mul_pow2 by lia. reflexivity. }
  assert (Hpow : 0 < 2 ^ s) by (apply Z.pow_pos_nonneg; lia).
  assert (Hpos : 0 < m') by (rewrite Hm'; lia).
  assert (Hlm : Z.log2 m' = Z.log2 (Z.pos m) + s).
  { rewrite Hm'. rewrite Z.log2_mul_pow2 by lia. lia. }
  pose proof (Z.sqrtrem_spec m' ltac:(lia)) as Hsr.
  pose proof (Z.sqrtrem_sqrt m') as Hq.
  destruct (Z.sqrtrem m') as [q r]. simpl in Hq. subst q.
  pose proof (log2_sqrt_half m' Hpos) as Hhalf.
  assert (Hqpos : 0 < Z.sqrt m') by (apply Z.sqrt_pos; assumption).
  assert (Hmag : -536 <= Z.log2 (Z.sqrt m') + 1 + e').
  { rewrite Hlm in Hhalf. rewrite Es in Hhalf.
    replace (Z.log2 (Z.pos m) + (e - 2 * e')) with ((d - 1 + e) + (- e') * 2) in Hhalf by lia.
    rewrite Z.div_add in Hhalf by lia.
    assert (-537 <= (d - 1 + e) / 2) by (apply Z.div_le_lower_bound; lia).
    lia. }
  eapply big_weaken; [| apply binary_round_aux_big]; lia.
Qed.

(** *** Signs: a sum of squares is never below zero *)

Lemma binary_round_aux_plus (m e : Z) (l : location) :
  plus_signed (binary_round_aux prec emax false m e l).
Proof.
  pose proof (binary_round_aux_sign false m e l) as H.
  destruct (binary_round_aux prec emax false m e l); exact H.
Qed.

Lemma plus_signed_not_negative (x : spec_float) : plus_signed x -> not_negative x.
Proof. destruct x as [s | s | | s m e]; simpl; intros H; subst; auto. Qed.

Lemma SFmul_self_plus (x : spec_float) : plus_signed (SF64mul x x).
Proof.
  destruct x as [s | s | | s m e]; simpl; try apply xorb_nilpotent; auto.
  rewrite xorb_nilpotent. apply binary_round_aux_plus.
Qed.

Lemma SFadd_not_negative (a t : spec_float) :
  not_negative a -> plus_signed t -> not_negative (SF64add a t).
Proof.
  destruct a as [sa | sa | | sa ma ea], t as [st | st | | st mt et]; simpl;
    intros Ha Ht; subst; auto;
    try (destruct sa; simpl; auto; fail).
  destruct sa; [contradiction |].
  apply plus_signed_not_negative.
  unfold SF64add, SFadd, cond_Zopp.
  destruct (shl_align ma ea (Z.min ea et)) as [a ea'].
  destruct (shl_align mt et (Z.min ea et)) as [b eb']. simpl fst.
  change (Z.pos a + Z.pos b) with (Z.pos (a + b)).
  unfold binary_normalize, binary_round.
  destruct (shl_align (a + b) (Z.min ea et) _) as [mz ez].
  apply binary_round_aux_plus.
Qed.

Lemma fold_squares_not_negative (v : list float) (acc : float) :
  not_negative (Prim2SF acc) ->
  not_negative (Prim2SF (fold_left PrimFloat.add (squares v) acc)).
Proof.
  revert acc. induction v as [| x v IH]; intros acc Hacc; simpl; [assumption |].
  apply IH. rewrite add_spec, mul_spec.
  apply SFadd_not_negative; [assumption | apply SFmul_self_plus].
Qed.

Lemma sum_squares_not_negative (v : list float) :
  not_negative (Prim2SF (sum (squares v))).
Proof. apply fold_squares_not_negative. rewrite Prim2SF_zero. exact I. Qed.

Lemma ltb_zero_not_negative (x : float) :
  not_negative (Prim2SF x) -> PrimFloat.ltb x 0 = false.
Proof.
  rewrite ltb_spec, Prim2SF_zero. unfold SFltb.
  destruct (Prim2SF x) as [s | s | | s m e]; simpl; auto;
    destruct s; simpl; auto; contradiction.
Qed.

Lemma math_sqrt_squares (v : list float) :
  math_sqrt (sum (squares v)) = Ok (PrimFloat.sqrt (sum (squares v))).
Proof.
  unfold math_sqrt. now rewrite (ltb_zero_not_negative _ (sum_squares_not_negative v)).
Qed.

(** *** The norm is never zero, and neither is a product of two norms *)

Lemma big_eqb_zero (k : Z) (x : float) : big k (Prim2SF x) -> PrimFloat.eqb x 0 = false.
Proof.
  rewrite FloatAxioms.eqb_spec, Prim2SF_zero. unfold SFeqb.
  destruct (Prim2SF x) as [s | s | | s m e]; simpl; auto; try contradiction;
    destruct s; auto.
Qed.

Lemma valid_exponent (x : float) (s : bool) (m : positive) (e : Z) :
  Prim2SF x = S754_finite s m e -> -1074 <= e.
Proof.
  intros Hx. pose proof (Prim2SF_valid x) as Hv. rewrite Hx in Hv.
  unfold SpecFloat.valid_binary, bounded, canonical_mantissa in Hv.
  apply andb_prop in Hv. destruct Hv as [Hc _]. apply Z.eqb_eq in Hc.
  change (fexp prec emax) with fexp64 in Hc. rewrite fexp64_eq in Hc. lia.
Qed.

Lemma Prim2SF_one : Prim2SF 1%float = S754_finite false 4503599627370496 (-52).
Proof. reflexivity. Qed.

Lemma or_one_sqrt_big (x : float) :
  not_negative (Prim2SF x) -> big (-536) (Prim2SF (or_one (PrimFloat.sqrt x))).
Proof.
  intros Hx. unfold or_one, F64.truthy.
  assert (Hone : big (-536) (Prim2SF 1%float)).
  { rewrite Prim2SF_one. unfold big. change (Z.log2 4503599627370496) with 52. lia. }
  destruct (PrimFloat.eqb (PrimFloat.sqrt x) 0) eqn:Hz; simpl; [exact Hone |].
  rewrite sqrt_spec. pose proof (eqb_zero_inv (PrimFloat.sqrt x)) as Hinv.
  rewrite FloatAxioms.eqb_spec, Prim2SF_zero, sqrt_spec in Hz.
  destruct (Prim2SF x) as [s | s | | s m e] eqn:Ex.
  - simpl in Hz. discriminate.
  - destruct s; [contradiction | exact I].
  - exact I.
  - destruct s; [contradiction |].
    apply SFsqrt_big. eapply valid_exponent. eassumption.
Qed.

Lemma norm_big (v : list float) :
  exists n, norm v = Ok n /\ big (-536) (Prim2SF n).
Proof.
  unfold norm. fold (squares v). rewrite math_sqrt_squares. simpl.
  eexists. split; [reflexivity |].
  apply or_one_sqrt_big. apply sum_squares_not_negative.
Qed.

Lemma cos_value (a b : list float) :
  exists na nb,
    norm a = Ok na /\ norm b = Ok nb
    /\ PrimFloat.eqb (na * nb) 0 = false
    /\ cos a b = Ok (dot a b / (na * nb))%float.
Proof.
  destruct (norm_big a) as (na & Ha & Hba), (norm_big b) as (nb & Hb & Hbb).
  exists na, nb.
  assert (Hz : PrimFloat.eqb (na * nb) 0 = false).
  { apply (big_eqb_zero (-1073)). rewrite mul_spec. now apply SFmul_big. }
  repeat split; try assumption.
  unfold cos. rewrite Ha, Hb. simpl. unfold truediv. now rewrite Hz.
Qed.

(** *** Zero vectors *)

Lemma fold_squares_zero (v : list float) (acc : float) :
  Prim2SF acc = S754_zero false ->
  Forall (fun x => PrimFloat.eqb x 0 = true) v ->
  Prim2SF (fold_left PrimFloat.add (squares v) acc) = S754_zero false.
Proof.
  revert acc. induction v as [| x v IH]; intros acc Hacc Hv; simpl; [assumption |].
  inversion Hv as [| ? ? Hx Hv']; subst.
  apply IH; [| assumption].
  destruct (eqb_zero_inv x Hx) as [s Hs].
  rewrite add_spec, mul_spec, Hacc, Hs. simpl. now rewrite xorb_nilpotent.
Qed.

Lemma norm_zero_sum (v : list float) :
  PrimFloat.eqb (PrimFloat.sqrt (sum (squares v))) 0 = true -> norm v = Ok 1%float.
Proof.
  intros Hz. unfold norm. fold (squares v). rewrite math_sqrt_squares. simpl.
  unfold or_one, F64.truthy. now rewrite Hz.
Qed.

Lemma norm_zero_vector (v : list float) :
  Forall (fun x => PrimFloat.eqb x 0 = true) v -> norm v = Ok 1%float.
Proof.
  intros Hv. apply norm_zero_sum.
  rewrite FloatAxioms.eqb_spec, sqrt_spec.
  unfold sum. now rewrite (fold_squares_zero v 0%float Prim2SF_zero Hv).
Qed.

(** ** Text: the formatted number is read back *)


Lemma ord_chr (z : Z) : 0 <= z < 256 -> ord (chr z) = z.
Proof.
  intros Hz. unfold ord, chr. rewrite N_ascii_embedding by lia. lia.
Qed.

Lemma is_digit_ord (c : ascii) : is_digit c = true <-> 48 <= ord c <= 57.
Proof. unfold is_digit. rewrite andb_true_iff, !Z.leb_le. tauto. Qed.

Lemma is_digit_chr (d : Z) : 0 <= d < 10 -> is_digit (digit_chr d) = true.
Proof.
  intros Hd. apply is_digit_ord. unfold digit_chr. rewrite ord_chr; lia.
Qed.

Lemma dec_digits_digits (p : nat) (n : Z) : Forall (fun c => is_digit c = true) (dec_digits p n).
Proof.
  revert n. induction p as [| p IH]; intros n; simpl; [constructor |].
  apply Forall_app. split; [apply IH |].
  constructor; [| constructor]. apply is_digit_chr. apply Z.mod_pos_bound. lia.
Qed.

Lemma dec_digits_length (p : nat) (n : Z) : List.length (dec_digits p n) = p.
Proof.
  revert n. induction p as [| p IH]; intros n; simpl; [reflexivity |].
  rewrite length_app, IH. simpl. lia.
Qed.

Lemma ord_neq_eqb (c d : ascii) : ord c <> ord d -> Ascii.eqb c d = false.
Proof.
  intros H. apply Ascii.eqb_neq. intros ->. now apply H.
Qed.

Lemma digit_plain (c : ascii) : is_digit c = true -> plain c = true.
Proof.
  intros H. apply is_digit_ord in H. unfold plain, is_space.
  rewrite (ord_neq_eqb c "_") by (change (ord "_") with 95; lia).
  destruct (Z.leb_spec 9 (ord c)), (Z.leb_spec (ord c) 13), (Z.eqb_spec (ord c) 32);
    simpl; auto; lia.
Qed.

Lemma digit_lower (c : ascii) : is_digit c = true -> lower c = c.
Proof.
  intros H. apply is_digit_ord in H. unfold lower.
  destruct (Z.leb_spec 65 (ord c)); simpl; [lia | reflexivity].
Qed.

Lemma drop_while_head (f : ascii -> bool) (c : ascii) (l : list ascii) :
  f c = false -> drop_while f (c :: l) = c :: l.
Proof. intros H. simpl. now rewrite H. Qed.

Lemma drop_while_suffix (f : ascii -> bool) (P : ascii -> Prop) (l : list ascii) :
  Forall P l -> Forall P (drop_while f l).
Proof.
  induction 1 as [| c l Hc Hl IH]; simpl; [constructor |].
  destruct (f c); [assumption | now constructor].
Qed.

Lemma strip_right_forall (f : ascii -> bool) (P : ascii -> Prop) (l : list ascii) :
  Forall P l -> Forall P (strip_right f l).
Proof.
  intros H. unfold strip_right. apply Forall_rev. apply drop_while_suffix.
  now apply Forall_rev.
Qed.

Lemma strip_plain (l : list ascii) :
  Forall (fun c => plain c = true) l ->
  strip_right is_space (drop_while is_space l) = l.
Proof.
  intros H.
  assert (Hs : forall l', Forall (fun c => plain c = true) l' -> drop_while is_space l' = l').
  { intros l' H'. destruct H' as [| c l' Hc _]; [reflexivity |].
    apply drop_while_head. unfold plain in Hc. apply andb_prop in Hc.
    destruct Hc as [Hc _]. now destruct (is_space c). }
  rewrite (Hs l H). unfold strip_right. rewrite Hs by now apply Forall_rev.
  apply rev_involutive.
Qed.

Lemma drop_underscores_plain (l : list ascii) (prev : option ascii) :
  Forall (fun c => plain c = true) l ->
  match prev with Some p => plain p = true | None => True end ->
  drop_underscores prev l = Some l.
Proof.
  intros H. revert prev. induction H as [| c l Hc Hl IH]; intros prev Hp; simpl.
  - destruct prev as [p |]; [| reflexivity].
    destruct (Ascii.eqb_spec p "_") as [-> | Hne]; [discriminate |].
    destruct p as [[] [] [] [] [] [] [] []]; try reflexivity. now elim Hne.
  - assert (Hcu : Ascii.eqb c "_" = false).
    { unfold plain in Hc. apply andb_prop in Hc. destruct Hc as [_ Hc].
      now destruct (Ascii.eqb c "_"). }
    rewrite Hcu. rewrite (IH (Some c) Hc).
    destruct prev as [p |]; [| reflexivity].
    destruct (Ascii.eqb_spec p "_") as [-> | Hne]; [discriminate |].
    destruct p as [[] [] [] [] [] [] [] []]; try reflexivity. now elim Hne.
Qed.

Lemma span_digits (ds rest : list ascii) :
  Forall (fun c => is_digit c = true) ds ->
  match rest with [] => True | c :: _ => is_digit c = false end ->
  span is_digit (ds ++ rest) = (ds, rest).
Proof.
  intros H Hr. induction H as [| c ds Hc Hds IH]; simpl.
  - destruct rest as [| c rest]; [reflexivity |]. simpl. now rewrite Hr.
  - now rewrite Hc, IH.
Qed.

Lemma exponent_text_parse (x : Z) : exists e, parse_exponent (exponent_text x) = Some e.
Proof.
  unfold exponent_text, parse_exponent.
  change (Ascii.eqb (lower "e") "e") with true. cbv iota.
  set (ds := dec_digits (if Z.abs x <? 100 then 2 else 3) (Z.abs x)).
  assert (Hds : Forall (fun c => is_digit c = true) ds) by apply dec_digits_digits.
  assert (Hlen : ds <> []).
  { intros E. apply (f_equal (@List.length ascii)) in E. unfold ds in E.
    rewrite dec_digits_length in E. destruct (Z.abs x <? 100); discriminate. }
  assert (Hspan : span is_digit ds = (ds, [])).
  { rewrite <- (app_nil_r ds) at 1. now apply span_digits. }
  destruct (x <? 0); simpl split_sign; cbv iota; rewrite Hspan;
    (destruct ds as [| d ds']; [now elim Hlen |]); eexists; reflexivity.
Qed.

Lemma with_point_shape (ip fp : list ascii) :
  Forall (fun c => is_digit c = true) fp ->
  with_point ip fp = ip
  \/ exists c fp', with_point ip fp = ip ++ "."%char :: c :: fp'
                   /\ Forall (fun c => is_digit c = true) (c :: fp').
Proof.
  intros H. unfold with_point.
  pose proof (strip_right_forall (fun c => Ascii.eqb c "0") _ fp H) as Hs.
  fold (strip_zeros fp) in Hs.
  destruct (strip_zeros fp) as [| c fp']; [now left | right].
  now exists c, fp'.
Qed.

(** A numeral as [format_g] lays it out: digits, an optional point and
    digits, and either nothing or an exponent text. *)
Lemma parse_decimal_layout (neg : bool) (ip fp ex : list ascii) :
  ip <> [] ->
  Forall (fun c => is_digit c = true) ip ->
  Forall (fun c => is_digit c = true) fp ->
  (ex = [] \/ exists x, ex = exponent_text x) ->
  exists y, parse_decimal neg (with_point ip fp ++ ex) = Some y.
Proof.
  intros Hne Hip Hfp Hex.
  assert (Hexd : match ex with [] => True | c :: _ => is_digit c = false end).
  { destruct Hex as [-> | [x ->]]; [exact I | reflexivity]. }
  assert (Hexp : exists e, parse_exponent ex = Some e).
  { destruct Hex as [-> | [x ->]]; [now exists 0 | apply exponent_text_parse]. }
  destruct Hexp as [e He].
  unfold parse_decimal.
  destruct (with_point_shape ip fp Hfp) as [-> | (c & fp' & -> & Hfp')].
  - rewrite (span_digits ip ex Hip Hexd).
    assert (Hfrac : match ex with "."%char :: r => span is_digit r | _ => ([], ex) end = ([], ex)).
    { destruct Hex as [-> | [x ->]]; reflexivity. }
    rewrite Hfrac, app_nil_r, He.
    destruct ip as [| d ip']; [now elim Hne |]. eexists; reflexivity.
  - rewrite <- app_assoc. simpl app.
    rewrite (span_digits ip ("."%char :: c :: fp' ++ ex) Hip) by reflexivity.
    change (c :: fp' ++ ex) with ((c :: fp') ++ ex).
    rewrite (span_digits (c :: fp') ex Hfp' Hexd), He.
    destruct ip as [| d ip']; [now elim Hne |]. eexists; reflexivity.
Qed.

Lemma layout_plain (ip fp ex : list ascii) :
  Forall (fun c => is_digit c = true) ip ->
  Forall (fun c => is_digit c = true) fp ->
  (ex = [] \/ exists x, ex = exponent_text x) ->
  Forall (fun c => plain c = true) (with_point ip fp ++ ex).
Proof.
  intros Hip Hfp Hex.
  assert (Hd : forall l, Forall (fun c => is_digit c = true) l -> Forall (fun c => plain c = true) l).
  { intros l H. eapply Forall_impl; [| exact H]. apply digit_plain. }
  apply Forall_app. split.
  - destruct (with_point_shape ip fp Hfp) as [-> | (c & fp' & -> & Hfp')]; [now apply Hd |].
    apply Forall_app. split; [now apply Hd |]. constructor; [reflexivity | now apply Hd].
  - destruct Hex as [-> | [x ->]]; [constructor |]. unfold exponent_text.
    constructor; [reflexivity |]. constructor; [now destruct (x <? 0) |].
    apply Hd, dec_digits_digits.
Qed.

Lemma digit_numeric (c : ascii) : is_digit c = true -> numeric_char c = true.
Proof. intros H. unfold numeric_char. now rewrite H. Qed.

Lemma layout_numeric (ip fp ex : list ascii) :
  Forall (fun c => is_digit c = true) ip ->
  Forall (fun c => is_digit c = true) fp ->
  (ex = [] \/ exists x, ex = exponent_text x) ->
  Forall (fun c => numeric_char c = true) (with_point ip fp ++ ex).
Proof.
  intros Hip Hfp Hex.
  assert (Hd : forall l, Forall (fun c => is_digit c = true) l ->
                         Forall (fun c => numeric_char c = true) l).
  { intros l H. eapply Forall_impl; [| exact H]. apply digit_numeric. }
  apply Forall_app. split.
  - destruct (with_point_shape ip fp Hfp) as [-> | (c & fp' & -> & Hfp')]; [now apply Hd |].
    apply Forall_app. split; [now apply Hd |]. constructor; [reflexivity | now apply Hd].
  - destruct Hex as [-> | [x ->]]; [constructor |]. unfold exponent_text.
    constructor; [reflexivity |]. constructor; [now destruct (x <? 0) |].
    apply Hd, dec_digits_digits.
Qed.

Lemma format_g_numeric (p : nat) (x : float) :
  Forall (fun c => numeric_char c = true) (list_ascii_of_string (format_g p x)).
Proof.
  unfold format_g. rewrite list_ascii_of_string_of_list_ascii.
  destruct (Prim2SF x) as [s | s | | s m e].
  - destruct s; repeat constructor.
  - destruct s; repeat constructor.
  - repeat constructor.
  - unfold format_finite. destruct (significand (Nat.max p 1) _ _) as [n x'].
    apply Forall_app. split; [destruct s; repeat constructor |].
    unfold layout.
    pose proof (dec_digits_digits (Nat.max p 1) n) as Hds.
    set (ds := dec_digits (Nat.max p 1) n) in *.
    assert (Hcut : forall k, Forall (fun c => is_digit c = true) (firstn k ds)
                            /\ Forall (fun c => is_digit c = true) (skipn k ds)).
    { intros k. apply Forall_app. now rewrite firstn_skipn. }
    destruct ((x' <? -4) || (Z.of_nat (Nat.max p 1) <=? x')).
    + apply layout_numeric; [apply Hcut | apply Hcut | right; now exists x'].
    + destruct (0 <=? x').
      * rewrite <- (app_nil_r (with_point _ _)).
        apply layout_numeric; [apply Hcut | apply Hcut | now left].
      * rewrite <- (app_nil_r (with_point _ _)).
        apply layout_numeric; [repeat constructor | | now left].
        apply Forall_app. split; [| assumption].
        apply Forall_forall. intros c Hc. apply repeat_spec in Hc. now rewrite Hc.
Qed.

Lemma numeric_ascii (c : ascii) : numeric_char c = true -> ord c < 128.
Proof.
  destruct c as [[] [] [] [] [] [] [] []]; try discriminate; intros _; reflexivity.
Qed.

Lemma code_points_ascii (bs : list Z) :
  Forall (fun b => b < 128) bs -> code_points bs = Some bs.
Proof.
  induction 1 as [| b bs Hb _ IH]; [reflexivity |].
  cbn [code_points]. rewrite (proj2 (Z.ltb_lt _ _) Hb), IH. reflexivity.
Qed.

(** [float()] reads an ASCII text as it is. *)
Lemma to_ascii_ascii (l : list ascii) :
  Forall (fun c => ord c < 128) l -> to_ascii l = Some l.
Proof.
  intros H. unfold to_ascii.
  assert (Hb : Forall (fun b => b < 128) (map ord l)) by now apply Forall_map.
  rewrite (code_points_ascii _ Hb).
  replace (forallb (fun c => c <? 128) (map ord l)) with true; [reflexivity |].
  symmetry. apply forallb_forall. intros b Hin. rewrite Forall_forall in Hb.
  apply Z.ltb_lt. now apply Hb.
Qed.

Lemma format_g_ascii (p : nat) (x : float) :
  to_ascii (list_ascii_of_string (format_g p x)) = Some (list_ascii_of_string (format_g p x)).
Proof.
  apply to_ascii_ascii. eapply Forall_impl; [| apply format_g_numeric].
  intros c. apply numeric_ascii.
Qed.

Lemma eqb_chars_head (c d : ascii) (l l' : list ascii) :
  Ascii.eqb c d = false -> eqb_chars (c :: l) (d :: l') = false.
Proof. intros H. unfold eqb_chars. simpl. now rewrite H. Qed.

Lemma parse_float_layout (neg : bool) (ip fp ex : list ascii) :
  ip <> [] ->
  Forall (fun c => is_digit c = true) ip ->
  Forall (fun c => is_digit c = true) fp ->
  (ex = [] \/ exists x, ex = exponent_text x) ->
  exists y, parse_float ((if neg then ["-"%char] else []) ++ with_point ip fp ++ ex) = Some y.
Proof.
  intros Hne Hip Hfp Hex.
  pose proof (layout_plain ip fp ex Hip Hfp Hex) as Hplain.
  destruct (parse_decimal_layout neg ip fp ex Hne Hip Hfp Hex) as [y Hy].
  set (body := with_point ip fp ++ ex) in *.
  assert (Hhead : exists d rest, body = d :: rest /\ is_digit d = true).
  { destruct ip as [| d ip']; [now elim Hne |].
    inversion Hip as [| ? ? Hd _]; subst.
    unfold body. destruct (with_point_shape (d :: ip') fp Hfp) as [-> | (c & fp' & -> & _)];
      simpl; eauto. }
  destruct Hhead as (d & rest & Hbody & Hd).
  assert (Hall : Forall (fun c => plain c = true) ((if neg then ["-"%char] else []) ++ body)).
  { apply Forall_app. split; [| assumption]. destruct neg; repeat constructor. }
  unfold parse_float. rewrite (strip_plain _ Hall), (drop_underscores_plain _ None Hall I).
  assert (Hsplit : split_sign ((if neg then ["-"%char] else []) ++ body) = (neg, body)).
  { destruct neg; [reflexivity |]. simpl. rewrite Hbody.
    apply is_digit_ord in Hd.
    destruct (Ascii.eqb_spec d "-") as [-> | Hm]; [simpl in Hd; unfold ord in Hd; simpl in Hd; lia |].
    destruct (Ascii.eqb_spec d "+") as [-> | Hp]; [simpl in Hd; unfold ord in Hd; simpl in Hd; lia |].
    destruct d as [[] [] [] [] [] [] [] []]; try reflexivity; congruence. }
  rewrite Hsplit. exists y.
  assert (Hlow : forall w, Ascii.eqb d w = false ->
                           forall l', eqb_chars (map lower body) (w :: l') = false).
  { intros w Hw l'. rewrite Hbody. simpl map. rewrite (digit_lower d Hd).
    now apply eqb_chars_head. }
  apply is_digit_ord in Hd. cbn [list_ascii_of_string].
  rewrite (Hlow "i"%char) by (apply ord_neq_eqb; change (ord "i") with 105; lia).
  rewrite (Hlow "i"%char) by (apply ord_neq_eqb; change (ord "i") with 105; lia).
  rewrite (Hlow "n"%char) by (apply ord_neq_eqb; change (ord "n") with 110; lia).
  exact Hy.
Qed.

Lemma layout_parse (neg : bool) (p : nat) (n x : Z) :
  (1 <= p)%nat ->
  exists y, parse_float ((if neg then ["-"%char] else []) ++ layout p (dec_digits p n) x) = Some y.
Proof.
  intros Hp. unfold layout.
  pose proof (dec_digits_digits p n) as Hds.
  pose proof (dec_digits_length p n) as Hlen.
  set (ds := dec_digits p n) in *.
  assert (Hfirst : forall k, (1 <= k)%nat -> firstn k ds <> []).
  { intros k Hk E. apply (f_equal (@List.length ascii)) in E.
    rewrite length_firstn in E. simpl in E. lia. }
  assert (Hcut : forall k, Forall (fun c => is_digit c = true) (firstn k ds)
                          /\ Forall (fun c => is_digit c = true) (skipn k ds)).
  { intros k. apply Forall_app. now rewrite firstn_skipn. }
  assert (Hfn : forall k, Forall (fun c => is_digit c = true) (firstn k ds))
    by (intros k; apply Hcut).
  assert (Hsn : forall k, Forall (fun c => is_digit c = true) (skipn k ds))
    by (intros k; apply Hcut).
  destruct ((x <? -4) || (Z.of_nat p <=? x)).
  - apply parse_float_layout; [apply Hfirst; lia | apply Hfn | apply Hsn |].
    right. now exists x.
  - destruct (Z.leb_spec 0 x).
    + rewrite <- (app_nil_r (with_point _ _)).
      apply parse_float_layout; [apply Hfirst; lia | apply Hfn | apply Hsn | now left].
    + rewrite <- (app_nil_r (with_point _ _)).
      apply parse_float_layout; [discriminate | repeat constructor | | now left].
      apply Forall_app. split; [| assumption].
      apply Forall_forall. intros c Hc. apply repeat_spec in Hc. now rewrite Hc.
Qed.

Lemma float_of_string_format (p : nat) (x : float) :
  exists y, float_of_string (format_g p x) = Some y.
Proof.
  unfold float_of_string. rewrite format_g_ascii.
  unfold format_g. rewrite list_ascii_of_string_of_list_ascii.
  destruct (Prim2SF x) as [s | s | | s m e].
  - destruct s; eexists; reflexivity.
  - destruct s; eexists; reflexivity.
  - eexists; reflexivity.
  - unfold format_finite.
    destruct (significand (Nat.max p 1) _ _) as [n x'].
    destruct (layout_parse s (Nat.max p 1) n x' ltac:(lia)) as [y Hy].
    rewrite Hy. eexists; reflexivity.
Qed.

Lemma PREC_fits : Z.of_nat PREC <= INT_MAX.
Proof. now vm_compute. Qed.

Lemma round_elt_total (p : nat) (x : float) :
  Z.of_nat p <= INT_MAX -> exists y, round_elt p x = Ok y.
Proof.
  intros Hp. unfold round_elt, format_spec. rewrite (proj2 (Z.leb_le _ _) Hp).
  destruct (float_of_string_format p x) as [y Hy]. cbn [bind]. rewrite Hy. now exists y.
Qed.

Lemma round_vec_total (v : list float) (p : nat) :
  Z.of_nat p <= INT_MAX -> exists v_r, round_vec v p = Ok v_r.
Proof.
  intros Hp. unfold round_vec. induction v as [| x v [v_r IH]]; simpl; [now eexists |].
  destruct (round_elt_total p x Hp) as [y Hy].
  rewrite Hy. simpl. rewrite IH. simpl. now eexists.
Qed.

(** ** Ingestion: the state is the one built from the accepted entries *)

Lemma group_snoc {K V : Type} (eqb : K -> K -> bool) (kvs : list (K * V)) (k : K) (x : V) :
  group eqb (kvs ++ [(k, x)]) = setdefault_append eqb (group eqb kvs) k x.
Proof. unfold group. now rewrite fold_left_app. Qed.

Lemma exact_of_snoc (acc : list entry) (e : entry) :
  exact_of (acc ++ [e])
  = setdefault_append String.eqb (exact_of acc) (hash_vec (e_vr e)) (e_id e, e_src e).
Proof. unfold exact_of. rewrite map_app. simpl. apply group_snoc. Qed.

Lemma buckets_of_snoc (basis : list (list float)) (acc : list entry) (e : entry) :
  buckets_of basis (acc ++ [e])
  = setdefault_append sig_eqb (buckets_of basis acc) (sign_signature (e_raw e) basis) e.
Proof. unfold buckets_of. rewrite map_app. simpl. apply group_snoc. Qed.

Lemma init_state_of : init = state_of None [].
Proof. reflexivity. Qed.

Lemma establish_first (n : nat) :
  establish (state_of None []) n = Some (state_of (Some n) []).
Proof. reflexivity. Qed.

Lemma establish_known (d : nat) (acc : list entry) (n : nat) :
  establish (state_of (Some d) acc) n
  = if (n =? d)%nat then Some (state_of (Some d) acc) else None.
Proof. reflexivity. Qed.

Lemma not_eligible_test (g : glyph) :
  negb (truthy_id (g_id g)) || negb (isinstance_list (g_vec g)) = negb (eligible g).
Proof. unfold eligible. now rewrite negb_andb. Qed.

(** The insertion of an eligible record of the right length. *)
Lemma insert_state_of (d : nat) (acc : list entry) (g : glyph) (src : string) :
  eligible g = true ->
  List.length (items (g_vec g)) = d ->
  insert (state_of (Some d) acc) g src
  = Ok (state_of (Some d) (acc ++ opt_list (accept d (g, src)))).
Proof.
  intros El Hlen. unfold insert, accept. simpl fst. simpl snd.
  rewrite El, Hlen, Nat.eqb_refl. simpl andb. cbv iota.
  destruct (mapM float_of (items (g_vec g))) as [v_raw | err].
  - destruct (round_vec_total v_raw PREC PREC_fits) as [v_r Hr]. rewrite Hr.
    cbn [bind opt_list]. unfold state_of.
    cbn [R exact_index sig_buckets dims total option_map bind].
    rewrite exact_of_snoc, buckets_of_snoc, length_app.
    cbn [List.length e_vr e_raw e_id e_src]. now rewrite Nat.add_1_r.
  - simpl. now rewrite app_nil_r.
Qed.

Lemma accept_not_eligible (d : nat) (g : glyph) (src : string) :
  eligible g = false -> accept d (g, src) = None.
Proof. intros El. unfold accept. simpl. now rewrite El. Qed.

Lemma accept_other_length (d : nat) (g : glyph) (src : string) :
  (List.length (items (g_vec g)) =? d)%nat = false -> accept d (g, src) = None.
Proof. intros H. unfold accept. simpl. now rewrite H, andb_false_r. Qed.

Lemma ingest_step (d : option nat) (acc : list entry) (g : glyph) (src : string) :
  (d = None -> acc = []) ->
  ingest (state_of d acc) g src
  = Ok (state_of (fst (step (d, acc) (g, src))) (snd (step (d, acc) (g, src)))).
Proof.
  intros Hinv. unfold ingest. cbv zeta. rewrite not_eligible_test.
  unfold step. simpl fst. simpl snd.
  destruct (eligible g) eqn:El; simpl negb; cbv iota.
  - destruct d as [n |].
    + rewrite establish_known.
      destruct (List.length (items (g_vec g)) =? n)%nat eqn:Hn.
      * apply Nat.eqb_eq in Hn. now apply insert_state_of.
      * rewrite (accept_other_length n g src Hn). simpl. now rewrite app_nil_r.
    + rewrite (Hinv eq_refl), establish_first. now apply insert_state_of.
  - destruct d as [n |]; [| reflexivity].
    rewrite (accept_not_eligible n g src El). simpl. now rewrite app_nil_r.
Qed.

Lemma step_invariant (da : option nat * list entry) (gp : glyph * string) :
  (fst da = None -> snd da = []) ->
  fst (step da gp) = None -> snd (step da gp) = [].
Proof.
  destruct da as [[n |] acc]; unfold step; simpl; intros H; [discriminate |].
  destruct (eligible (fst gp)); [discriminate | auto].
Qed.

Lemma ingest_file_fold (src : string) (gs : list glyph) (da : option nat * list entry) :
  (fst da = None -> snd da = []) ->
  ingest_file (state_of (fst da) (snd da)) src gs
  = Ok (state_of (fst (fold_left step (map (fun g => (g, src)) gs) da))
                 (snd (fold_left step (map (fun g => (g, src)) gs) da))).
Proof.
  revert da. induction gs as [| g gs IH]; intros da Hinv;
    cbn [ingest_file map fold_left]; [reflexivity |].
  rewrite ingest_step by assumption. cbn [bind].
  replace (fst da, snd da) with da by now destruct da.
  apply IH. now apply step_invariant.
Qed.

Lemma fold_step_invariant (s : list (glyph * string)) (da : option nat * list entry) :
  (fst da = None -> snd da = []) ->
  fst (fold_left step s da) = None -> snd (fold_left step s da) = [].
Proof.
  revert da. induction s as [| gp s IH]; intros da Hinv; cbn [fold_left]; [assumption |].
  apply IH. now apply step_invariant.
Qed.

Lemma ingest_all_fold (files : list (string * list glyph)) (da : option nat * list entry) :
  (fst da = None -> snd da = []) ->
  ingest_all (state_of (fst da) (snd da)) files
  = Ok (state_of (fst (fold_left step (stream files) da))
                 (snd (fold_left step (stream files) da))).
Proof.
  revert da. induction files as [| [p gs] files IH]; intros da Hinv;
    cbn [ingest_all stream flat_map fst snd]; [reflexivity |].
  rewrite ingest_file_fold by assumption. cbn [bind].
  rewrite fold_left_app. apply IH. now apply fold_step_invariant.
Qed.

Lemma fold_step_known (s : list (glyph * string)) (n : nat) (acc : list entry) :
  fold_left step s (Some n, acc) = (Some n, acc ++ accepted_under n s).
Proof.
  revert acc. induction s as [| gp s IH]; intros acc; cbn [fold_left].
  - unfold accepted_under. simpl. now rewrite app_nil_r.
  - unfold step at 2. cbn [fst snd]. rewrite IH.
    unfold accepted_under. cbn [flat_map]. now rewrite <- app_assoc.
Qed.

Lemma accepted_under_not_eligible (n : nat) (gp : glyph * string) (s : list (glyph * string)) :
  eligible (fst gp) = false -> accepted_under n (gp :: s) = accepted_under n s.
Proof.
  intros El. unfold accepted_under. simpl. destruct gp as [g src].
  now rewrite (accept_not_eligible n g src El).
Qed.

Lemma fold_step_init (s : list (glyph * string)) :
  fold_left step s (None, []) = (first_dims s, accepted s).
Proof.
  induction s as [| gp s IH]; [reflexivity |].
  cbn [fold_left]. unfold step at 2. cbn [fst snd].
  unfold accepted, first_dims. cbn [find].
  destruct (eligible (fst gp)) eqn:El.
  - rewrite fold_step_known. reflexivity.
  - rewrite IH. unfold accepted, first_dims.
    destruct (find (fun gp0 => eligible (fst gp0)) s) as [gp' |]; [| reflexivity].
    now rewrite accepted_under_not_eligible.
Qed.

(** The state at the end of the ingestion. *)
Lemma ingest_all_init (files : list (string * list glyph)) :
  ingest_all init files
  = Ok (state_of (first_dims (stream files)) (accepted (stream files))).
Proof.
  rewrite init_state_of.
  pose proof (ingest_all_fold files (None, []) (fun _ => eq_refl)) as H.
  rewrite fold_step_init in H. exact H.
Qed.

(** ** Dicts of lists: what [setdefault(k, []).append(x)] builds *)

Section Group.

Context {K V : Type} (eqb : K -> K -> bool).
Hypothesis eqb_eq : forall a b, eqb a b = true <-> a = b.

Lemma eqb_refl' (a : K) : eqb a a = true.
Proof. now apply eqb_eq. Qed.

Lemma eqb_neq' (a b : K) : a <> b -> eqb a b = false.
Proof. intros H. destruct (eqb a b) eqn:E; [| reflexivity]. now apply eqb_eq in E. Qed.

Lemma select_In (k : K) (v : V) (kvs : list (K * V)) :
  In v (select eqb k kvs) <-> In (k, v) kvs.
Proof.
  unfold select. rewrite in_map_iff. split.
  - intros ([k' v'] & <- & H). apply filter_In in H. destruct H as [H E].
    simpl in E. apply eqb_eq in E. now subst.
  - intros H. exists (k, v). split; [reflexivity |].
    apply filter_In. split; [assumption | apply eqb_refl'].
Qed.

Lemma select_app (k : K) (l1 l2 : list (K * V)) :
  select eqb k (l1 ++ l2) = select eqb k l1 ++ select eqb k l2.
Proof. unfold select. now rewrite filter_app, map_app. Qed.

Lemma select_absent (k : K) (kvs : list (K * V)) :
  ~ In k (map fst kvs) -> select eqb k kvs = [].
Proof.
  intros H. destruct (select eqb k kvs) as [| v l] eqn:E; [reflexivity |].
  exfalso. apply H. apply in_map_iff. exists (k, v). split; [reflexivity |].
  apply select_In. rewrite E. now left.
Qed.

Lemma in_dec_keys (k : K) (kvs : list (K * V)) :
  In k (map fst kvs) \/ ~ In k (map fst kvs).
Proof.
  induction kvs as [| [k0 v0] kvs [IH | IH]]; simpl.
  - right. tauto.
  - left. now right.
  - destruct (eqb k0 k) eqn:E.
    + apply eqb_eq in E. left. now left.
    + right. intros [-> | H]; [now rewrite eqb_refl' in E | contradiction].
Qed.

Lemma setdefault_append_keys (d : list (K * list V)) (k : K) (x : V) (k' : K) :
  In k' (map fst (setdefault_append eqb d k x)) <-> In k' (map fst d) \/ k' = k.
Proof.
  induction d as [| [k0 l0] d IH]; simpl.
  - intuition.
  - destruct (eqb k0 k) eqn:E; simpl.
    + apply eqb_eq in E. subst. intuition.
    + rewrite IH. intuition.
Qed.

Lemma setdefault_append_NoDup (d : list (K * list V)) (k : K) (x : V) :
  NoDup (map fst d) -> NoDup (map fst (setdefault_append eqb d k x)).
Proof.
  induction d as [| [k0 l0] d IH]; simpl; intros H.
  - constructor; [intros [] | constructor].
  - inversion H as [| ? ? Hk0 Hd]; subst.
    destruct (eqb k0 k) eqn:E; simpl; [assumption |].
    constructor; [| now apply IH].
    rewrite setdefault_append_keys. intros [Hin | ->]; [contradiction |].
    now rewrite eqb_refl' in E.
Qed.

Lemma setdefault_append_In (d : list (K * list V)) (k : K) (x : V) (k' : K) (l' : list V) :
  NoDup (map fst d) ->
  In (k', l') (setdefault_append eqb d k x)
  <-> (k' <> k /\ In (k', l') d)
      \/ (k' = k /\ ((exists l, In (k, l) d /\ l' = l ++ [x])
                     \/ (~ In k (map fst d) /\ l' = [x]))).
Proof.
  induction d as [| [k0 l0] d IH]; simpl; intros H.
  - split.
    + intros [E | []]. injection E as <- <-. right. split; [reflexivity |].
      right. split; [tauto | reflexivity].
    + intros [[_ []] | [-> [(l & [] & _) | [_ ->]]]]. now left.
  - inversion H as [| ? ? Hk0 Hd]; subst. specialize (IH Hd).
    assert (Hkey : forall l, In (k0, l) d -> False).
    { intros l Hl. apply Hk0. apply in_map_iff. now exists (k0, l). }
    destruct (eqb k0 k) eqn:E.
    + apply eqb_eq in E. subst k0. simpl. split.
      * intros [E | Hin].
        -- injection E as <- <-. right. split; [reflexivity |]. left.
           exists l0. split; [now left | reflexivity].
        -- left. split; [| now right]. intros ->. now apply (Hkey l').
      * intros [[Hne [E | Hin]] | [-> [(l & [E | Hin] & ->) | [Hn _]]]].
        -- injection E as -> _. now elim Hne.
        -- now right.
        -- injection E as ->. now left.
        -- now elim (Hkey l).
        -- elim Hn. now left.
    + assert (Hne : k0 <> k) by (intros ->; now rewrite eqb_refl' in E).
      simpl. rewrite IH. split.
      * intros [E' | [[Hn Hin] | [-> [(l & Hin & ->) | [Hn ->]]]]].
        -- injection E' as <- <-. left. split; [assumption | now left].
        -- left. split; [assumption | now right].
        -- right. split; [reflexivity |]. left. exists l. split; [now right | reflexivity].
        -- right. split; [reflexivity |]. right. split; [| reflexivity].
           intros [E' | Hin]; [now elim Hne | contradiction].
      * intros [[Hn [E' | Hin]] | [-> [(l & [E' | Hin] & ->) | [Hn ->]]]].
        -- now left.
        -- right. left. now split.
        -- injection E' as -> _. now elim Hne.
        -- right. right. split; [reflexivity |]. left. now exists l.
        -- right. right. split; [reflexivity |]. right. split; [| reflexivity].
           intros Hin. apply Hn. now right.
Qed.

(** The dict built from the pairs [kvs]: one key for every key inserted,
    holding the values inserted under it, in order. *)
Lemma group_spec (kvs : list (K * V)) :
  NoDup (map fst (group eqb kvs))
  /\ forall k l, In (k, l) (group eqb kvs)
                 <-> l = select eqb k kvs /\ In k (map fst kvs).
Proof.
  induction kvs as [| [k0 x] kvs [IHn IH]] using rev_ind.
  - split; [constructor |]. intros k l. simpl. tauto.
  - rewrite group_snoc. split; [now apply setdefault_append_NoDup |].
    intros k l. rewrite (setdefault_append_In _ _ _ _ _ IHn).
    rewrite select_app, map_app, in_app_iff. unfold select at 2. simpl.
    assert (Hkeys : In k0 (map fst (group eqb kvs)) <-> In k0 (map fst kvs)).
    { rewrite !in_map_iff. split.
      - intros ([k' l'] & <- & Hin). apply IH in Hin. destruct Hin as [_ Hin].
        apply in_map_iff in Hin. exact Hin.
      - intros Hin. exists (k0, select eqb k0 kvs). split; [reflexivity |].
        apply IH. split; [reflexivity | now apply in_map_iff]. }
    split.
    + intros [[Hne Hin] | [-> [(l0 & Hin & ->) | [Hn ->]]]].
      * apply IH in Hin. destruct Hin as [-> Hin].
        rewrite (eqb_neq' k0 k) by congruence. simpl. rewrite app_nil_r. auto.
      * apply IH in Hin. destruct Hin as [-> Hin]. rewrite eqb_refl'. simpl. auto.
      * rewrite Hkeys in Hn. rewrite (select_absent k0 kvs Hn), eqb_refl'. simpl. auto.
    + intros [-> Hin]. destruct (eqb k0 k) eqn:E.
      * apply eqb_eq in E. subst k0. right. split; [reflexivity |]. simpl.
        destruct (in_dec_keys k kvs) as [Hk | Hk].
        -- left. exists (select eqb k kvs). split; [| reflexivity].
           apply IH. auto.
        -- right. rewrite Hkeys. split; [assumption |].
           now rewrite (select_absent k kvs Hk).
      * left. assert (Hne : k <> k0) by (intros ->; now rewrite eqb_refl' in E).
        split; [assumption |]. simpl. rewrite app_nil_r. apply IH.
        split; [reflexivity |]. destruct Hin as [Hin | [E' | []]]; [assumption |].
        now elim Hne.
Qed.

End Group.

(** ** The scan: what is reported *)

Lemma norm_value (v : list float) :
  norm v = Ok (or_one (PrimFloat.sqrt (sum (squares v)))).
Proof. unfold norm. fold (squares v). now rewrite math_sqrt_squares. Qed.

(** [cos] raises nothing. *)
Lemma cos_cosine (a b : list float) : cos a b = Ok (cosine a b).
Proof.
  destruct (cos_value a b) as (na & nb & Ha & Hb & _ & Hc).
  rewrite norm_value in Ha, Hb. injection Ha as <-. injection Hb as <-. exact Hc.
Qed.

Lemma compare_pair_value (ei ej : entry) (sc : scan) :
  compare_pair ei ej sc
  = Ok (if key_in (e_id ei, e_id ej) (seen_pairs sc) then sc
        else {| seen_pairs := (e_id ei, e_id ej) :: seen_pairs sc;
                found := if F64.ge (cosine (e_raw ei) (e_raw ej)) NEAR_THRESH
                         then found sc ++ [near_of (ei, ej)]
                         else found sc |}).
Proof.
  unfold compare_pair. destruct (key_in _ _); [reflexivity |].
  now rewrite cos_cosine.
Qed.

Lemma scan_pairs_app (c1 c2 : list (entry * entry)) (sc : scan) :
  scan_pairs (c1 ++ c2) sc = (sc1 <- scan_pairs c1 sc ;; scan_pairs c2 sc1).
Proof.
  revert sc. induction c1 as [| p c1 IH]; intros sc; cbn [scan_pairs app]; [reflexivity |].
  destruct (compare_pair (fst p) (snd p) sc) as [sc1 | e]; cbn [bind]; [apply IH | reflexivity].
Qed.

Lemma scan_from_pairs (ei : entry) (rest : list entry) (sc : scan) :
  scan_from ei rest sc = scan_pairs (map (pair ei) rest) sc.
Proof.
  revert sc. induction rest as [| ej rest IH]; intros sc; cbn [scan_from scan_pairs map fst snd];
    [reflexivity |].
  destruct (compare_pair ei ej sc) as [sc1 | e]; cbn [bind]; [apply IH | reflexivity].
Qed.

Lemma scan_bucket_pairs (entries : list entry) (sc : scan) :
  scan_bucket entries sc = scan_pairs (bucket_pairs entries) sc.
Proof.
  revert sc. induction entries as [| ei rest IH]; intros sc;
    cbn [scan_bucket bucket_pairs]; [reflexivity |].
  rewrite scan_pairs_app, scan_from_pairs.
  destruct (scan_pairs (map (pair ei) rest) sc) as [sc1 | e]; cbn [bind]; [apply IH | reflexivity].
Qed.

Lemma bucket_pairs_short (entries : list entry) :
  (List.length entries <? 2)%nat = true -> bucket_pairs entries = [].
Proof.
  destruct entries as [| e1 [| e2 rest]]; try reflexivity.
  intros H. apply Nat.ltb_lt in H. simpl in H. lia.
Qed.

Lemma scan_buckets_pairs (buckets : list (list Z * list entry)) (sc : scan) :
  scan_buckets buckets sc = scan_pairs (candidates buckets) sc.
Proof.
  revert sc. induction buckets as [| [sig entries] buckets IH]; intros sc;
    unfold candidates; cbn [scan_buckets flat_map snd]; [reflexivity |].
  fold (candidates buckets). rewrite scan_pairs_app.
  destruct (List.length entries <? 2)%nat eqn:Hlen.
  - rewrite (bucket_pairs_short entries Hlen). cbn [scan_pairs bind]. apply IH.
  - rewrite scan_bucket_pairs.
    destruct (scan_pairs (bucket_pairs entries) sc) as [sc1 | e]; cbn [bind];
      [apply IH | reflexivity].
Qed.

Lemma key_eqb_eq (a b : string * string) : key_eqb a b = true <-> a = b.
Proof.
  destruct a as [a1 a2], b as [b1 b2]. unfold key_eqb. simpl.
  rewrite andb_true_iff, !String.eqb_eq. split.
  - intros [-> ->]. reflexivity.
  - intros E. injection E as -> ->. auto.
Qed.

Lemma key_in_In (k : string * string) (l : list (string * string)) :
  key_in k l = true <-> In k l.
Proof.
  unfold key_in. rewrite existsb_exists. split.
  - intros (x & Hx & E). apply key_eqb_eq in E. now subst.
  - intros H. exists k. split; [assumption | now apply key_eqb_eq].
Qed.

Lemma key_in_ext (l l' : list (string * string)) :
  (forall k, In k l <-> In k l') -> forall k, key_in k l = key_in k l'.
Proof.
  intros H k. apply eq_true_iff_eq. rewrite !key_in_In. apply H.
Qed.

(** The scan of the pairs [rest], reached after the pairs [pre]. *)
Lemma scan_pairs_from (rest pre : list (entry * entry)) (sc : scan) :
  (forall k, In k (seen_pairs sc) <-> In k (map pair_key pre)) ->
  exists sc',
    scan_pairs rest sc = Ok sc'
    /\ found sc' = found sc ++ map (fun o => near_of (snd o))
                                   (filter qualifies (occurrences_from pre rest))
    /\ (forall k, In k (seen_pairs sc') <-> In k (map pair_key (pre ++ rest))).
Proof.
  revert pre sc. induction rest as [| p rest IH]; intros pre sc Hseen.
  - exists sc. cbn [scan_pairs occurrences_from filter map].
    rewrite !app_nil_r. auto.
  - cbn [scan_pairs occurrences_from filter]. rewrite compare_pair_value. cbn [bind].
    assert (Hq : negb (key_in (pair_key p) (map pair_key pre))
                 = negb (key_in (e_id (fst p), e_id (snd p)) (seen_pairs sc))).
    { f_equal. symmetry. now apply key_in_ext. }
    unfold qualifies at 1. cbn [fst snd]. rewrite Hq.
    destruct (key_in (e_id (fst p), e_id (snd p)) (seen_pairs sc)) eqn:Hin.
    + destruct (IH (pre ++ [p]) sc) as (sc' & Hrun & Hfound & Hkeys).
      { intros k. rewrite map_app, in_app_iff, <- Hseen. simpl. split; [tauto |].
        intros [H | [<- | []]]; [assumption |]. now apply key_in_In. }
      exists sc'. cbn [negb andb]. rewrite <- app_assoc in Hkeys. auto.
    + set (sc1 := {| seen_pairs := _; found := _ |}).
      destruct (IH (pre ++ [p]) sc1) as (sc' & Hrun & Hfound & Hkeys).
      { intros k. unfold sc1. cbn [seen_pairs]. rewrite map_app, in_app_iff, <- Hseen.
        simpl. unfold pair_key. tauto. }
      exists sc'. rewrite <- app_assoc in Hkeys. split; [assumption |]. split; [| assumption].
      rewrite Hfound. unfold sc1. cbn [found negb andb].
      destruct (F64.ge _ NEAR_THRESH); cbn [map]; [| reflexivity].
      rewrite <- app_assoc. destruct p; reflexivity.
Qed.

Lemma scan_buckets_reported (buckets : list (list Z * list entry)) :
  exists sc,
    scan_buckets buckets {| seen_pairs := []; found := [] |} = Ok sc
    /\ found sc = reported (candidates buckets).
Proof.
  rewrite scan_buckets_pairs.
  destruct (scan_pairs_from (candidates buckets) [] {| seen_pairs := []; found := [] |})
    as (sc & Hrun & Hfound & _); [reflexivity |].
  exists sc. split; [assumption |]. exact Hfound.
Qed.

(** ** The whole run *)

Lemma sig_buckets_run (s : list (glyph * string)) :
  match first_dims s with
  | Some n => buckets_of (basis_of n) (accepted s)
  | None => []
  end = run_buckets s.
Proof.
  unfold run_buckets, run_basis, accepted. now destruct (first_dims s).
Qed.

(** The state at the end of the ingestion, index by index. *)
Lemma ingest_all_indices (files : list (string * list glyph)) :
  exists st,
    ingest_all init files = Ok st
    /\ exact_index st = exact_of (accepted (stream files))
    /\ sig_buckets st = run_buckets (stream files)
    /\ dims st = first_dims (stream files)
    /\ total st = List.length (accepted (stream files)).
Proof.
  eexists. split; [apply ingest_all_init |]. unfold state_of.
  cbn [exact_index sig_buckets dims total]. rewrite sig_buckets_run. auto.
Qed.

(** A run raises nothing and prints the report of its stream. *)
Lemma main_report (files : list (string * list glyph)) :
  main files = Ok (report_of (List.length files) (stream files)).
Proof.
  unfold main. rewrite ingest_all_init. cbn [bind].
  set (s := stream files).
  destruct (scan_buckets_reported (sig_buckets (state_of (first_dims s) (accepted s))))
    as (sc & Hrun & Hfound).
  rewrite Hrun. cbn [bind]. rewrite Hfound. unfold report_of, state_of.
  cbn [total exact_index sig_buckets]. rewrite (sig_buckets_run s). reflexivity.
Qed.

(** ** Buckets and pairs *)

Lemma sig_eqb_eq (a b : list Z) : sig_eqb a b = true <-> a = b.
Proof.
  unfold sig_eqb. revert b. induction a as [| x a IH]; intros [| y b]; simpl;
    try (split; [discriminate | discriminate]); [tauto |].
  specialize (IH b). rewrite andb_true_iff in *. rewrite andb_true_iff, Z.eqb_eq.
  change (S (List.length a) =? S (List.length b))%nat with (List.length a =? List.length b)%nat.
  split.
  - intros [Hl [-> Hf]]. f_equal. apply IH. auto.
  - intros E. injection E as -> ->. destruct IH as [_ IH]. specialize (IH eq_refl). tauto.
Qed.

(** Every entry of a bucket was accepted and has the signature of the bucket. *)
Lemma run_buckets_entries (s : list (glyph * string)) (k : list Z) (l : list entry) (e : entry) :
  In (k, l) (run_buckets s) -> In e l ->
  In e (accepted s) /\ sign_signature (e_raw e) (run_basis s) = k.
Proof.
  unfold run_buckets, buckets_of. intros Hkl He.
  apply (group_spec sig_eqb sig_eqb_eq) in Hkl. destruct Hkl as [-> _].
  apply (select_In sig_eqb sig_eqb_eq) in He. apply in_map_iff in He.
  destruct He as (e' & E & Hin). injection E as <- <-. auto.
Qed.

Lemma bucket_pairs_In (l : list entry) (x y : entry) :
  In (x, y) (bucket_pairs l) <-> exists l1 l2 l3, l = l1 ++ x :: l2 ++ y :: l3.
Proof.
  induction l as [| e l IH]; cbn [bucket_pairs].
  - split; [intros [] |]. intros (l1 & l2 & l3 & E). destruct l1; discriminate.
  - rewrite in_app_iff, in_map_iff, IH. split.
    + intros [(y' & E & Hin) | (l1 & l2 & l3 & ->)].
      * injection E as <- <-. apply in_split in Hin. destruct Hin as (l2 & l3 & ->).
        now exists [], l2, l3.
      * now exists (e :: l1), l2, l3.
    + intros (l1 & l2 & l3 & E). destruct l1 as [| e' l1]; simpl in E; injection E as <- ->.
      * left. exists y. split; [reflexivity |]. apply in_or_app. right. now left.
      * right. now exists l1, l2, l3.
Qed.

Lemma bucket_pairs_members (l : list entry) (p : entry * entry) :
  In p (bucket_pairs l) -> In (fst p) l /\ In (snd p) l.
Proof.
  destruct p as [x y]. rewrite bucket_pairs_In. intros (l1 & l2 & l3 & ->). simpl.
  split; apply in_or_app; right; [now left |]. right. apply in_or_app. right. now left.
Qed.

Lemma candidates_In (buckets : list (list Z * list entry)) (p : entry * entry) :
  In p (candidates buckets)
  <-> exists k l, In (k, l) buckets /\ In p (bucket_pairs l).
Proof.
  unfold candidates. rewrite in_flat_map. split.
  - intros ([k l] & H1 & H2). now exists k, l.
  - intros (k & l & H1 & H2). now exists (k, l).
Qed.

Lemma occurrences_from_In {A : Type} (pre0 l pre : list A) (x : A) :
  In (pre, x) (occurrences_from pre0 l)
  <-> exists l1 l2, l = l1 ++ x :: l2 /\ pre = pre0 ++ l1.
Proof.
  revert pre0. induction l as [| y l IH]; intros pre0; cbn [occurrences_from].
  - split; [intros [] |]. intros (l1 & l2 & E & _). destruct l1; discriminate.
  - simpl. rewrite IH. split.
    + intros [E | (l1 & l2 & -> & ->)].
      * injection E as <- <-. exists [], l. now rewrite app_nil_r.
      * exists (y :: l1), l2. now rewrite <- app_assoc.
    + intros (l1 & l2 & E & ->). destruct l1 as [| y' l1]; simpl in E; injection E as <- ->.
      * left. now rewrite app_nil_r.
      * right. exists l1, l2. now rewrite <- app_assoc.
Qed.

Lemma occurrences_In {A : Type} (l pre : list A) (x : A) :
  In (pre, x) (occurrences l) <-> exists post, l = pre ++ x :: post.
Proof.
  unfold occurrences. rewrite occurrences_from_In. split.
  - intros (l1 & l2 & -> & ->). now exists l2.
  - intros (post & ->). now exists pre, post.
Qed.

(** ** Floats: order *)

Lemma SFcompare_antisym (x y : spec_float) :
  SFcompare y x = option_map CompOpp (SFcompare x y).
Proof.
  destruct x as [sx | sx | | sx mx ex], y as [sy | sy | | sy my ey]; simpl;
    try reflexivity;
    try (destruct sx; reflexivity); try (destruct sy; reflexivity);
    try (destruct sx, sy; reflexivity).
  destruct sx, sy; try reflexivity.
  - rewrite (Z.compare_antisym ex ey). destruct (ex ?= ey) eqn:E; simpl; try reflexivity.
    change (Pos.compare_cont Eq my mx) with (my ?= mx)%positive.
    change (Pos.compare_cont Eq mx my) with (mx ?= my)%positive.
    rewrite (Pos.compare_antisym mx my). now destruct (mx ?= my)%positive.
  - rewrite (Z.compare_antisym ex ey). destruct (ex ?= ey) eqn:E; simpl; try reflexivity.
    change (Pos.compare_cont Eq my mx) with (my ?= mx)%positive.
    change (Pos.compare_cont Eq mx my) with (mx ?= my)%positive.
    rewrite (Pos.compare_antisym mx my). now destruct (mx ?= my)%positive.
Qed.

Lemma ltb_not_ge (x y : float) : PrimFloat.ltb x y = true -> F64.ge x y = false.
Proof.
  unfold F64.ge. rewrite ltb_spec, leb_spec. unfold SFltb, SFleb.
  rewrite (SFcompare_antisym (Prim2SF x) (Prim2SF y)).
  destruct (SFcompare (Prim2SF x) (Prim2SF y)) as [[] |]; simpl; congruence.
Qed.

Lemma ge_threshold_refl : F64.ge NEAR_THRESH NEAR_THRESH = true.
Proof. reflexivity. Qed.

(** ** Claims on the scan *)

Lemma scan_pairs_total (cands : list (entry * entry)) (sc : scan) :
  exists sc', scan_pairs cands sc = Ok sc'.
Proof.
  revert sc. induction cands as [| p cands IH]; intros sc; cbn [scan_pairs]; [now eexists |].
  rewrite compare_pair_value. cbn [bind]. apply IH.
Qed.

(** C8: [norm] returns 1.0 whenever the square root of the sum of squares is
    zero; the divisor of [cos], a product of two norms, is never zero, so
    [cos] raises nothing; for an all-zero vector the norm is 1.0 and the
    cosine with any vector is computed; the scan of any buckets, and so
    any run, ends without a fault. *)
Theorem norm_floor_no_zero_division :
  (forall v, PrimFloat.eqb (PrimFloat.sqrt (sum (squares v))) 0 = true ->
             norm v = Ok 1%float)
  /\ (forall a b, exists na nb,
         norm a = Ok na /\ norm b = Ok nb
         /\ PrimFloat.eqb (na * nb) 0 = false
         /\ cos a b = Ok (dot a b / (na * nb))%float)
  /\ (forall z b, Forall (fun x => PrimFloat.eqb x 0 = true) z ->
         norm z = Ok 1%float
         /\ (exists c, cos z b = Ok c) /\ (exists c, cos b z = Ok c))
  /\ (forall buckets sc, exists sc', scan_buckets buckets sc = Ok sc')
  /\ (forall files, exists r, main files = Ok r).
Proof.
  split; [exact norm_zero_sum |]. split; [exact cos_value |]. split; [| split].
  - intros z b Hz. split; [now apply norm_zero_vector |].
    split; eexists; apply cos_cosine.
  - intros buckets sc. rewrite scan_buckets_pairs. apply scan_pairs_total.
  - intros files. eexists. apply main_report.
Qed.

Lemma reported_at (cands pre : list (entry * entry)) (p : entry * entry) :
  In (pre, p) (filter qualifies (occurrences cands))
  <-> (exists post, cands = pre ++ p :: post)
      /\ ~ In (pair_key p) (map pair_key pre)
      /\ F64.ge (cosine (e_raw (fst p)) (e_raw (snd p))) NEAR_THRESH = true.
Proof.
  rewrite filter_In, occurrences_In. unfold qualifies. cbn [fst snd].
  rewrite andb_true_iff, negb_true_iff, <- not_true_iff_false, key_in_In. tauto.
Qed.

(** C5: the near-clones printed are the pairs of one bucket, taken in the
    order of the two loops, whose ids are those of no earlier pair and whose
    cosine is at least [NEAR_THRESH]; for a pair whose ids were not seen
    before, it is printed exactly when the cosine is [>= NEAR_THRESH]: printed
    when the cosine equals the threshold, not printed when it is below. *)
Theorem near_clone_threshold (files : list (string * list glyph)) :
  exists st r,
    ingest_all init files = Ok st /\ main files = Ok r
    /\ near_clones r
       = map (fun o => near_of (snd o))
             (filter qualifies (occurrences (candidates (sig_buckets st))))
    /\ (forall p, In p (candidates (sig_buckets st))
                  <-> exists k l l1 l2 l3,
                        In (k, l) (sig_buckets st) /\ l = l1 ++ fst p :: l2 ++ snd p :: l3)
    /\ (forall pre p post,
           candidates (sig_buckets st) = pre ++ p :: post ->
           ~ In (pair_key p) (map pair_key pre) ->
           exists c,
             cos (e_raw (fst p)) (e_raw (snd p)) = Ok c
             /\ (In (pre, p) (filter qualifies (occurrences (candidates (sig_buckets st))))
                 <-> F64.ge c NEAR_THRESH = true)
             /\ (c = NEAR_THRESH ->
                 In (pre, p) (filter qualifies (occurrences (candidates (sig_buckets st)))))
             /\ (PrimFloat.ltb c NEAR_THRESH = true ->
                 ~ In (pre, p) (filter qualifies (occurrences (candidates (sig_buckets st)))))).
Proof.
  destruct (ingest_all_indices files) as (st & Hst & _ & Hb & _).
  exists st, (report_of (List.length files) (stream files)).
  split; [assumption |]. split; [apply main_report |]. rewrite Hb.
  split; [reflexivity |]. split.
  - intros [x y]. rewrite candidates_In. cbn [fst snd]. split.
    + intros (k & l & Hkl & Hp). apply bucket_pairs_In in Hp.
      destruct Hp as (l1 & l2 & l3 & ->).
      now exists k, (l1 ++ x :: l2 ++ y :: l3), l1, l2, l3.
    + intros (k & l & l1 & l2 & l3 & Hkl & ->).
      exists k, (l1 ++ x :: l2 ++ y :: l3). split; [assumption |].
      apply bucket_pairs_In. now exists l1, l2, l3.
  - intros pre p post Hc Hfresh. exists (cosine (e_raw (fst p)) (e_raw (snd p))).
    split; [apply cos_cosine |].
    assert (Hiff : In (pre, p) (filter qualifies (occurrences (candidates (run_buckets (stream files)))))
                   <-> F64.ge (cosine (e_raw (fst p)) (e_raw (snd p))) NEAR_THRESH = true).
    { rewrite reported_at. split; [tauto |]. intros H. split; [now exists post | tauto]. }
    split; [exact Hiff |]. split.
    + intros E. apply Hiff. rewrite E. apply ge_threshold_refl.
    + intros Hlt Hin. apply Hiff in Hin. rewrite (ltb_not_ge _ _ Hlt) in Hin. discriminate.
Qed.

(** C6: the pairs compared are the pairs of entries of one bucket; the two
    entries of a compared pair, and so of a printed pair, have the same
    signature under the basis of the run; two entries whose signatures
    differ are neither compared nor printed, whatever their cosine. *)
Theorem near_clones_within_buckets (files : list (string * list glyph)) :
  exists st r,
    ingest_all init files = Ok st /\ main files = Ok r
    /\ (forall sc, scan_buckets (sig_buckets st) sc
                   = scan_pairs (candidates (sig_buckets st)) sc)
    /\ (forall k l e, In (k, l) (sig_buckets st) -> In e l ->
                      sign_signature (e_raw e) (run_basis (stream files)) = k)
    /\ (forall p, In p (candidates (sig_buckets st)) ->
                  sign_signature (e_raw (fst p)) (run_basis (stream files))
                  = sign_signature (e_raw (snd p)) (run_basis (stream files)))
    /\ (forall n, In n (near_clones r) ->
                  In (n_left n, n_right n) (candidates (sig_buckets st))
                  /\ sign_signature (e_raw (n_left n)) (run_basis (stream files))
                     = sign_signature (e_raw (n_right n)) (run_basis (stream files)))
    /\ (forall x y,
           sign_signature (e_raw x) (run_basis (stream files))
           <> sign_signature (e_raw y) (run_basis (stream files)) ->
           ~ In (x, y) (candidates (sig_buckets st))
           /\ forall c, ~ In {| n_left := x; n_right := y; n_cos := c |} (near_clones r)).
Proof.
  destruct (ingest_all_indices files) as (st & Hst & _ & Hb & _).
  exists st, (report_of (List.length files) (stream files)).
  split; [assumption |]. split; [apply main_report |]. rewrite Hb.
  set (s := stream files).
  assert (Hbucket : forall k l e, In (k, l) (run_buckets s) -> In e l ->
                                  sign_signature (e_raw e) (run_basis s) = k).
  { intros k l e Hkl He. now apply (run_buckets_entries s k l e). }
  assert (Hcand : forall p, In p (candidates (run_buckets s)) ->
                            sign_signature (e_raw (fst p)) (run_basis s)
                            = sign_signature (e_raw (snd p)) (run_basis s)).
  { intros p Hp. apply candidates_In in Hp. destruct Hp as (k & l & Hkl & Hp).
    apply bucket_pairs_members in Hp. destruct Hp as [H1 H2].
    rewrite (Hbucket k l _ Hkl H1). now rewrite (Hbucket k l _ Hkl H2). }
  assert (Hnear : forall n, In n (near_clones (report_of (List.length files) s)) ->
                            In (n_left n, n_right n) (candidates (run_buckets s))).
  { intros n Hn. unfold report_of in Hn. cbn [near_clones] in Hn. unfold reported in Hn.
    apply in_map_iff in Hn. destruct Hn as ([pre p] & <- & Hin).
    apply reported_at in Hin. destruct Hin as [[post E] _]. cbn [snd near_of n_left n_right].
    rewrite E. apply in_or_app. right. left. now destruct p. }
  split; [apply scan_buckets_pairs |]. split; [exact Hbucket |]. split; [exact Hcand |].
  split.
  - intros n Hn. split; [now apply Hnear |]. apply (Hcand _ (Hnear n Hn)).
  - intros x y Hne. split.
    + intros Hin. apply Hne. apply (Hcand _ Hin).
    + intros c Hin. apply Hne. apply (Hcand _ (Hnear _ Hin)).
Qed.

Lemma reported_keys_from (rest pre : list (entry * entry)) :
  let keys := map (fun o : list (entry * entry) * (entry * entry) => pair_key (snd o))
                  (filter qualifies (occurrences_from pre rest)) in
  NoDup keys /\ forall k, In k keys -> ~ In k (map pair_key pre).
Proof.
  revert pre. induction rest as [| p rest IH]; intros pre; cbn [occurrences_from filter].
  - simpl. split; [constructor | tauto].
  - destruct (IH (pre ++ [p])) as [Hnd Hout]. cbv zeta in *.
    assert (Hout' : forall k, In k (map (fun o : list (entry * entry) * (entry * entry) => pair_key (snd o))
                                        (filter qualifies (occurrences_from (pre ++ [p]) rest))) ->
                              ~ In k (map pair_key pre) /\ k <> pair_key p).
    { intros k Hk. specialize (Hout k Hk). rewrite map_app, in_app_iff in Hout.
      simpl in Hout. split; [tauto |]. intros ->. tauto. }
    destruct (qualifies (pre, p)) eqn:Hq; cbn [map snd].
    + split.
      * constructor; [| assumption]. intros Hin. now apply Hout' in Hin.
      * intros k [<- | Hk]; [| now apply Hout'].
        unfold qualifies in Hq. cbn [fst snd] in Hq. apply andb_prop in Hq.
        destruct Hq as [Hq _]. apply negb_true_iff in Hq.
        rewrite <- key_in_In. now rewrite Hq.
    + split; [assumption |]. intros k Hk. now apply Hout'.
Qed.

(** C9: over a whole run no two printed near-clones carry the same ordered
    pair of ids; the guard of the scan looks at the two ids only: a pair
    whose ids are those of an earlier pair, from whatever files, leaves the
    scan as it is and is not printed, whatever its cosine. *)
Theorem seen_pairs_by_ids (files : list (string * list glyph)) :
  exists st r,
    ingest_all init files = Ok st /\ main files = Ok r
    /\ NoDup (map (fun n => (e_id (n_left n), e_id (n_right n))) (near_clones r))
    /\ (forall ei ej sc,
           In (e_id ei, e_id ej) (seen_pairs sc) -> compare_pair ei ej sc = Ok sc)
    /\ (forall pre p post q,
           candidates (sig_buckets st) = pre ++ p :: post ->
           In q pre ->
           e_id (fst q) = e_id (fst p) -> e_id (snd q) = e_id (snd p) ->
           ~ In (near_of p)
                (map (fun o => near_of (snd o))
                     (filter qualifies (occurrences_from pre (p :: post))))
           /\ ~ In (pre, p) (filter qualifies (occurrences (candidates (sig_buckets st))))).
Proof.
  destruct (ingest_all_indices files) as (st & Hst & _ & Hb & _).
  exists st, (report_of (List.length files) (stream files)).
  split; [assumption |]. split; [apply main_report |]. rewrite Hb.
  set (cands := candidates (run_buckets (stream files))).
  split; [| split].
  - unfold report_of. cbn [near_clones]. unfold reported. rewrite map_map.
    destruct (reported_keys_from cands []) as [Hnd _]. exact Hnd.
  - intros ei ej sc Hin. unfold compare_pair. apply key_in_In in Hin. now rewrite Hin.
  - intros pre p post q Hc Hq H1 H2.
    assert (Hseen : In (pair_key p) (map pair_key pre)).
    { apply in_map_iff. exists q. split; [| assumption]. unfold pair_key. congruence. }
    split.
    + intros Hin. apply in_map_iff in Hin. destruct Hin as ([pre' p'] & E & Hin).
      cbn [snd] in E. apply filter_In in Hin. destruct Hin as [Hocc Hqual].
      destruct (reported_keys_from (p :: post) pre) as [_ Hout]. cbv zeta in Hout.
      apply (Hout (pair_key p')).
      * apply in_map_iff. exists (pre', p'). split; [reflexivity |].
        apply filter_In. auto.
      * replace (pair_key p') with (pair_key p); [assumption |].
        unfold pair_key. apply (f_equal n_left) in E as E1. apply (f_equal n_right) in E as E2.
        cbn [near_of n_left n_right] in E1, E2. congruence.
    + rewrite reported_at. tauto.
Qed.

(** ** Claims on the ingestion *)

Lemma filter_none {A : Type} (f : A -> bool) (l : list A) :
  (forall x, In x l -> f x = false) -> filter f l = [].
Proof.
  induction l as [| x l IH]; intros H; simpl; [reflexivity |].
  rewrite (H x (or_introl eq_refl)). apply IH. intros y Hy. apply H. now right.
Qed.

Lemma group_const {K V A : Type} (eqb : K -> K -> bool) (k : K) (f : A -> V) (l : list A) :
  eqb k k = true ->
  group eqb (map (fun x => (k, f x)) l)
  = match l with
    | [] => []
    | _ :: _ => [(k, map f l)]
    end.
Proof.
  intros Hk.
  assert (H : forall l l0,
             fold_left (fun d kv => setdefault_append eqb d (fst kv) (snd kv))
                       (map (fun x => (k, f x)) l) [(k, l0)]
             = [(k, l0 ++ map f l)]).
  { clear l. induction l as [| x l IH]; intros l0; simpl.
    - now rewrite app_nil_r.
    - rewrite Hk, IH, <- app_assoc. reflexivity. }
  destruct l as [| x l]; [reflexivity |]. unfold group. simpl. apply H.
Qed.

(** What a record gives when the dimension is [d]. *)
Lemma accept_Some (d : nat) (gp : glyph * string) (e : entry) :
  accept d gp = Some e
  <-> truthy_id (g_id (fst gp)) = true
      /\ isinstance_list (g_vec (fst gp)) = true
      /\ List.length (items (g_vec (fst gp))) = d
      /\ exists v_raw v_r,
           mapM float_of (items (g_vec (fst gp))) = Ok v_raw
           /\ round_vec v_raw PREC = Ok v_r
           /\ e = {| e_id := text (g_id (fst gp)); e_src := basename (snd gp);
                     e_vr := v_r; e_raw := v_raw |}.
Proof.
  unfold accept, eligible. cbv zeta.
  destruct (truthy_id (g_id (fst gp))); cbn [andb].
  2: { split; [discriminate | intros [H _]; discriminate]. }
  destruct (isinstance_list (g_vec (fst gp))); cbn [andb].
  2: { split; [discriminate | intros (_ & H & _); discriminate]. }
  destruct (Nat.eqb_spec (List.length (items (g_vec (fst gp)))) d) as [Hd | Hd].
  2: { split; [discriminate | intros (_ & _ & H & _); contradiction]. }
  destruct (mapM float_of (items (g_vec (fst gp)))) as [v_raw | err].
  2: { split; [discriminate | intros (_ & _ & _ & v1 & v2 & H & _); discriminate]. }
  destruct (round_vec v_raw PREC) as [v_r | err] eqn:Hr.
  2: { split; [discriminate |].
       intros (_ & _ & _ & v1 & v2 & H1 & H2 & _). injection H1 as <-.
       rewrite Hr in H2. discriminate. }
  split.
  - intros E. injection E as <-. repeat split; auto. now exists v_raw, v_r.
  - intros (_ & _ & _ & v1 & v2 & H1 & H2 & ->).
    injection H1 as <-. rewrite Hr in H2. injection H2 as <-. reflexivity.
Qed.

Lemma accepted_In (s : list (glyph * string)) (e : entry) :
  In e (accepted s)
  <-> exists d gp, first_dims s = Some d /\ In gp s /\ accept d gp = Some e.
Proof.
  unfold accepted. destruct (first_dims s) as [d |].
  - unfold accepted_under. rewrite in_flat_map. split.
    + intros (gp & Hgp & He). exists d, gp. split; [reflexivity |]. split; [assumption |].
      destruct (accept d gp) as [e' |]; simpl in He; [| contradiction].
      destruct He as [-> | []]. reflexivity.
    + intros (d' & gp & E & Hgp & Ha). injection E as <-. exists gp.
      split; [assumption |]. rewrite Ha. now left.
  - split; [intros [] |]. intros (d & gp & E & _). discriminate.
Qed.

(** The members of a dict built by insertion are the values inserted. *)
Lemma group_members {K V : Type} (eqb : K -> K -> bool) (kvs : list (K * V)) (v : V) :
  (forall a b, eqb a b = true <-> a = b) ->
  (exists k l, In (k, l) (group eqb kvs) /\ In v l) <-> In v (map snd kvs).
Proof.
  intros Heq. split.
  - intros (k & l & Hkl & Hv). apply (group_spec eqb Heq) in Hkl. destruct Hkl as [-> _].
    apply (select_In eqb Heq) in Hv. apply in_map_iff. now exists (k, v).
  - intros Hv. apply in_map_iff in Hv. destruct Hv as ([k v'] & <- & Hin).
    exists k, (select eqb k kvs). split.
    + apply (group_spec eqb Heq). split; [reflexivity |]. apply in_map_iff. now exists (k, v').
    + now apply (select_In eqb Heq).
Qed.

Lemma string_eqb_eq (a b : string) : String.eqb a b = true <-> a = b.
Proof. apply String.eqb_eq. Qed.

(** C2 fails as stated: two records whose vector holds a NaN are accepted,
    counted, put together in the exact index and in one bucket. *)
Lemma nan_records_are_indexed :
  exists st,
    ingest_all init Ex.nan_files = Ok st
    /\ total st = 2%nat
    /\ map snd (exact_index st) = [[("a", "f"); ("b", "f")]]%string
    /\ map (fun kl => map e_id (snd kl)) (sig_buckets st) = [["a"; "b"]]%string
    /\ map (fun kl => map e_raw (snd kl)) (sig_buckets st) = [[[nan]; [nan]]].
Proof.
  eexists. split; [vm_compute; reflexivity |]. vm_compute. auto.
Qed.

(** C2, amended: a run raises nothing; a record is inserted when, and only
    when, its id is a non-empty text, its vector field is a list, the length
    of the list is the dimension of the run and [float()] converts every
    element; the members of the exact index and the entries of the buckets
    are those of the inserted records and no other; a float element,
    NaN and the infinities included, is converted as it is, and a text
    element is converted as [float()] reads it, digits of other scripts
    included: the record whose element is the text U+0661 U+0662 is
    inserted, with the vector [12.0]. *)
Theorem rejected_records_not_indexed (files : list (string * list glyph)) :
  exists st r,
    ingest_all init files = Ok st /\ main files = Ok r
    /\ scanned r = List.length (accepted (stream files))
    /\ (forall e, In e (accepted (stream files))
                  <-> exists d gp, first_dims (stream files) = Some d
                                   /\ In gp (stream files) /\ accept d gp = Some e)
    /\ (forall d gp e,
           accept d gp = Some e
           <-> truthy_id (g_id (fst gp)) = true
               /\ isinstance_list (g_vec (fst gp)) = true
               /\ List.length (items (g_vec (fst gp))) = d
               /\ exists v_raw v_r,
                    mapM float_of (items (g_vec (fst gp))) = Ok v_raw
                    /\ round_vec v_raw PREC = Ok v_r
                    /\ e = {| e_id := text (g_id (fst gp)); e_src := basename (snd gp);
                              e_vr := v_r; e_raw := v_raw |})
    /\ (forall m, (exists h l, In (h, l) (exact_index st) /\ In m l)
                  <-> exists e, In e (accepted (stream files)) /\ m = (e_id e, e_src e))
    /\ (forall e, (exists k l, In (k, l) (sig_buckets st) /\ In e l)
                  <-> In e (accepted (stream files)))
    /\ (forall f, float_of (PyFloat f) = Ok f)
    /\ float_of (PyStr arabic_12) = Ok 12%float
    /\ (exists st', ingest_all init arabic_file = Ok st'
                    /\ total st' = 1%nat
                    /\ map (fun kl => map e_raw (snd kl)) (sig_buckets st') = [[[12%float]]]).
Proof.
  destruct (ingest_all_indices files) as (st & Hst & Hx & Hb & _).
  exists st, (report_of (List.length files) (stream files)).
  split; [assumption |]. split; [apply main_report |]. split; [reflexivity |].
  split; [apply accepted_In |]. split; [apply accept_Some |]. rewrite Hx, Hb.
  split; [| split; [| split; [reflexivity | split; [vm_compute; reflexivity |]]]].
  3: { eexists. split; [vm_compute; reflexivity |]. vm_compute. auto. }
  - intros m. unfold exact_of. rewrite (group_members String.eqb _ m string_eqb_eq).
    rewrite map_map, in_map_iff. cbn [snd]. unfold member_of. split.
    + intros (e & <- & He). now exists e.
    + intros (e & He & ->). now exists e.
  - intros e. unfold run_buckets, buckets_of. rewrite (group_members sig_eqb _ e sig_eqb_eq).
    rewrite map_map. cbn [snd]. now rewrite map_id.
Qed.

(** C4: the code at a record that is rejected.  In every run the dimension
    is the length of the first list that comes with a non-empty id, inserted
    or not.  [oops] has an id and a list of one element that [float()]
    refuses; it is not inserted, yet it fixes the dimension at 1, and the two
    sound records of length 3 that follow are dropped; without [oops] they
    form a cluster. *)
Theorem rejected_record_fixes_dims :
  (forall files, exists st,
      ingest_all init files = Ok st /\ dims st = first_dims (stream files))
  /\ accept 1 (Ex.oops, "f"%string) = None
  /\ (exists st, ingest_all init Ex.oops_files = Ok st
                 /\ dims st = Some 1%nat /\ exact_index st = [] /\ sig_buckets st = [])
  /\ main Ex.oops_files
     = Ok {| scanned := 0; n_files := 1; clusters := []; near_clones := [] |}
  /\ (exists r, main [("f"%string, [Ex.a; Ex.b])] = Ok r
                /\ scanned r = 2%nat
                /\ clusters r = [[("a", "f"); ("b", "f")]]%string).
Proof.
  split.
  { intros files. destruct (ingest_all_indices files) as (st & Hst & _ & _ & Hd & _).
    now exists st. }
  split; [reflexivity |]. split.
  - eexists. split; [vm_compute; reflexivity |]. vm_compute. auto.
  - split; [vm_compute; reflexivity |].
    eexists. split; [vm_compute; reflexivity |]. vm_compute. auto.
Qed.

(** ** Empty vectors *)

Lemma accept_zero (gp : glyph * string) :
  accept 0 gp
  = if eligible (fst gp) && (List.length (items (g_vec (fst gp))) =? 0)%nat
    then Some {| e_id := text (g_id (fst gp)); e_src := basename (snd gp);
                 e_vr := []; e_raw := [] |}
    else None.
Proof.
  unfold accept. cbv zeta. destruct (eligible (fst gp)); [| reflexivity].
  destruct (items (g_vec (fst gp))); reflexivity.
Qed.

Lemma accepted_under_zero (s : list (glyph * string)) (e : entry) :
  In e (accepted_under 0 s) -> e_vr e = [] /\ e_raw e = [].
Proof.
  unfold accepted_under. rewrite in_flat_map. intros (gp & _ & He).
  rewrite accept_zero in He. destruct (_ && _); simpl in He; [| contradiction].
  destruct He as [<- | []]. auto.
Qed.

Lemma empty_hash :
  hash_vec [] = "e3b0c44298fc1c149afbf4c8996fb92427ae41e4649b934ca495991b7852b855"%string.
Proof. vm_compute. reflexivity. Qed.

Lemma empty_signature : sign_signature [] (basis_of 0) = repeat 1 N_PROJ.
Proof. vm_compute. reflexivity. Qed.

Lemma empty_cosine : cosine [] [] = 0%float.
Proof. vm_compute. reflexivity. Qed.

Lemma zero_below_threshold : F64.ge 0%float NEAR_THRESH = false.
Proof. reflexivity. Qed.

Lemma map_const_key {A K V : Type} (l : list A) (kf : A -> K) (vf : A -> V) (k : K) :
  (forall x, In x l -> kf x = k) ->
  map (fun x => (kf x, vf x)) l = map (fun x => (k, vf x)) l.
Proof.
  intros H. apply map_ext_in. intros x Hx. now rewrite (H x Hx).
Qed.

(** C10: when the first record with a non-empty id and a list carries the
    empty list, the dimension is 0 and the record is inserted; the entries of
    the run are the records with a non-empty id and an empty list, every
    record with a non-empty list is dropped; the entries share one hash, the
    SHA-256 of no byte, and one signature, all ones: there is one key in the
    exact index and one bucket; the cosine of two of them is 0, below the
    threshold, and no near-clone is printed. *)
Theorem empty_vector_first (files : list (string * list glyph)) (g0 : glyph) (p0 : string) :
  find (fun gp => eligible (fst gp)) (stream files) = Some (g0, p0) ->
  g_vec g0 = PyList [] ->
  exists st r E,
    ingest_all init files = Ok st /\ main files = Ok r
    /\ dims st = Some 0%nat
    /\ E = flat_map (fun gp => if eligible (fst gp)
                                  && (List.length (items (g_vec (fst gp))) =? 0)%nat
                               then [{| e_id := text (g_id (fst gp));
                                        e_src := basename (snd gp);
                                        e_vr := []; e_raw := [] |}]
                               else [])
                    (stream files)
    /\ In {| e_id := text (g_id g0); e_src := basename p0; e_vr := []; e_raw := [] |} E
    /\ (forall gp, In gp (stream files) -> items (g_vec (fst gp)) <> [] ->
                   accept 0 gp = None)
    /\ exact_index st = [(hash_vec [], map (fun e => (e_id e, e_src e)) E)]
    /\ sig_buckets st = [(repeat 1 N_PROJ, E)]
    /\ scanned r = List.length E
    /\ clusters r = (if (1 <? List.length E)%nat
                     then [map (fun e => (e_id e, e_src e)) E] else [])
    /\ (forall x y, In x E -> In y E -> cos (e_raw x) (e_raw y) = Ok 0%float)
    /\ F64.ge 0%float NEAR_THRESH = false
    /\ near_clones r = [].
Proof.
  intros Hfind Hvec.
  set (s := stream files) in *.
  assert (Hd : first_dims s = Some 0%nat).
  { unfold first_dims. rewrite Hfind. cbn [fst]. now rewrite Hvec. }
  assert (Hacc : accepted s = accepted_under 0 s) by (unfold accepted; now rewrite Hd).
  assert (Hbasis : run_basis s = basis_of 0) by (unfold run_basis; now rewrite Hd).
  destruct (ingest_all_indices files) as (st & Hst & Hx & Hb & Hdims & _). fold s in Hx, Hb, Hdims.
  set (E := accepted_under 0 s) in *.
  assert (Hempty : forall e, In e E -> e_vr e = [] /\ e_raw e = [])
    by apply accepted_under_zero.
  assert (Hg0 : In (g0, p0) s /\ eligible g0 = true).
  { apply find_some in Hfind. exact Hfind. }
  assert (HE0 : In {| e_id := text (g_id g0); e_src := basename p0; e_vr := []; e_raw := [] |} E).
  { unfold E, accepted_under. apply in_flat_map. exists (g0, p0). split; [apply Hg0 |].
    rewrite accept_zero. cbn [fst snd]. destruct Hg0 as [_ ->]. rewrite Hvec. now left. }
  assert (Hexact : exact_of E = [(hash_vec [], map member_of E)]).
  { unfold exact_of. rewrite (map_const_key E exact_key member_of (hash_vec [])).
    - rewrite group_const by apply String.eqb_refl.
      destruct E; [contradiction | reflexivity].
    - intros e He. unfold exact_key. now rewrite (proj1 (Hempty e He)). }
  assert (Hbuckets : buckets_of (basis_of 0) E = [(repeat 1 N_PROJ, E)]).
  { unfold buckets_of.
    rewrite (map_const_key E (fun e => sign_signature (e_raw e) (basis_of 0))
                           (fun e => e) (repeat 1 N_PROJ)).
    - rewrite group_const by reflexivity. rewrite map_id.
      destruct E; [contradiction | reflexivity].
    - intros e He. rewrite (proj2 (Hempty e He)). apply empty_signature. }
  assert (Hcos : forall x y, In x E -> In y E -> cosine (e_raw x) (e_raw y) = 0%float).
  { intros x y Hx' Hy'. rewrite (proj2 (Hempty x Hx')), (proj2 (Hempty y Hy')).
    apply empty_cosine. }
  exists st, (report_of (List.length files) s), E.
  split; [assumption |]. split; [apply main_report |].
  split; [now rewrite Hdims |]. split.
  { unfold E, accepted_under. apply flat_map_ext. intros gp. rewrite accept_zero.
    now destruct (_ && _). }
  split; [exact HE0 |]. split.
  { intros gp _ Hne. rewrite accept_zero.
    destruct (items (g_vec (fst gp))); [now elim Hne |]. simpl. now rewrite andb_false_r. }
  rewrite Hx, Hb. unfold run_buckets. rewrite Hbasis, Hacc. fold E.
  split; [exact Hexact |]. split; [exact Hbuckets |].
  unfold report_of. cbn [scanned clusters near_clones]. rewrite Hacc. fold E.
  split; [reflexivity |]. split.
  { rewrite Hexact. unfold exact_clusters. cbn [filter snd map].
    rewrite length_map. now destruct (1 <? List.length E)%nat. }
  split.
  { intros x y Hx' Hy'. rewrite cos_cosine. now rewrite Hcos. }
  split; [reflexivity |].
  unfold run_buckets. rewrite Hbasis, Hacc. fold E. rewrite Hbuckets.
  unfold reported. rewrite filter_none; [reflexivity |].
  intros [pre pr] Hocc. apply occurrences_In in Hocc. destruct Hocc as [post Hc].
  assert (Hin : In pr (bucket_pairs E)).
  { unfold candidates in Hc. cbn [flat_map snd] in Hc. rewrite app_nil_r in Hc.
    rewrite Hc. apply in_or_app. right. now left. }
  apply bucket_pairs_members in Hin. destruct Hin as [H1 H2].
  unfold qualifies. cbn [fst snd]. rewrite (Hcos _ _ H1 H2), zero_below_threshold.
  apply andb_false_r.
Qed.

(** An empty vector, a vector of two numbers, an empty vector. *)
Lemma empty_vector_first_witness :
  exists st r,
    ingest_all init Ex.empty_first = Ok st /\ main Ex.empty_first = Ok r
    /\ dims st = Some 0%nat /\ scanned r = 2%nat
    /\ clusters r = [[("p", "f"); ("r", "f")]]%string /\ near_clones r = [].
Proof.
  destruct (empty_vector_first Ex.empty_first (Ex.rec "p" (PyList [])) "f"%string
                               eq_refl eq_refl)
    as (st & r & E & H1 & H2 & H3 & HE & _ & _ & _ & _ & H4 & H5 & _ & _ & H6).
  exists st, r. subst E. repeat split; assumption.
Defined.

(** ** The end-to-end scenario *)

Lemma three_up_decoded :
  float_of_string "3.0000000000000004" = Some Ex.three_up.
Proof. vm_compute. reflexivity. Qed.

Lemma three_up_text : format_g 17 Ex.three_up = "3.0000000000000004"%string.
Proof. vm_compute. reflexivity. Qed.

Lemma three_text : format_g 17 3%float = "3"%string.
Proof. vm_compute. reflexivity. Qed.

(** C1 fails as stated: the run over the scenario prints one exact cluster
    that holds [a] and [b], and [c] is in no cluster; the hashes of the
    rounded vectors differ. *)
Lemma scenario_cluster_without_c :
  exists st r,
    ingest_all init Ex.scenario = Ok st /\ main Ex.scenario = Ok r
    /\ clusters r = [[("a", "f1.json"); ("b", "f1.json")]]%string
    /\ ~ (exists cl src, In cl (clusters r) /\ In ("c"%string, src) cl)
    /\ map fst (exact_index st)
       = ["07554f8f9b9f49edf6c13b5a535f88a50923704169d15ec18d6772ee0d412565";
          "5637ca02f121c87d3c11b33e0fdd1f2a309af95958747eb62db401ef1736ffb1"]%string.
Proof.
  eexists. eexists. split; [vm_compute; reflexivity |].
  split; [vm_compute; reflexivity |]. split; [reflexivity |]. split; [| reflexivity].
  cbn [clusters]. intros (cl & src & [<- | []] & [E | [E | []]]); discriminate.
Qed.

(** C1, amended: whatever the two files are called and wherever the three
    records are cut between them, the run counts three records and prints
    one exact cluster, made of [a] and [b]; [c] is in none: its third
    element, the float after 3, is written with 17 significant digits as
    3.0000000000000004 and read back unchanged, so that rounding leaves the
    three vectors as they are and the hash of [c] is not that of [a] and [b]. *)
Theorem scenario_clusters (p1 p2 : string) (k : nat) :
  exists r,
    main [(p1, firstn k [Ex.a; Ex.b; Ex.c]); (p2, skipn k [Ex.a; Ex.b; Ex.c])] = Ok r
    /\ scanned r = 3%nat
    /\ (exists sa sb, clusters r = [[("a"%string, sa); ("b"%string, sb)]])
    /\ round_vec [1; 2; 3]%float PREC = Ok [1; 2; 3]%float
    /\ round_vec [1; 2; Ex.three_up]%float PREC = Ok [1; 2; Ex.three_up]%float
    /\ format_g 17 3%float = "3"%string
    /\ format_g 17 Ex.three_up = "3.0000000000000004"%string
    /\ hash_vec [1; 2; 3]%float <> hash_vec [1; 2; Ex.three_up]%float.
Proof.
  eexists. split; [apply main_report |].
  split; [| split; [| split; [| split; [| split; [| split]]]]].
  - destruct k as [| [| [| [| k]]]]; vm_compute; reflexivity.
  - destruct k as [| [| [| [| k]]]]; vm_compute; eexists; eexists; reflexivity.
  - vm_compute. reflexivity.
  - vm_compute. reflexivity.
  - apply three_text.
  - apply three_up_text.
  - vm_compute. discriminate.
Qed.

(** ** Two runs of the scan *)

(** Two vectors of cosine above the threshold and of different signatures
    are in two buckets: no near-clone is printed. *)
Lemma pair_across_buckets_missed :
  float_of_string "1.0001" = Some Ex.near_one
  /\ (exists c, cos [1; Ex.near_one]%float [Ex.near_one; 1]%float = Ok c
                /\ F64.ge c NEAR_THRESH = true)
  /\ sign_signature [1; Ex.near_one]%float (basis_of 2)
     <> sign_signature [Ex.near_one; 1]%float (basis_of 2)
  /\ exists r, main Ex.across_hyperplane = Ok r
               /\ scanned r = 2%nat /\ near_clones r = [].
Proof.
  split; [vm_compute; reflexivity |]. split; [| split].
  - eexists. split; vm_compute; reflexivity.
  - vm_compute. discriminate.
  - eexists. split; [vm_compute; reflexivity |]. vm_compute. auto.
Qed.

(** The pair [(p, q)] of the first file is below the threshold; the pair of
    [p] with the [q] of the second file has cosine 1 and the same ids: it is
    not printed. *)
Lemma later_pair_hidden :
  cos [10; 1]%float [10; 2]%float = Ok 0x1.fd8e97dedf8ddp-1%float
  /\ F64.ge 0x1.fd8e97dedf8ddp-1%float NEAR_THRESH = false
  /\ cos [10; 1]%float [10; 1]%float = Ok 1%float
  /\ exists st r,
       ingest_all init Ex.two_sources = Ok st /\ main Ex.two_sources = Ok r
       /\ map (fun kl => map (fun e => (e_id e, e_src e)) (snd kl)) (sig_buckets st)
          = [[("p", "f1"); ("q", "f1"); ("q", "f2")]]%string
       /\ near_clones r = [].
Proof.
  split; [vm_compute; reflexivity |]. split; [reflexivity |].
  split; [vm_compute; reflexivity |].
  eexists. eexists. split; [vm_compute; reflexivity |].
  split; [vm_compute; reflexivity |]. split; reflexivity.
Qed.

(** ** Two runs over the same records *)

Lemma filter_permutation {A : Type} (keep : A -> bool) (l1 l2 : list A)
      (H12 : Permutation l1 l2) :
  Permutation (filter keep l1) (filter keep l2).
Proof.
  rename keep into f.
  induction H12 as [| x l l' H IH | x y l | l l' l'' H1 IH1 H2 IH2]; simpl.
  - constructor.
  - destruct (f x); [now constructor | assumption].
  - destruct (f x), (f y); try apply Permutation_refl. apply perm_swap.
  - now transitivity (filter f l').
Qed.

Lemma find_permutation {A : Type} (f : A -> bool) (l l' : list A) :
  Permutation l l' ->
  match find f l, find f l' with
  | Some x, Some x' => In x l /\ In x' l /\ f x = true /\ f x' = true
  | None, None => True
  | _, _ => False
  end.
Proof.
  intros HP.
  destruct (find f l) as [x |] eqn:E1, (find f l') as [x' |] eqn:E2.
  - apply find_some in E1, E2. destruct E1 as [H1 H2], E2 as [H3 H4].
    repeat split; auto. now apply (Permutation_in _ (Permutation_sym HP)).
  - apply find_some in E1. destruct E1 as [H1 H2].
    rewrite (find_none f l' E2 x (Permutation_in _ HP H1)) in H2. discriminate.
  - apply find_some in E2. destruct E2 as [H1 H2].
    rewrite (find_none f l E1 x' (Permutation_in _ (Permutation_sym HP) H1)) in H2.
    discriminate.
  - exact I.
Qed.

Lemma first_dims_permutation (s s' : list (glyph * string)) :
  Permutation s s' -> uniform s -> first_dims s = first_dims s'.
Proof.
  intros HP Hu. unfold first_dims.
  pose proof (find_permutation (fun gp => eligible (fst gp)) s s' HP) as H.
  destruct (find _ s) as [gp |], (find _ s') as [gp' |]; try contradiction; [| reflexivity].
  destruct H as (H1 & H2 & H3 & H4). f_equal. now apply Hu.
Qed.

Lemma accepted_permutation (s s' : list (glyph * string)) :
  Permutation s s' -> uniform s -> Permutation (accepted s) (accepted s').
Proof.
  intros HP Hu. unfold accepted. rewrite <- (first_dims_permutation s s' HP Hu).
  destruct (first_dims s); [| constructor].
  unfold accepted_under. now apply Permutation_flat_map.
Qed.

Lemma run_basis_permutation (s s' : list (glyph * string)) :
  Permutation s s' -> uniform s -> run_basis s = run_basis s'.
Proof.
  intros HP Hu. unfold run_basis. now rewrite (first_dims_permutation s s' HP Hu).
Qed.

(** *** Exact clusters *)

Lemma select_permutation {K V : Type} (eqb : K -> K -> bool) (k : K) (kvs kvs' : list (K * V)) :
  Permutation kvs kvs' -> Permutation (select eqb k kvs) (select eqb k kvs').
Proof.
  intros HP. unfold select. apply Permutation_map. now apply filter_permutation.
Qed.

Lemma exact_clusters_In (acc : list entry) (c : list member) :
  In c (exact_clusters (exact_of acc))
  <-> exists h, c = select String.eqb h (map (fun e => (exact_key e, member_of e)) acc)
                /\ In h (map exact_key acc)
                /\ (1 < List.length c)%nat.
Proof.
  unfold exact_clusters, exact_of. rewrite in_map_iff. split.
  - intros ([h c'] & <- & Hin). apply filter_In in Hin. destruct Hin as [Hin Hlen].
    apply (group_spec String.eqb string_eqb_eq) in Hin. destruct Hin as [-> Hk].
    rewrite map_map in Hk. cbn [fst snd] in *. exists h.
    split; [reflexivity |]. split; [assumption |]. now apply Nat.ltb_lt.
  - intros (h & -> & Hk & Hlen). eexists (h, _). split; [reflexivity |].
    apply filter_In. split.
    + apply (group_spec String.eqb string_eqb_eq). split; [reflexivity |].
      rewrite map_map. exact Hk.
    + now apply Nat.ltb_lt.
Qed.

Lemma clusters_permutation (acc acc' : list entry) :
  Permutation acc acc' ->
  forall c, In c (exact_clusters (exact_of acc)) ->
            exists c', In c' (exact_clusters (exact_of acc')) /\ Permutation c c'.
Proof.
  intros HP c Hc. apply exact_clusters_In in Hc. destruct Hc as (h & -> & Hk & Hlen).
  set (kvs := map (fun e => (exact_key e, member_of e)) acc) in *.
  set (kvs' := map (fun e => (exact_key e, member_of e)) acc').
  assert (HPk : Permutation kvs kvs') by now apply Permutation_map.
  pose proof (select_permutation String.eqb h kvs kvs' HPk) as HPs.
  exists (select String.eqb h kvs'). split; [| assumption].
  apply exact_clusters_In. exists h. split; [reflexivity |]. split.
  - apply (Permutation_in _ (Permutation_map exact_key HP)). assumption.
  - now rewrite <- (Permutation_length HPs).
Qed.

(** *** The cosine is symmetric *)

Lemma zip_products_comm (a b : list float) :
  map (fun xy => (fst xy * snd xy)%float) (zip a b)
  = map (fun xy => (fst xy * snd xy)%float) (zip b a).
Proof.
  revert b. induction a as [| x a IH]; intros [| y b]; simpl; try reflexivity.
  now rewrite IH, mul_comm.
Qed.

Lemma dot_comm (a b : list float) : dot a b = dot b a.
Proof. unfold dot. now rewrite zip_products_comm. Qed.

Lemma cosine_comm (a b : list float) : cosine a b = cosine b a.
Proof. unfold cosine. now rewrite dot_comm, mul_comm. Qed.

(** *** Lists without repeated ids *)

Lemma NoDup_map_injective {A B : Type} (f : A -> B) (l : list A) (x y : A) :
  NoDup (map f l) -> In x l -> In y l -> f x = f y -> x = y.
Proof.
  induction l as [| z l IH]; simpl; intros Hnd Hx Hy E; [contradiction |].
  inversion Hnd as [| ? ? Hz Hl]; subst.
  destruct Hx as [-> | Hx], Hy as [-> | Hy]; auto.
  - elim Hz. rewrite E. now apply in_map.
  - elim Hz. rewrite <- E. now apply in_map.
Qed.

Lemma NoDup_map_filter {A B : Type} (f : A -> B) (g : A -> bool) (l : list A)
      (Hnd : NoDup (map f l)) :
  NoDup (map f (filter g l)).
Proof.
  revert Hnd. induction l as [| z l IH]; simpl; intros Hnd; [constructor |].
  inversion Hnd as [| ? ? Hz Hl]; subst.
  destruct (g z); simpl; [| now apply IH].
  constructor; [| now apply IH].
  intros Hin. apply Hz. apply in_map_iff in Hin. destruct Hin as (w & E & Hw).
  apply filter_In in Hw. apply in_map_iff. exists w. tauto.
Qed.

Lemma bucket_pairs_keys (l : list entry) :
  NoDup (map e_id l) -> NoDup (map pair_key (bucket_pairs l)).
Proof.
  induction l as [| e l IH]; cbn [bucket_pairs map]; intros Hnd; [constructor |].
  inversion Hnd as [| ? ? He Hl]; subst.
  rewrite map_app, map_map. unfold pair_key at 1. cbn [fst snd].
  assert (Hfirst : NoDup (map (fun y => (e_id e, e_id y)) l)).
  { clear - Hl. induction l as [| y l IH]; simpl; [constructor |].
    inversion Hl as [| ? ? Hy Hl']; subst. constructor; [| now apply IH].
    intros Hin. apply Hy. apply in_map_iff in Hin. destruct Hin as (w & E & Hw).
    injection E as E. rewrite <- E. now apply in_map. }
  assert (Hdisj : forall k, In k (map (fun y => (e_id e, e_id y)) l) ->
                            ~ In k (map pair_key (bucket_pairs l))).
  { intros k H1 H2. apply in_map_iff in H1. destruct H1 as (y & <- & _).
    apply in_map_iff in H2. destruct H2 as (p & E & Hp).
    apply bucket_pairs_members in Hp. destruct Hp as [Hp _].
    unfold pair_key in E. injection E as E _. apply He. rewrite <- E. now apply in_map. }
  revert Hfirst Hdisj. generalize (map (fun y => (e_id e, e_id y)) l).
  intros ks Hks Hdisj. induction ks as [| k ks IHk]; simpl; [now apply IH |].
  inversion Hks as [| ? ? Hk Hks']; subst. constructor.
  - rewrite in_app_iff. intros [H | H]; [contradiction |].
    apply (Hdisj k); [now left | assumption].
  - apply IHk; [assumption |]. intros k' Hk'. apply Hdisj. now right.
Qed.

(** *** Buckets as parts of the accepted entries *)

Lemma select_map_self {K A : Type} (eqb : K -> K -> bool) (g : A -> K) (k : K) (l : list A) :
  select eqb k (map (fun e => (g e, e)) l) = filter (fun e => eqb (g e) k) l.
Proof.
  unfold select. induction l as [| e l IH]; simpl; [reflexivity |].
  destruct (eqb (g e) k); simpl; now rewrite IH.
Qed.

Lemma buckets_of_In (basis : list (list float)) (acc : list entry) (k : list Z) (l : list entry) :
  In (k, l) (buckets_of basis acc)
  <-> l = filter (fun e => sig_eqb (sign_signature (e_raw e) basis) k) acc
      /\ In k (map (fun e => sign_signature (e_raw e) basis) acc).
Proof.
  unfold buckets_of.
  destruct (group_spec sig_eqb sig_eqb_eq
              (map (fun e => (sign_signature (e_raw e) basis, e)) acc)) as [_ H].
  rewrite H. now rewrite select_map_self, map_map.
Qed.

Lemma buckets_of_NoDup (basis : list (list float)) (acc : list entry) :
  NoDup (map fst (buckets_of basis acc)).
Proof. apply (group_spec sig_eqb sig_eqb_eq). Qed.

Lemma candidates_keys (basis : list (list float)) (acc : list entry) :
  NoDup (map e_id acc) ->
  NoDup (map pair_key (candidates (buckets_of basis acc))).
Proof.
  intros Hnd.
  pose proof (buckets_of_NoDup basis acc) as Hkeys.
  assert (Hall : forall k l, In (k, l) (buckets_of basis acc) ->
                   l = filter (fun e => sig_eqb (sign_signature (e_raw e) basis) k) acc).
  { intros k l H. now apply buckets_of_In in H. }
  revert Hkeys Hall. generalize (buckets_of basis acc). intros buckets.
  induction buckets as [| [k l] buckets IH]; intros Hkeys Hall;
    unfold candidates; cbn [flat_map map snd]; [constructor |].
  fold (candidates buckets). inversion Hkeys as [| ? ? Hk Hks]; subst.
  rewrite map_app.
  assert (Hl : NoDup (map pair_key (bucket_pairs l))).
  { apply bucket_pairs_keys. rewrite (Hall k l (or_introl eq_refl)).
    now apply NoDup_map_filter. }
  assert (Hrest : NoDup (map pair_key (candidates buckets))).
  { apply IH; [assumption |]. intros k' l' H. apply Hall. now right. }
  assert (Hdisj : forall key, In key (map pair_key (bucket_pairs l)) ->
                              ~ In key (map pair_key (candidates buckets))).
  { intros key H1 H2. apply in_map_iff in H1. destruct H1 as (p1 & <- & H1).
    apply in_map_iff in H2. destruct H2 as (p2 & E & H2).
    apply bucket_pairs_members in H1. destruct H1 as [H1 _].
    apply candidates_In in H2. destruct H2 as (k' & l' & Hkl' & H2).
    apply bucket_pairs_members in H2. destruct H2 as [H2 _].
    rewrite (Hall k l (or_introl eq_refl)) in H1. apply filter_In in H1.
    rewrite (Hall k' l' (or_intror Hkl')) in H2. apply filter_In in H2.
    destruct H1 as [H1 S1], H2 as [H2 S2].
    unfold pair_key in E. injection E as E _.
    assert (Efst : fst p2 = fst p1) by now apply (NoDup_map_injective e_id acc).
    rewrite Efst in S2. apply sig_eqb_eq in S1, S2.
    apply Hk. simpl. apply in_map_iff. exists (k', l'). split; [| assumption].
    simpl. congruence. }
  revert Hl Hdisj. generalize (map pair_key (bucket_pairs l)).
  intros ks Hks' Hdisj. induction ks as [| key ks IHk]; simpl; [assumption |].
  inversion Hks' as [| ? ? Hkey Hks'']; subst. constructor.
  - rewrite in_app_iff. intros [H | H]; [contradiction |].
    apply (Hdisj key); [now left | assumption].
  - apply IHk; [assumption |]. intros k' Hk'. apply Hdisj. now right.
Qed.

(** With no repeated key every pair is seen for the first time. *)
Lemma reported_In (cands : list (entry * entry)) (n : near) :
  NoDup (map pair_key cands) ->
  In n (reported cands)
  <-> exists p, In p cands
                /\ F64.ge (cosine (e_raw (fst p)) (e_raw (snd p))) NEAR_THRESH = true
                /\ n = near_of p.
Proof.
  intros Hnd. unfold reported. rewrite in_map_iff. split.
  - intros ([pre p] & <- & Hin). apply reported_at in Hin.
    destruct Hin as ([post E] & _ & Hge). exists p. cbn [snd].
    split; [| auto]. rewrite E. apply in_or_app. right. now left.
  - intros (p & Hin & Hge & ->). apply in_split in Hin. destruct Hin as (pre & post & E).
    exists (pre, p). split; [reflexivity |]. apply reported_at.
    split; [now exists post |]. split; [| assumption].
    rewrite E, map_app in Hnd. cbn [map] in Hnd. apply NoDup_remove_2 in Hnd.
    intros Hin. apply Hnd. apply in_or_app. now left.
Qed.

Lemma bucket_pairs_either (l : list entry) (x y : entry) :
  In x l -> In y l -> x <> y ->
  In (x, y) (bucket_pairs l) \/ In (y, x) (bucket_pairs l).
Proof.
  induction l as [| e l IH]; cbn [bucket_pairs]; intros Hx Hy Hne; [contradiction |].
  rewrite !in_app_iff.
  destruct Hx as [-> | Hx], Hy as [-> | Hy].
  - now elim Hne.
  - left. left. now apply in_map.
  - right. left. now apply in_map.
  - destruct (IH Hx Hy Hne); auto.
Qed.

Lemma bucket_pairs_distinct (l : list entry) (x y : entry) :
  NoDup l -> In (x, y) (bucket_pairs l) -> x <> y.
Proof.
  intros Hnd Hin. apply bucket_pairs_In in Hin. destruct Hin as (l1 & l2 & l3 & ->).
  intros <-. apply NoDup_remove_2 in Hnd. apply Hnd.
  apply in_or_app. right. apply in_or_app. right. now left.
Qed.

(** A near-clone of one run is a near-clone of the other, its ends
    possibly exchanged. *)
Lemma reported_permutation (basis : list (list float)) (acc acc' : list entry) :
  Permutation acc acc' ->
  NoDup (map e_id acc) ->
  forall n, In n (reported (candidates (buckets_of basis acc))) ->
            exists n', In n' (reported (candidates (buckets_of basis acc')))
                       /\ same_pair n n'.
Proof.
  intros HP Hnd n Hn.
  assert (Hnd' : NoDup (map e_id acc')).
  { apply (Permutation_NoDup (Permutation_map e_id HP)). assumption. }
  assert (Hacc : NoDup acc) by (apply (NoDup_map_inv e_id); assumption).
  apply (reported_In _ n (candidates_keys basis acc Hnd)) in Hn.
  destruct Hn as ([x y] & Hin & Hge & ->). cbn [fst snd] in Hge.
  apply candidates_In in Hin. destruct Hin as (k & l & Hkl & Hp).
  apply buckets_of_In in Hkl. destruct Hkl as [El Hk].
  set (f := fun e => sig_eqb (sign_signature (e_raw e) basis) k) in *.
  assert (Hne : x <> y).
  { apply (bucket_pairs_distinct l); [| assumption]. rewrite El. now apply NoDup_filter. }
  apply bucket_pairs_members in Hp. cbn [fst snd] in Hp. destruct Hp as [Hx Hy].
  assert (HPl : Permutation l (filter f acc')).
  { rewrite El. now apply filter_permutation. }
  assert (Hkl' : In (k, filter f acc') (buckets_of basis acc')).
  { apply buckets_of_In. split; [reflexivity |].
    apply (Permutation_in _ (Permutation_map _ HP)). assumption. }
  destruct (bucket_pairs_either (filter f acc') x y
              (Permutation_in _ HPl Hx) (Permutation_in _ HPl Hy) Hne) as [H | H].
  - exists (near_of (x, y)). split.
    + apply (reported_In _ _ (candidates_keys basis acc' Hnd')). exists (x, y).
      split; [| auto]. apply candidates_In. now exists k, (filter f acc').
    + split; [reflexivity |]. left. auto.
  - exists (near_of (y, x)). split.
    + apply (reported_In _ _ (candidates_keys basis acc' Hnd')). exists (y, x).
      split; [| cbn [fst snd]; rewrite cosine_comm; auto].
      apply candidates_In. now exists k, (filter f acc').
    + split; [cbn [near_of n_cos fst snd]; apply cosine_comm |]. right. auto.
Qed.

Lemma same_pair_sym (n n' : near) : same_pair n n' -> same_pair n' n.
Proof. unfold same_pair. intuition congruence. Qed.

(** C3 fails as stated, twice.  Records of two lengths: the first list met
    fixes the dimension, so the cluster printed is the one of the length
    that comes first.  Records of one length and one bucket with an id
    carried twice: the pair [(p, q)] printed in one order of the records is
    hidden in the other by an earlier pair of the same ids. *)
Lemma order_changes_results :
  Permutation (stream Ex.short_first) (stream Ex.long_first)
  /\ (exists r1 r2,
         main Ex.short_first = Ok r1 /\ main Ex.long_first = Ok r2
         /\ clusters r1 = [[("s1", "f"); ("s2", "f")]]%string
         /\ clusters r2 = [[("a", "f"); ("b", "f")]]%string)
  /\ Permutation (stream Ex.far_first) (stream Ex.same_first)
  /\ uniform (stream Ex.far_first)
  /\ (exists r1 r2,
         main Ex.far_first = Ok r1 /\ main Ex.same_first = Ok r2
         /\ near_clones r1 = []
         /\ map (fun n => (e_id (n_left n), e_raw (n_left n), e_id (n_right n), e_raw (n_right n)))
                (near_clones r2)
            = [("p"%string, [10; 1]%float, "q"%string, [10; 1]%float)]).
Proof.
  split; [| split; [| split; [| split]]].
  - cbn. change [(Ex.short1, "f"%string); (Ex.short2, "f"%string);
                 (Ex.a, "f"%string); (Ex.b, "f"%string)]
      with ([(Ex.short1, "f"%string); (Ex.short2, "f"%string)]
            ++ [(Ex.a, "f"%string); (Ex.b, "f"%string)]).
    apply Permutation_app_comm.
  - eexists. eexists. split; [vm_compute; reflexivity |].
    split; [vm_compute; reflexivity |]. split; reflexivity.
  - cbn. apply perm_skip. apply perm_swap.
  - intros gp gp' H H' _ _. cbn in H, H'.
    destruct H as [<- | [<- | [<- | []]]], H' as [<- | [<- | [<- | []]]]; reflexivity.
  - eexists. eexists. split; [vm_compute; reflexivity |].
    split; [vm_compute; reflexivity |]. split; reflexivity.
Qed.

(** C3, amended: two runs over the same records, each with its file, in any
    order, raise nothing; when all the records that have a non-empty id and
    a list carry lists of one length, the two runs print the same exact
    clusters, as sets of sets of members; when moreover no id is carried by
    two inserted records, they print the same near-clones, as sets of
    unordered pairs, with the same cosines. *)
Theorem run_order_independent (files1 files2 : list (string * list glyph)) :
  Permutation (stream files1) (stream files2) ->
  uniform (stream files1) ->
  exists r1 r2,
    main files1 = Ok r1 /\ main files2 = Ok r2
    /\ scanned r1 = scanned r2
    /\ same_clusters (clusters r1) (clusters r2)
    /\ (NoDup (map e_id (accepted (stream files1))) ->
        same_pairs (near_clones r1) (near_clones r2)).
Proof.
  intros HP Hu.
  pose proof (accepted_permutation _ _ HP Hu) as Hacc.
  pose proof (run_basis_permutation _ _ HP Hu) as Hbasis.
  exists (report_of (List.length files1) (stream files1)),
         (report_of (List.length files2) (stream files2)).
  split; [apply main_report |]. split; [apply main_report |].
  unfold report_of. cbn [scanned clusters near_clones].
  split; [now apply Permutation_length |]. split.
  - split; intros c Hc.
    + now apply (clusters_permutation _ _ Hacc).
    + destruct (clusters_permutation _ _ (Permutation_sym Hacc) c Hc) as (c' & H1 & H2).
      exists c'. split; [assumption | now apply Permutation_sym].
  - intros Hnd. unfold run_buckets. rewrite <- Hbasis.
    assert (Hnd' : NoDup (map e_id (accepted (stream files2)))).
    { apply (Permutation_NoDup (Permutation_map e_id Hacc)). assumption. }
    split; intros n Hn.
    + now apply (reported_permutation _ _ _ Hacc).
    + destruct (reported_permutation _ _ _ (Permutation_sym Hacc) Hnd' n Hn) as (n' & H1 & H2).
      exists n'. split; [assumption | now apply same_pair_sym].
Qed.

(** The scenario read in two orders. *)
Lemma run_order_independent_witness :
  Permutation (stream [("f"%string, [Ex.a; Ex.b; Ex.c])])
              (stream [("f"%string, [Ex.c; Ex.a; Ex.b])])
  /\ uniform (stream [("f"%string, [Ex.a; Ex.b; Ex.c])])
  /\ NoDup (map e_id (accepted (stream [("f"%string, [Ex.a; Ex.b; Ex.c])])))
  /\ exists r1 r2,
       main [("f"%string, [Ex.a; Ex.b; Ex.c])] = Ok r1
       /\ main [("f"%string, [Ex.c; Ex.a; Ex.b])] = Ok r2
       /\ same_clusters (clusters r1) (clusters r2)
       /\ same_pairs (near_clones r1) (near_clones r2).
Proof.
  assert (HP : Permutation (stream [("f"%string, [Ex.a; Ex.b; Ex.c])])
                           (stream [("f"%string, [Ex.c; Ex.a; Ex.b])])).
  { cbn. apply Permutation_sym.
    apply (perm_trans (perm_swap _ _ _)). apply perm_skip. apply perm_swap. }
  assert (Hu : uniform (stream [("f"%string, [Ex.a; Ex.b; Ex.c])])).
  { intros gp gp' H H' _ _. cbn in H, H'.
    destruct H as [<- | [<- | [<- | []]]], H' as [<- | [<- | [<- | []]]]; reflexivity. }
  assert (Hnd : NoDup (map e_id (accepted (stream [("f"%string, [Ex.a; Ex.b; Ex.c])])))).
  { vm_compute. repeat constructor; simpl; intuition discriminate. }
  split; [exact HP |]. split; [exact Hu |]. split; [exact Hnd |].
  destruct (run_order_independent _ _ HP Hu) as (r1 & r2 & H1 & H2 & _ & H3 & H4).
  exists r1, r2. auto.
Defined.

(** * Further properties *)

(** ** Vectors with a NaN, an infinity, or nothing but zeros *)

Lemma Prim2SF_threshold : Prim2SF NEAR_THRESH = S754_finite false 9002695655113622 (-53).
Proof. reflexivity. Qed.

Lemma null_below_threshold (c : float) : sf_null (Prim2SF c) -> F64.ge c NEAR_THRESH = false.
Proof.
  unfold F64.ge. rewrite leb_spec, Prim2SF_threshold. unfold SFleb.
  destruct (Prim2SF c) as [s | s | | s m e]; simpl; tauto.
Qed.

Lemma SFadd_top_l (acc t : spec_float) :
  sf_top acc -> plus_signed t -> sf_top (SF64add acc t).
Proof.
  destruct acc as [sa | sa | | sa ma ea], t as [st | st | | st mt et]; simpl;
    try tauto; destruct sa; simpl; try tauto; intros _ ->; exact I.
Qed.

Lemma SFadd_top_r (acc t : spec_float) :
  not_negative acc -> sf_top t -> sf_top (SF64add acc t).
Proof.
  destruct acc as [sa | sa | | sa ma ea], t as [st | st | | st mt et]; simpl;
    try tauto; destruct st; simpl; try tauto; destruct sa; simpl; tauto.
Qed.

Lemma SFmul_self_top (x : float) : non_finite x = true -> sf_top (SF64mul (Prim2SF x) (Prim2SF x)).
Proof.
  unfold non_finite. destruct (Prim2SF x) as [s | s | | s m e]; simpl; try discriminate.
  - now rewrite xorb_nilpotent.
  - tauto.
Qed.

Lemma fold_squares_top (v : list float) (acc : float) :
  sf_top (Prim2SF acc) -> sf_top (Prim2SF (fold_left PrimFloat.add (squares v) acc)).
Proof.
  revert acc. induction v as [| x v IH]; intros acc Hacc; simpl; [assumption |].
  apply IH. rewrite add_spec, mul_spec. apply SFadd_top_l; [assumption | apply SFmul_self_plus].
Qed.

Lemma fold_squares_non_finite (v : list float) (acc : float) :
  not_negative (Prim2SF acc) -> existsb non_finite v = true ->
  sf_top (Prim2SF (fold_left PrimFloat.add (squares v) acc)).
Proof.
  revert acc. induction v as [| x v IH]; intros acc Hacc Hv; simpl in *; [discriminate |].
  destruct (non_finite x) eqn:Hx.
  - apply fold_squares_top. rewrite add_spec, mul_spec.
    apply SFadd_top_r; [assumption | now apply SFmul_self_top].
  - apply IH; [| assumption]. rewrite add_spec, mul_spec.
    apply SFadd_not_negative; [assumption | apply SFmul_self_plus].
Qed.

Lemma norm_non_finite (v : list float) :
  existsb non_finite v = true ->
  exists n, norm v = Ok n /\ sf_top (Prim2SF n).
Proof.
  intros Hv. rewrite norm_value. eexists. split; [reflexivity |].
  pose proof (fold_squares_non_finite v 0%float) as H. rewrite Prim2SF_zero in H.
  specialize (H I Hv). fold (sum (squares v)) in H.
  unfold or_one, F64.truthy. rewrite FloatAxioms.eqb_spec, Prim2SF_zero, sqrt_spec.
  destruct (Prim2SF (sum (squares v))) as [s | s | | s m e] eqn:E; simpl in H; try tauto.
  - destruct s; [tauto |]. simpl. rewrite sqrt_spec, E. exact I.
  - simpl. rewrite sqrt_spec, E. exact I.
Qed.

Lemma SFmul_unbounded (x y : spec_float) :
  (sf_top x /\ big (-536) y) \/ (big (-536) x /\ sf_top y) ->
  sf_unbounded (SF64mul x y).
Proof.
  destruct x as [sx | sx | | sx mx ex], y as [sy | sy | | sy my ey]; simpl;
    try tauto; try (destruct sx; simpl; tauto); try (destruct sy; simpl; tauto).
Qed.

Lemma SFdiv_unbounded (x y : spec_float) : sf_unbounded y -> sf_null (SF64div x y).
Proof.
  destruct x as [sx | sx | | sx mx ex], y as [sy | sy | | sy my ey]; simpl; tauto.
Qed.

(** The cosine with a vector that holds a NaN or an infinity. *)
Lemma cosine_non_finite (a b : list float) :
  existsb non_finite a = true ->
  sf_null (Prim2SF (cosine a b)) /\ sf_null (Prim2SF (cosine b a)).
Proof.
  intros Ha.
  destruct (norm_non_finite a Ha) as (na & Hna & Htop).
  destruct (norm_big b) as (nb & Hnb & Hbig).
  rewrite norm_value in Hna, Hnb. injection Hna as Hna. injection Hnb as Hnb.
  unfold cosine. rewrite Hna, Hnb. rewrite !div_spec, !mul_spec.
  split; apply SFdiv_unbounded, SFmul_unbounded; auto.
Qed.

Lemma SFmul_null (x y : spec_float) :
  (exists s, x = S754_zero s) -> sf_null (SF64mul x y).
Proof. intros [s ->]. destruct y; simpl; exact I. Qed.

Lemma SFadd_null (x y : spec_float) : sf_null x -> sf_null y -> sf_null (SF64add x y).
Proof.
  destruct x as [sx | sx | | sx mx ex], y as [sy | sy | | sy my ey]; simpl; try tauto.
  destruct sx, sy; simpl; tauto.
Qed.

Lemma dot_zero_vector (z b : list float) :
  forallb is_zero z = true -> sf_null (Prim2SF (dot z b)).
Proof.
  intros Hz. unfold dot, sum.
  assert (H : forall acc, sf_null (Prim2SF acc) ->
                sf_null (Prim2SF (fold_left PrimFloat.add
                                    (map (fun xy => (fst xy * snd xy)%float) (zip z b)) acc))).
  { revert b. induction z as [| x z IH]; intros b acc Hacc; [exact Hacc |].
    simpl in Hz. apply andb_prop in Hz. destruct Hz as [Hx Hz].
    destruct b as [| y b]; [exact Hacc |]. simpl.
    apply (IH Hz). rewrite add_spec, mul_spec. apply SFadd_null; [assumption |].
    apply SFmul_null. now apply eqb_zero_inv. }
  apply H. rewrite Prim2SF_zero. exact I.
Qed.

Lemma SFdiv_null (x y : spec_float) : sf_null x -> big (-1073) y -> sf_null (SF64div x y).
Proof.
  destruct x as [sx | sx | | sx mx ex], y as [sy | sy | | sy my ey]; simpl; tauto.
Qed.

(** The cosine with a vector of zeros. *)
Lemma cosine_zero_vector (z b : list float) :
  forallb is_zero z = true ->
  sf_null (Prim2SF (cosine z b)) /\ sf_null (Prim2SF (cosine b z)).
Proof.
  intros Hz.
  assert (Hd : sf_null (Prim2SF (dot z b))) by now apply dot_zero_vector.
  destruct (norm_big z) as (nz & Hnz & Hbz), (norm_big b) as (nb & Hnb & Hbb).
  rewrite norm_value in Hnz, Hnb. injection Hnz as Hnz. injection Hnb as Hnb.
  unfold cosine. rewrite (dot_comm b z), Hnz, Hnb, !div_spec, !mul_spec.
  split; (apply SFdiv_null; [assumption | now apply SFmul_big]).
Qed.

Lemma reported_qualifies (cands : list (entry * entry)) (n : near) :
  In n (reported cands) ->
  F64.ge (cosine (e_raw (n_left n)) (e_raw (n_right n))) NEAR_THRESH = true.
Proof.
  unfold reported. rewrite in_map_iff. intros ([pre p] & <- & Hin).
  apply reported_at in Hin. cbn [snd near_of n_left n_right]. tauto.
Qed.

(** X1: the cosine is symmetric, and so is the dot product: the scan
    compares the two entries of a pair in one order only and loses nothing
    by it. *)
Theorem cos_symmetric (a b : list float) :
  dot a b = dot b a /\ cos a b = cos b a.
Proof.
  split; [apply dot_comm |]. now rewrite !cos_cosine, cosine_comm.
Qed.

(** X2: a norm is a positive number, plus infinity or NaN: never zero,
    never negative, and [norm] raises nothing. *)
Theorem norm_positive (v : list float) :
  exists n, norm v = Ok n
            /\ (PrimFloat.ltb 0 n = true \/ Prim2SF n = S754_nan)
            /\ PrimFloat.eqb n 0 = false.
Proof.
  rewrite norm_value. eexists. split; [reflexivity |].
  pose proof (or_one_sqrt_big _ (sum_squares_not_negative v)) as Hbig.
  split; [| now apply (big_eqb_zero (-536))].
  rewrite ltb_spec, Prim2SF_zero. unfold or_one, F64.truthy in *.
  destruct (PrimFloat.eqb (PrimFloat.sqrt (sum (squares v))) 0); cbn [negb] in *.
  - left. reflexivity.
  - rewrite sqrt_spec in *.
    pose proof (sum_squares_not_negative v) as Hs.
    destruct (Prim2SF (sum (squares v))) as [s | s | | s m e]; simpl in *; try tauto.
    + destruct s; [tauto | now left].
    + destruct s; [tauto |].
      pose proof (binary_round_aux_sign false
                    (fst (fst (SFsqrt_core_binary prec emax (Z.pos m) e)))
                    (snd (fst (SFsqrt_core_binary prec emax (Z.pos m) e)))
                    (snd (SFsqrt_core_binary prec emax (Z.pos m) e))) as Hsign.
      unfold SF64sqrt, SFsqrt in *.
      destruct (SFsqrt_core_binary prec emax (Z.pos m) e) as [[mz ez] lz]. cbn [fst snd] in Hsign.
      destruct (binary_round_aux prec emax false mz ez lz) as [s' | s' | | s' m' e'];
        simpl in *; subst; try tauto; now left.
Qed.

(** X3: a vector that holds a NaN or an infinity has, with any vector and
    on either side, a cosine that is zero or NaN, below the threshold; no
    printed near-clone has such a vector at either end. *)
Theorem non_finite_never_near :
  (forall a b, existsb non_finite a = true ->
     exists c c', cos a b = Ok c /\ cos b a = Ok c'
                  /\ sf_null (Prim2SF c) /\ sf_null (Prim2SF c')
                  /\ F64.ge c NEAR_THRESH = false /\ F64.ge c' NEAR_THRESH = false)
  /\ (forall files, exists r,
        main files = Ok r
        /\ forall n, In n (near_clones r) ->
             existsb non_finite (e_raw (n_left n)) = false
             /\ existsb non_finite (e_raw (n_right n)) = false).
Proof.
  split.
  - intros a b Ha. exists (cosine a b), (cosine b a).
    destruct (cosine_non_finite a b Ha) as [H1 H2].
    rewrite !cos_cosine. repeat split; auto using null_below_threshold.
  - intros files. eexists. split; [apply main_report |].
    intros n Hn. unfold report_of in Hn. cbn [near_clones] in Hn.
    apply reported_qualifies in Hn.
    split.
    + destruct (existsb non_finite (e_raw (n_left n))) eqn:E; [| reflexivity].
      destruct (cosine_non_finite _ (e_raw (n_right n)) E) as [H _].
      rewrite (null_below_threshold _ H) in Hn. discriminate.
    + destruct (existsb non_finite (e_raw (n_right n))) eqn:E; [| reflexivity].
      destruct (cosine_non_finite _ (e_raw (n_left n)) E) as [_ H].
      rewrite (null_below_threshold _ H) in Hn. discriminate.
Qed.

(** X4: a vector of zeros has, with any vector and on either side, a
    cosine that is zero or NaN, below the threshold: the floor of the norm
    at 1.0 never makes a near-clone of it, and no printed near-clone has a
    vector of zeros at either end. *)
Theorem zero_vector_never_near :
  (forall z b, forallb is_zero z = true ->
     exists c c', cos z b = Ok c /\ cos b z = Ok c'
                  /\ sf_null (Prim2SF c) /\ sf_null (Prim2SF c')
                  /\ F64.ge c NEAR_THRESH = false /\ F64.ge c' NEAR_THRESH = false)
  /\ (forall files, exists r,
        main files = Ok r
        /\ forall n, In n (near_clones r) ->
             forallb is_zero (e_raw (n_left n)) = false
             /\ forallb is_zero (e_raw (n_right n)) = false).
Proof.
  split.
  - intros z b Hz. exists (cosine z b), (cosine b z).
    destruct (cosine_zero_vector z b Hz) as [H1 H2].
    rewrite !cos_cosine. repeat split; auto using null_below_threshold.
  - intros files. eexists. split; [apply main_report |].
    intros n Hn. unfold report_of in Hn. cbn [near_clones] in Hn.
    apply reported_qualifies in Hn.
    split.
    + destruct (forallb is_zero (e_raw (n_left n))) eqn:E; [| reflexivity].
      destruct (cosine_zero_vector _ (e_raw (n_right n)) E) as [H _].
      rewrite (null_below_threshold _ H) in Hn. discriminate.
    + destruct (forallb is_zero (e_raw (n_right n))) eqn:E; [| reflexivity].
      destruct (cosine_zero_vector _ (e_raw (n_left n)) E) as [_ H].
      rewrite (null_below_threshold _ H) in Hn. discriminate.
Qed.

(** ** Rounding and hashing of vectors *)

Lemma mapM_Forall2 {A B : Type} (f : A -> result B) (l : list A) (l' : list B) :
  mapM f l = Ok l' <-> Forall2 (fun x y => f x = Ok y) l l'.
Proof.
  revert l'. induction l as [| x l IH]; intros l'; simpl.
  - split; [intros E; injection E as <-; constructor | intros H; now inversion H].
  - destruct (f x) as [y | e] eqn:Ef; simpl.
    + destruct (mapM f l) as [ys | e] eqn:Em; simpl.
      * split.
        -- intros E. injection E as <-. constructor; [assumption | now apply IH].
        -- intros H. inversion H as [| ? y' ? ys' Hy Hys]; subst.
           apply IH in Hys. congruence.
      * split; [discriminate |].
        intros H. inversion H as [| ? y' ? ys' Hy Hys]; subst.
        apply IH in Hys. discriminate.
    + split; [discriminate |].
      intros H. inversion H as [| ? y' ? ys' Hy Hys]; subst. congruence.
Qed.

Lemma mapM_length {A B : Type} (f : A -> result B) (l : list A) (l' : list B) :
  mapM f l = Ok l' -> List.length l' = List.length l.
Proof.
  intros H. apply mapM_Forall2 in H. symmetry. eapply Forall2_length, H.
Qed.

Lemma mapM_nth {A B : Type} (f : A -> result B) (l : list A) (l' : list B) (i : nat) (x : A) :
  mapM f l = Ok l' -> nth_error l i = Some x ->
  exists y, nth_error l' i = Some y /\ f x = Ok y.
Proof.
  intros H. apply mapM_Forall2 in H. revert i.
  induction H as [| a b l l' Hab _ IH]; intros [| i] Hi; simpl in *; try discriminate.
  - injection Hi as ->. now exists b.
  - now apply IH.
Qed.

Lemma special_cases (x : float) :
  special x = true ->
  x = nan \/ x = infinity \/ x = neg_infinity \/ x = 0%float \/ x = (-0)%float.
Proof.
  unfold special, non_finite, is_zero. rewrite FloatAxioms.eqb_spec, Prim2SF_zero.
  intros H. rewrite <- (SF2Prim_Prim2SF x).
  destruct (Prim2SF x) as [s | s | | s m e]; try destruct s; simpl in H; try discriminate;
    auto 6.
Qed.

Lemma round_elt_special (p : nat) (x : float) :
  Z.of_nat p <= INT_MAX -> special x = true -> round_elt p x = Ok x.
Proof.
  intros Hp H. unfold round_elt, format_spec. rewrite (proj2 (Z.leb_le _ _) Hp). cbn [bind].
  destruct (special_cases x H) as [-> | [-> | [-> | [-> | ->]]]]; reflexivity.
Qed.

Lemma round_elt_too_big (p : nat) (x : float) :
  INT_MAX < Z.of_nat p -> round_elt p x = Raise ValueError.
Proof.
  intros Hp. unfold round_elt, format_spec.
  now rewrite (proj2 (Z.leb_gt _ _) Hp).
Qed.

(** X5: for every precision the formatter takes, up to 2^31 - 1,
    [round_vec] raises nothing for any vector; the result has as many
    elements as the vector, and NaN, the infinities and the zeros of both
    signs stay what they are, in their places.  For a larger precision the
    first element raises ValueError; only the empty vector, which formats
    nothing, still gives the empty result. *)
Theorem round_vec_shape (v : list float) (p : nat) :
  (Z.of_nat p <= INT_MAX ->
   exists w,
     round_vec v p = Ok w
     /\ List.length w = List.length v
     /\ (forall i x, nth_error v i = Some x -> special x = true -> nth_error w i = Some x))
  /\ (INT_MAX < Z.of_nat p -> v <> [] -> round_vec v p = Raise ValueError)
  /\ round_vec [] p = Ok [].
Proof.
  split; [| split; [| reflexivity]].
  - intros Hp. destruct (round_vec_total v p Hp) as [w Hw]. exists w. split; [assumption |].
    unfold round_vec in Hw. split; [eapply mapM_length, Hw |].
    intros i x Hi Hx. destruct (mapM_nth _ _ _ _ _ Hw Hi) as (y & Hy & Hr).
    rewrite (round_elt_special p x Hp Hx) in Hr. congruence.
  - intros Hp Hv. destruct v as [| x v]; [now elim Hv |].
    unfold round_vec. cbn [mapM]. now rewrite (round_elt_too_big p x Hp).
Qed.

Lemma be_bytes_shape (n : nat) (x : Z) :
  List.length (SHA256.be_bytes n x) = n
  /\ Forall (fun b => 0 <= b < 256) (SHA256.be_bytes n x).
Proof.
  revert x. induction n as [| n IH]; intros x; simpl; [split; [reflexivity | constructor] |].
  destruct (IH (x / 256)) as [Hl Hb]. rewrite length_app, Hl. split; [simpl; lia |].
  apply Forall_app. split; [assumption |]. constructor; [| constructor].
  apply Z.mod_pos_bound. lia.
Qed.

Lemma compress_length (h block : list Z) :
  List.length h = 8%nat -> List.length (SHA256.compress h block) = 8%nat.
Proof.
  intros H. unfold SHA256.compress. rewrite length_map, length_combine, H. reflexivity.
Qed.

Lemma fold_compress_length (bl : list (list Z)) (h : list Z) :
  List.length h = 8%nat -> List.length (fold_left SHA256.compress bl h) = 8%nat.
Proof.
  revert h. induction bl as [| b bl IH]; intros h H; simpl; [assumption |].
  apply IH. now apply compress_length.
Qed.

Lemma flat_map_length_const {A B : Type} (f : A -> list B) (k : nat) (l : list A) :
  (forall x, List.length (f x) = k) -> List.length (flat_map f l) = (k * List.length l)%nat.
Proof.
  intros H. induction l as [| x l IH]; simpl; [lia |].
  rewrite length_app, H, IH. lia.
Qed.

Lemma digest_shape (msg : list Z) :
  List.length (SHA256.digest msg) = 32%nat
  /\ Forall (fun b => 0 <= b < 256) (SHA256.digest msg).
Proof.
  unfold SHA256.digest. split.
  - rewrite (flat_map_length_const _ 4) by (intros x; apply be_bytes_shape).
    rewrite fold_compress_length; reflexivity.
  - apply Forall_flat_map. apply Forall_forall. intros x _. apply be_bytes_shape.
Qed.

Lemma hex_digit_char (d : Z) : 0 <= d < 16 -> hex_char (SHA256.hex_digit d) = true.
Proof.
  intros H.
  assert (E : d = 0 \/ d = 1 \/ d = 2 \/ d = 3 \/ d = 4 \/ d = 5 \/ d = 6 \/ d = 7
              \/ d = 8 \/ d = 9 \/ d = 10 \/ d = 11 \/ d = 12 \/ d = 13 \/ d = 14 \/ d = 15)
    by lia.
  repeat (destruct E as [-> | E]; [reflexivity |]). now subst.
Qed.

Lemma hex_shape (bs : list Z) :
  Forall (fun b => 0 <= b < 256) bs ->
  List.length (list_ascii_of_string (SHA256.hex bs)) = (2 * List.length bs)%nat
  /\ forallb hex_char (list_ascii_of_string (SHA256.hex bs)) = true.
Proof.
  intros H. unfold SHA256.hex. rewrite list_ascii_of_string_of_list_ascii. split.
  - now apply flat_map_length_const.
  - induction H as [| b bs Hb _ IH]; [reflexivity |].
    cbn [flat_map app forallb]. rewrite IH, !hex_digit_char; [reflexivity | |].
    + apply Z.mod_pos_bound. lia.
    + split; [apply Z.div_pos; lia | apply Z.div_lt_upper_bound; lia].
Qed.

(** X6: whatever the vector, [hash_vec] returns 64 characters, each a
    digit or a letter from [a] to [f]. *)
Theorem hash_vec_hex (v : list float) :
  List.length (list_ascii_of_string (hash_vec v)) = 64%nat
  /\ forallb hex_char (list_ascii_of_string (hash_vec v)) = true.
Proof.
  unfold hash_vec, SHA256.hexdigest.
  destruct (digest_shape (fold_left
              (fun h x => SHA256.update (SHA256.update h (encode (format_g 17 x)))
                                        (encode ","%string)) v SHA256.new)) as [Hl Hb].
  destruct (hex_shape _ Hb) as [Hl' Hc]. rewrite Hl in Hl'. now split.
Qed.

Lemma hash_vec_input (v : list float) : hash_vec v = SHA256.hexdigest (hash_input v).
Proof.
  unfold hash_vec, hash_input. f_equal.
  change SHA256.new with (@nil Z).
  assert (H : forall h, fold_left
                (fun h x => SHA256.update (SHA256.update h (encode (format_g 17 x)))
                                          (encode ","%string)) v h
              = (h ++ flat_map (fun x => encode (format_g 17 x) ++ encode ","%string) v)%list).
  { induction v as [| x v IH]; intros h; simpl; [now rewrite app_nil_r |].
    rewrite IH. unfold SHA256.update. now rewrite <- !app_assoc. }
  apply H.
Qed.

Lemma ord_inj (c d : ascii) : ord c = ord d -> c = d.
Proof.
  unfold ord. intros H. apply N2Z.inj in H.
  rewrite <- (ascii_N_embedding c), <- (ascii_N_embedding d). now rewrite H.
Qed.

Lemma encode_inj (s t : string) : encode s = encode t -> s = t.
Proof.
  unfold encode. intros H.
  rewrite <- (string_of_list_ascii_of_string s), <- (string_of_list_ascii_of_string t).
  f_equal. revert H. generalize (list_ascii_of_string s), (list_ascii_of_string t).
  induction l as [| c l IH]; intros [| d l']; simpl; intros H; try discriminate; [reflexivity |].
  injection H as Hc Hl. f_equal; [now apply ord_inj | now apply IH].
Qed.

Lemma encode_no_comma (p : nat) (x : float) : ~ In 44 (encode (format_g p x)).
Proof.
  unfold encode. rewrite in_map_iff. intros (c & Hc & Hin).
  pose proof (format_g_numeric p x) as H. rewrite Forall_forall in H.
  specialize (H c Hin). apply ord_inj with (d := ","%char) in Hc. now subst.
Qed.

Lemma split_at_mark (l1 l2 r1 r2 : list Z) (m : Z) :
  ~ In m l1 -> ~ In m l2 ->
  (l1 ++ m :: r1 = l2 ++ m :: r2)%list -> l1 = l2 /\ r1 = r2.
Proof.
  revert l2. induction l1 as [| a l1 IH]; intros [| b l2] H1 H2 E; simpl in *.
  - injection E as <-. now split.
  - injection E as <- _. tauto.
  - injection E as -> _. tauto.
  - injection E as <- E. destruct (IH l2) as [-> ->]; tauto.
Qed.

(** X7: the hash is the SHA-256 of the texts of the elements, each followed
    by a comma; no text holds a comma, so the bytes hashed determine the
    texts, one by one: two vectors are fed to the hash as the same bytes
    exactly when they have the same elements as ['.17g'] writes them. *)
Theorem hash_input_unambiguous (v w : list float) :
  hash_vec v = SHA256.hexdigest (hash_input v)
  /\ (hash_input v = hash_input w <-> map (format_g 17) v = map (format_g 17) w).
Proof.
  split; [apply hash_vec_input |]. split.
  - revert w. induction v as [| x v IH]; intros [| y w] H; simpl in *.
    + reflexivity.
    + destruct (encode (format_g 17 y)); discriminate.
    + destruct (encode (format_g 17 x)); discriminate.
    + rewrite <- !app_assoc in H. simpl in H.
      apply split_at_mark in H; try apply encode_no_comma.
      destruct H as [Hx Hv]. f_equal; [now apply encode_inj | now apply IH].
  - intros H. unfold hash_input. rewrite !flat_map_concat_map. f_equal.
    rewrite <- (map_map (format_g 17) (fun s => encode s ++ encode ","%string)%list v).
    rewrite <- (map_map (format_g 17) (fun s => encode s ++ encode ","%string)%list w).
    now rewrite H.
Qed.

Lemma zip_firstn {A B : Type} (a : list A) (b : list B) :
  zip a b = zip (firstn (Nat.min (List.length a) (List.length b)) a)
                (firstn (Nat.min (List.length a) (List.length b)) b).
Proof.
  revert b. induction a as [| x a IH]; intros [| y b]; simpl; try reflexivity.
  now rewrite <- IH.
Qed.

Lemma zip_firstn_r {A B : Type} (a : list A) (b : list B) :
  zip a b = zip a (firstn (List.length a) b).
Proof.
  revert b. induction a as [| x a IH]; intros [| y b]; simpl; try reflexivity.
  now rewrite <- IH.
Qed.

(** X8: [dot] and [sign_signature] raise nothing on vectors of different
    lengths: [zip] stops at the shorter one, so the elements of the longer
    one past the length of the other are never read. *)
Theorem zip_truncates (a b : list float) (basis : list (list float)) :
  dot a b = dot (firstn (Nat.min (List.length a) (List.length b)) a)
                (firstn (Nat.min (List.length a) (List.length b)) b)
  /\ sign_signature a basis = sign_signature a (map (firstn (List.length a)) basis)
  /\ dot a [] = 0%float /\ dot [] b = 0%float.
Proof.
  split; [unfold dot; now rewrite <- zip_firstn |]. split.
  - rewrite !sign_signature_map, map_map. apply map_ext. intros r.
    unfold dot. now rewrite <- zip_firstn_r.
  - split; [now destruct a | reflexivity].
Qed.

(** ** Projections and signatures *)

Lemma rademacher_shape (dim : nat) (g : MT.rng) :
  List.length (fst (rademacher dim g)) = dim /\ Forall unit_entry (fst (rademacher dim g)).
Proof.
  revert g. induction dim as [| dim IH]; intros g; cbn [rademacher].
  - split; [reflexivity | constructor].
  - destruct (MT.random g) as [u g1]. specialize (IH g1).
    destruct (rademacher dim g1) as [r g2]. cbn [fst] in *. destruct IH as [Hl Hu].
    split; [simpl; now rewrite Hl |].
    constructor; [| assumption]. destruct (PrimFloat.ltb u 0.5); [now left | now right].
Qed.

Lemma projections_shape (n dim : nat) (g : MT.rng) :
  List.length (projections n dim g) = n
  /\ Forall (fun r => List.length r = dim /\ Forall unit_entry r) (projections n dim g).
Proof.
  revert g. induction n as [| n IH]; intros g; cbn [projections].
  - split; [reflexivity | constructor].
  - pose proof (rademacher_shape dim g) as Hr.
    destruct (rademacher dim g) as [r g1]. cbn [fst] in Hr.
    destruct (IH g1) as [Hl Hf]. split; [simpl; now rewrite Hl |].
    constructor; assumption.
Qed.

Lemma sign_signature_is_bit (v : list float) (basis : list (list float)) :
  Forall is_bit (sign_signature v basis).
Proof.
  unfold sign_signature. apply Forall_map, Forall_forall. intros r _.
  destruct (F64.ge _ _); [now right | now left].
Qed.

(** X9: for every dimension, number of rows and seed, [gen_projections]
    returns that number of rows, each of the length of the dimension and
    made of [1.0] and [-1.0] only; a signature under them has one bit, 0 or
    1, for every row. *)
Theorem gen_projections_shape (dim n : nat) (seed : Z) :
  List.length (gen_projections dim n seed) = n
  /\ Forall (fun r => List.length r = dim /\ Forall unit_entry r) (gen_projections dim n seed)
  /\ forall v, List.length (sign_signature v (gen_projections dim n seed)) = n
               /\ Forall is_bit (sign_signature v (gen_projections dim n seed)).
Proof.
  unfold gen_projections. destruct (projections_shape n dim (MT.seed seed)) as [Hl Hf].
  repeat split; try assumption.
  - unfold sign_signature. now rewrite length_map.
  - apply sign_signature_is_bit.
Qed.

Lemma Prim2SF_minus_one : Prim2SF (-1)%float = S754_finite true 4503599627370496 (-52).
Proof. reflexivity. Qed.

(** The running sum of [sign_signature] over a vector of zeros stays [0.0]. *)
Lemma project_zero (z r : list float) (s : float) :
  forallb is_zero z = true -> Forall unit_entry r ->
  Prim2SF s = S754_zero false -> Prim2SF (project s z r) = S754_zero false.
Proof.
  revert r s. induction z as [| x z IH]; intros r s Hz Hr Hs; [now destruct r |].
  simpl in Hz. apply andb_prop in Hz. destruct Hz as [Hx Hz].
  destruct r as [| ri r]; [exact Hs |]. inversion Hr as [| ? ? Hri Hr']; subst.
  cbn [project]. apply IH; try assumption.
  apply eqb_zero_inv in Hx. destruct Hx as [sx Hx].
  rewrite add_spec, mul_spec, Hs, Hx.
  destruct Hri as [-> | ->]; [rewrite Prim2SF_one | rewrite Prim2SF_minus_one];
    now destruct sx.
Qed.

(** Once NaN, the running sum stays NaN. *)
Lemma project_nan (v r : list float) (s : float) :
  Prim2SF s = S754_nan -> Prim2SF (project s v r) = S754_nan.
Proof.
  revert r s. induction v as [| x v IH]; intros r s Hs; [now destruct r |].
  destruct r as [| ri r]; [exact Hs |]. cbn [project]. apply IH.
  now rewrite add_spec, Hs.
Qed.

Lemma project_with_nan (v r : list float) (s : float) :
  existsb is_nan v = true -> (List.length v <= List.length r)%nat ->
  Prim2SF (project s v r) = S754_nan.
Proof.
  revert r s. induction v as [| x v IH]; intros r s Hv Hl; [discriminate |].
  destruct r as [| ri r]; [simpl in Hl; lia |]. cbn [project].
  simpl in Hv, Hl. destruct (is_nan x) eqn:Hx.
  - apply project_nan. unfold is_nan in Hx. rewrite add_spec, mul_spec.
    destruct (Prim2SF x); try discriminate.
    simpl. now destruct (Prim2SF s).
  - apply IH; [assumption | lia].
Qed.

Lemma map_const_repeat {A B : Type} (f : A -> B) (b : B) (l : list A) :
  (forall x, In x l -> f x = b) -> map f l = repeat b (List.length l).
Proof.
  intros H. induction l as [| x l IH]; [reflexivity |].
  simpl. rewrite H by now left. f_equal. apply IH. intros y Hy. apply H. now right.
Qed.

Lemma basis_of_shape (d : nat) :
  List.length (basis_of d) = N_PROJ
  /\ Forall (fun r => List.length r = d /\ Forall unit_entry r) (basis_of d).
Proof. apply projections_shape. Qed.

(** X10: two kinds of vectors have a signature that does not depend on
    the projections drawn.  A vector of zeros (of either sign) has the
    signature of twelve ones, whatever the dimension of the run; a vector
    that holds a NaN has, in a run of its dimension, the signature of twelve
    zeros.  All the records of a kind share one bucket. *)
Theorem degenerate_signatures (v : list float) :
  (forallb is_zero v = true ->
   forall d, sign_signature v (basis_of d) = repeat 1 N_PROJ)
  /\ (existsb is_nan v = true ->
      sign_signature v (basis_of (List.length v)) = repeat 0 N_PROJ).
Proof.
  split.
  - intros Hz d. destruct (basis_of_shape d) as [Hl Hf]. rewrite <- Hl.
    unfold sign_signature. apply map_const_repeat. intros r Hr.
    rewrite Forall_forall in Hf. destruct (Hf r Hr) as [_ Hu].
    pose proof (project_zero v r 0%float Hz Hu Prim2SF_zero) as H.
    unfold F64.ge. rewrite FloatAxioms.leb_spec, H, Prim2SF_zero. reflexivity.
  - intros Hn. destruct (basis_of_shape (List.length v)) as [Hl Hf]. rewrite <- Hl.
    unfold sign_signature. apply map_const_repeat. intros r Hr.
    rewrite Forall_forall in Hf. destruct (Hf r Hr) as [Hlen _].
    pose proof (project_with_nan v r 0%float Hn ltac:(lia)) as H.
    unfold F64.ge. rewrite FloatAxioms.leb_spec, H, Prim2SF_zero. reflexivity.
Qed.

(** ** Invariants of the ingestion *)

Lemma accepted_shape (s : list (glyph * string)) (e : entry) :
  In e (accepted s) ->
  first_dims s = Some (List.length (e_raw e))
  /\ List.length (e_vr e) = List.length (e_raw e)
  /\ round_vec (e_raw e) PREC = Ok (e_vr e).
Proof.
  intros H. apply accepted_In in H. destruct H as (d & gp & Hd & _ & Ha).
  apply accept_Some in Ha. destruct Ha as (_ & _ & Hlen & v_raw & v_r & Hraw & Hr & ->).
  cbn [e_raw e_vr]. apply mapM_length in Hraw. unfold round_vec in Hr.
  pose proof (mapM_length _ _ _ Hr) as Hlr.
  repeat split; [congruence | assumption | assumption].
Qed.

Lemma reported_candidate (cands : list (entry * entry)) (n : near) :
  In n (reported cands) -> In (n_left n, n_right n) cands.
Proof.
  unfold reported. rewrite in_map_iff. intros ([pre [x y]] & <- & Hin).
  apply reported_at in Hin. destruct Hin as ((post & ->) & _).
  cbn [snd near_of n_left n_right fst]. apply in_elt.
Qed.

Lemma run_basis_length (s : list (glyph * string)) (d : nat) :
  first_dims s = Some d -> List.length (run_basis s) = N_PROJ.
Proof. intros H. unfold run_basis. rewrite H. apply basis_of_shape. Qed.

(** X11: every entry of the buckets has a vector of the length recorded in
    [dims], its rounded vector has that length too, and its key has twelve
    bits; the two ends of a printed near-clone have vectors of one length,
    so that the cosine reads every element of both. *)
Theorem entries_of_one_dimension (files : list (string * list glyph)) :
  exists st r,
    ingest_all init files = Ok st /\ main files = Ok r
    /\ (forall k l e, In (k, l) (sig_buckets st) -> In e l ->
          dims st = Some (List.length (e_raw e))
          /\ List.length (e_vr e) = List.length (e_raw e)
          /\ List.length k = N_PROJ)
    /\ (forall n, In n (near_clones r) ->
          dims st = Some (List.length (e_raw (n_left n)))
          /\ List.length (e_raw (n_left n)) = List.length (e_raw (n_right n))).
Proof.
  destruct (ingest_all_indices files) as (st & Hst & _ & Hb & Hd & _).
  exists st, (report_of (List.length files) (stream files)).
  split; [assumption |]. split; [apply main_report |].
  assert (Hentry : forall k l e, In (k, l) (run_buckets (stream files)) -> In e l ->
            first_dims (stream files) = Some (List.length (e_raw e))
            /\ List.length (e_vr e) = List.length (e_raw e)
            /\ List.length k = N_PROJ).
  { intros k l e Hkl He. destruct (run_buckets_entries _ _ _ _ Hkl He) as [Hacc Hsig].
    destruct (accepted_shape _ _ Hacc) as (H1 & H2 & _). repeat split; try assumption.
    rewrite <- Hsig. unfold sign_signature. rewrite length_map.
    eapply run_basis_length, H1. }
  rewrite Hb, Hd. split; [exact Hentry |].
  intros n Hn. cbn [report_of near_clones] in Hn. apply reported_candidate in Hn.
  apply candidates_In in Hn. destruct Hn as (k & l & Hkl & Hp).
  apply bucket_pairs_members in Hp. cbn [fst snd] in Hp. destruct Hp as [Hx Hy].
  destruct (Hentry _ _ _ Hkl Hx) as (H1 & _), (Hentry _ _ _ Hkl Hy) as (H2 & _).
  split; [assumption | congruence].
Qed.

Lemma setdefault_append_concat {K V : Type} (eqb : K -> K -> bool)
      (d : list (K * list V)) (k : K) (x : V) :
  Permutation (List.concat (map snd (setdefault_append eqb d k x)))
              (List.concat (map snd d) ++ [x]).
Proof.
  induction d as [| [k' l] d IH]; simpl; [reflexivity |].
  destruct (eqb k' k); simpl.
  - rewrite <- !app_assoc. apply Permutation_app_head. apply Permutation_app_comm.
  - rewrite <- app_assoc. now apply Permutation_app_head.
Qed.

Lemma group_concat {K V : Type} (eqb : K -> K -> bool) (kvs : list (K * V)) :
  Permutation (List.concat (map snd (group eqb kvs))) (map snd kvs).
Proof.
  induction kvs as [| [k x] kvs IH] using rev_ind; [reflexivity |].
  rewrite group_snoc, map_app. simpl.
  rewrite setdefault_append_concat. now apply Permutation_app_tail.
Qed.

Lemma group_nonempty {K V : Type} (eqb : K -> K -> bool) (kvs : list (K * V)) (k : K) (l : list V) :
  (forall a b, eqb a b = true <-> a = b) ->
  In (k, l) (group eqb kvs) -> l <> [].
Proof.
  intros Heq H. apply (group_spec eqb Heq) in H. destruct H as [-> Hk].
  apply in_map_iff in Hk. destruct Hk as ([k' v] & <- & Hin).
  simpl. intros E. apply (select_In eqb Heq) in Hin. rewrite E in Hin. contradiction.
Qed.

Lemma accepted_under_length (d : nat) (s : list (glyph * string)) :
  (List.length (accepted_under d s) <= List.length s)%nat.
Proof.
  induction s as [| gp s IH]; simpl; [lia |].
  rewrite length_app. destruct (accept d gp); simpl; lia.
Qed.

Lemma accepted_length (s : list (glyph * string)) :
  (List.length (accepted s) <= List.length s)%nat.
Proof.
  unfold accepted. destruct (first_dims s); [apply accepted_under_length | simpl; lia].
Qed.

Lemma run_buckets_concat (s : list (glyph * string)) :
  Permutation (List.concat (map snd (run_buckets s))) (accepted s).
Proof.
  unfold run_buckets, buckets_of. rewrite group_concat, map_map. simpl.
  now rewrite map_id.
Qed.

(** X12: the two indices are partitions of the inserted records.  The
    lists of the buckets hold every inserted entry once, those of the exact
    index its id and file once; no key is listed twice, no list is empty;
    [total] counts the entries of either index, and is at most the number
    of records streamed. *)
Theorem indices_partition (files : list (string * list glyph)) :
  exists st r,
    ingest_all init files = Ok st /\ main files = Ok r
    /\ Permutation (List.concat (map snd (sig_buckets st))) (accepted (stream files))
    /\ Permutation (List.concat (map snd (exact_index st)))
                   (map member_of (accepted (stream files)))
    /\ total st = List.length (List.concat (map snd (sig_buckets st)))
    /\ total st = List.length (List.concat (map snd (exact_index st)))
    /\ scanned r = total st
    /\ (total st <= List.length (stream files))%nat
    /\ NoDup (map fst (sig_buckets st)) /\ NoDup (map fst (exact_index st))
    /\ (forall k l, In (k, l) (sig_buckets st) -> l <> [])
    /\ (forall h l, In (h, l) (exact_index st) -> l <> []).
Proof.
  destruct (ingest_all_indices files) as (st & Hst & He & Hb & _ & Ht).
  exists st, (report_of (List.length files) (stream files)).
  split; [assumption |]. split; [apply main_report |].
  assert (Hpb := run_buckets_concat (stream files)).
  assert (Hpe : Permutation (List.concat (map snd (exact_of (accepted (stream files)))))
                            (map member_of (accepted (stream files)))).
  { unfold exact_of. rewrite group_concat, map_map. reflexivity. }
  rewrite Hb, He, Ht.
  split; [assumption |]. split; [assumption |].
  split; [symmetry; apply Permutation_length, Hpb |].
  split; [rewrite (Permutation_length Hpe); now rewrite length_map |].
  split; [reflexivity |]. split; [apply accepted_length |].
  split; [apply buckets_of_NoDup |].
  split; [apply (group_spec String.eqb string_eqb_eq) |].
  split.
  - intros k l. apply (group_nonempty sig_eqb _ _ _ sig_eqb_eq).
  - intros h l. apply (group_nonempty String.eqb _ _ _ string_eqb_eq).
Qed.

Lemma select_map {K V A : Type} (eqb : K -> K -> bool) (g : A -> K) (f : A -> V)
      (k : K) (l : list A) :
  select eqb k (map (fun e => (g e, f e)) l) = map f (filter (fun e => eqb (g e) k) l).
Proof.
  unfold select. induction l as [| x l IH]; simpl; [reflexivity |].
  destruct (eqb (g x) k); simpl; now rewrite IH.
Qed.

Lemma filter_two {A : Type} (f : A -> bool) (l1 l2 l3 : list A) (x y : A) :
  f x = true -> f y = true ->
  (2 <= List.length (filter f (l1 ++ x :: l2 ++ y :: l3)))%nat.
Proof.
  intros Hx Hy. rewrite filter_app. simpl. rewrite Hx, filter_app. simpl. rewrite Hy.
  rewrite !length_app. simpl. rewrite length_app. simpl. lia.
Qed.

Lemma round_vec_by_text (p : nat) (v w : list float) :
  map (format_g p) v = map (format_g p) w -> round_vec v p = round_vec w p.
Proof.
  unfold round_vec. revert w. induction v as [| x v IH]; intros [| y w] H; try discriminate;
    [reflexivity |].
  simpl in H. injection H as Hx Hv. cbn [mapM].
  rewrite (IH w Hv). unfold round_elt, format_spec. now rewrite Hx.
Qed.

(** X13: the clusters printed are the classes of the inserted records
    under the hash of the rounded vector that have two members or more,
    each in insertion order.  Two inserted records whose raw vectors are
    written alike by ['.17g'], element by element, are always members of
    one printed cluster; so are two records with the same floats, bit for
    bit.  Equality of floats is not enough: [0.0] and [-0.0] are written
    [0] and [-0], and the vectors [0.0, 0.0] and [0.0, -0.0] hash apart
    and make no cluster. *)
Theorem clusters_by_hash (files : list (string * list glyph)) :
  exists r,
    main files = Ok r
    /\ (forall c, In c (clusters r)
          <-> exists h,
                c = map member_of (filter (fun e => String.eqb (exact_key e) h)
                                          (accepted (stream files)))
                /\ (2 <= List.length c)%nat)
    /\ (forall l1 x l2 y l3,
          accepted (stream files) = (l1 ++ x :: l2 ++ y :: l3)%list ->
          map (format_g 17) (e_raw x) = map (format_g 17) (e_raw y) ->
          exists c, In c (clusters r) /\ In (member_of x) c /\ In (member_of y) c)
    /\ (forall l1 x l2 y l3,
          accepted (stream files) = (l1 ++ x :: l2 ++ y :: l3)%list ->
          e_raw x = e_raw y ->
          exists c, In c (clusters r) /\ In (member_of x) c /\ In (member_of y) c)
    /\ PrimFloat.eqb 0 (-0) = true
    /\ format_g 17 0 = "0"%string /\ format_g 17 (-0) = "-0"%string
    /\ hash_vec [0; 0]%float <> hash_vec [0; -0]%float
    /\ main signed_zeros
       = Ok {| scanned := 2; n_files := 1; clusters := []; near_clones := [] |}.
Proof.
  exists (report_of (List.length files) (stream files)).
  split; [apply main_report |]. cbn [report_of clusters].
  set (acc := accepted (stream files)).
  assert (Hc : forall c, In c (exact_clusters (exact_of acc))
            <-> exists h, c = map member_of (filter (fun e => String.eqb (exact_key e) h) acc)
                          /\ (2 <= List.length c)%nat).
  { intros c. rewrite exact_clusters_In. split.
    - intros (h & -> & _ & Hl). exists h. rewrite select_map in *. split; [reflexivity | lia].
    - intros (h & -> & Hl). exists h. rewrite select_map. split; [reflexivity |].
      split; [| lia].
      destruct (filter (fun e => String.eqb (exact_key e) h) acc) as [| e l] eqn:Ef;
        [simpl in Hl; lia |].
      assert (He : In e (filter (fun e => String.eqb (exact_key e) h) acc))
        by (rewrite Ef; now left).
      apply filter_In in He. destruct He as [He Hh]. apply String.eqb_eq in Hh.
      apply in_map_iff. now exists e. }
  assert (Htext : forall l1 x l2 y l3,
             acc = (l1 ++ x :: l2 ++ y :: l3)%list ->
             map (format_g 17) (e_raw x) = map (format_g 17) (e_raw y) ->
             exists c, In c (exact_clusters (exact_of acc))
                       /\ In (member_of x) c /\ In (member_of y) c).
  { intros l1 x l2 y l3 Hacc Hraw.
    assert (Hx : In x acc) by (rewrite Hacc; apply in_elt).
    assert (Hy : In y acc)
      by (rewrite Hacc; apply in_or_app; right; right; apply in_elt).
    assert (Hvr : e_vr x = e_vr y).
    { destruct (accepted_shape _ _ Hx) as (_ & _ & Rx), (accepted_shape _ _ Hy) as (_ & _ & Ry).
      rewrite (round_vec_by_text PREC _ _ Hraw) in Rx. congruence. }
    assert (Hkx : String.eqb (exact_key x) (exact_key x) = true) by apply String.eqb_refl.
    assert (Hky : String.eqb (exact_key y) (exact_key x) = true)
      by (unfold exact_key; rewrite Hvr; apply String.eqb_refl).
    exists (map member_of (filter (fun e => String.eqb (exact_key e) (exact_key x)) acc)).
    split; [| split].
    - apply Hc. exists (exact_key x). split; [reflexivity |].
      rewrite length_map, Hacc. now apply filter_two.
    - apply in_map, filter_In. now split.
    - apply in_map, filter_In. now split. }
  split; [exact Hc |]. split; [exact Htext |].
  split; [intros l1 x l2 y l3 Hacc Hraw; apply (Htext l1 x l2 y l3 Hacc); now rewrite Hraw |].
  split; [reflexivity |]. split; [reflexivity |]. split; [reflexivity |].
  split; [| vm_compute; reflexivity].
  vm_compute. discriminate.
Qed.

Lemma first_dims_none (s : list (glyph * string)) :
  (forall gp, In gp s -> eligible (fst gp) = false) -> first_dims s = None.
Proof.
  intros H. unfold first_dims.
  destruct (find (fun gp => eligible (fst gp)) s) as [gp |] eqn:E; [| reflexivity].
  apply find_some in E. destruct E as [Hin He]. rewrite (H gp Hin) in He. discriminate.
Qed.

(** X14: when no record has both an id and a list under [vec] (and so
    when there is no file or no record at all), the run ends with [dims]
    and [R] unset and both indices empty, and prints zero records, no
    cluster and no near-clone. *)
Theorem nothing_eligible (files : list (string * list glyph)) :
  (forall gp, In gp (stream files) -> eligible (fst gp) = false) ->
  ingest_all init files = Ok init
  /\ main files = Ok {| scanned := 0; n_files := List.length files;
                        clusters := []; near_clones := [] |}.
Proof.
  intros H. apply first_dims_none in H.
  rewrite main_report, ingest_all_init. unfold report_of, run_buckets, run_basis, accepted.
  rewrite H. split; reflexivity.
Qed.

Lemma nothing_eligible_witness :
  main [("f"%string, [{| g_id := None; g_vec := Ex.ints [1; 2] |};
                      {| g_id := Some "a"%string; g_vec := PyStr "1,2" |};
                      {| g_id := Some ""%string; g_vec := Ex.ints [1; 2] |}]);
        ("g"%string, [])]
  = Ok {| scanned := 0; n_files := 2; clusters := []; near_clones := [] |}.
Proof.
  apply (nothing_eligible
           [("f"%string, [{| g_id := None; g_vec := Ex.ints [1; 2] |};
                          {| g_id := Some "a"%string; g_vec := PyStr "1,2" |};
                          {| g_id := Some ""%string; g_vec := Ex.ints [1; 2] |}]);
            ("g"%string, [])]).
  intros gp Hin. simpl in Hin. destruct Hin as [<- | [<- | [<- | []]]]; reflexivity.
Defined.

Lemma mapM_raise {A B : Type} (f : A -> result B) (l : list A) (x : A) (e : exn) :
  In x l -> f x = Raise e -> exists e', mapM f l = Raise e'.
Proof.
  intros Hin Hx. induction l as [| a l IH]; [contradiction |]. simpl.
  destruct (f a) as [b | e0] eqn:Ea; simpl; [| now exists e0].
  destruct Hin as [-> | Hin]; [congruence |].
  destruct (IH Hin) as [e' ->]. simpl. now exists e'.
Qed.

(** X15: one element that [float()] refuses is enough for the record to be
    dropped whole: the conversion stops, nothing is inserted in either
    index and the record is not counted.  One turn of the loop on such a
    record changes at most [dims] and [R]. *)
Theorem bad_element_skips_record (st : state) (g : glyph) (src : string)
        (x : pyval) (e : exn) :
  In x (items (g_vec g)) -> float_of x = Raise e ->
  insert st g src = Ok st
  /\ exists st',
       ingest st g src = Ok st'
       /\ exact_index st' = exact_index st
       /\ sig_buckets st' = sig_buckets st
       /\ total st' = total st.
Proof.
  intros Hin Hx.
  assert (Hins : forall s, insert s g src = Ok s).
  { intros s. unfold insert. cbv zeta.
    destruct (mapM_raise float_of _ x e Hin Hx) as [e' ->]. reflexivity. }
  split; [apply Hins |].
  unfold ingest. cbv zeta.
  destruct (negb (truthy_id (g_id g)) || negb (isinstance_list (g_vec g)));
    [now exists st |].
  unfold establish. destruct (dims st) as [d |].
  - destruct (List.length (items (g_vec g)) =? d)%nat; [| now exists st].
    rewrite Hins. now exists st.
  - rewrite Hins. eexists. split; [reflexivity |]. now cbn.
Qed.

Lemma bad_element_skips_record_witness :
  insert init Ex.oops "f"%string = Ok init
  /\ exists st',
       ingest init Ex.oops "f"%string = Ok st'
       /\ exact_index st' = [] /\ sig_buckets st' = [] /\ total st' = 0%nat.
Proof.
  apply (bad_element_skips_record init Ex.oops "f"%string (PyStr "oops") ValueError).
  - simpl. left. reflexivity.
  - reflexivity.
Defined.

(** ** File names *)

Lemma list_ascii_of_append (s t : string) :
  list_ascii_of_string (String.append s t)
  = (list_ascii_of_string s ++ list_ascii_of_string t)%list.
Proof. induction s as [| c s IH]; simpl; [reflexivity | now rewrite IH]. Qed.

Lemma basename_fold_plain (l acc : list ascii) :
  existsb (fun c => Ascii.eqb c "/") l = false ->
  fold_left (fun acc c => if Ascii.eqb c "/" then [] else acc ++ [c]) l acc = (acc ++ l)%list.
Proof.
  revert acc. induction l as [| c l IH]; intros acc H; simpl in *; [now rewrite app_nil_r |].
  apply orb_false_elim in H. destruct H as [Hc Hl]. rewrite Hc, IH by assumption.
  now rewrite <- app_assoc.
Qed.

Lemma basename_fold_no_slash (l acc : list ascii) :
  existsb (fun c => Ascii.eqb c "/") acc = false ->
  existsb (fun c => Ascii.eqb c "/")
          (fold_left (fun acc c => if Ascii.eqb c "/" then [] else acc ++ [c]) l acc) = false.
Proof.
  revert acc. induction l as [| c l IH]; intros acc H; simpl; [assumption |].
  apply IH. destruct (Ascii.eqb c "/") eqn:Hc; [reflexivity |].
  rewrite existsb_app, H. simpl. now rewrite Hc.
Qed.

Lemma basename_no_slash (p : string) : has_slash (basename p) = false.
Proof.
  unfold has_slash, basename. rewrite list_ascii_of_string_of_list_ascii.
  now apply basename_fold_no_slash.
Qed.

Lemma accepted_source (s : list (glyph * string)) (e : entry) :
  In e (accepted s) -> exists gp, In gp s /\ e_src e = basename (snd gp).
Proof.
  intros H. apply accepted_In in H. destruct H as (d & gp & _ & Hin & Ha).
  apply accept_Some in Ha. destruct Ha as (_ & _ & _ & v_raw & v_r & _ & _ & ->).
  now exists gp.
Qed.

Lemma stream_path (files : list (string * list glyph)) (gp : glyph * string) :
  In gp (stream files) -> exists gs, In (snd gp, gs) files.
Proof.
  unfold stream. rewrite in_flat_map. intros ([p gs] & Hin & Hg).
  apply in_map_iff in Hg. destruct Hg as (g & <- & _). now exists gs.
Qed.

Lemma basename_under (d f : string) :
  has_slash f = false -> basename (String.append d (String "/"%char f)) = f.
Proof.
  intros H. unfold basename. rewrite list_ascii_of_append, fold_left_app.
  cbn [list_ascii_of_string fold_left]. change (Ascii.eqb "/" "/") with true. cbv iota.
  rewrite basename_fold_plain by exact H. apply string_of_list_ascii_of_string.
Qed.

(** X16: the file kept with an inserted record, in the buckets, in the
    exact index and on the lines printed, is the text after the last slash
    of the path the record was streamed from; it holds no slash.  A record
    streamed from [d/f], [f] without a slash, is kept under [f] whatever
    the directory [d]: records of files of one name in two directories are
    printed under one name. *)
Theorem file_kept_is_last_component (files : list (string * list glyph)) :
  exists st r,
    ingest_all init files = Ok st /\ main files = Ok r
    /\ (forall k l e, In (k, l) (sig_buckets st) -> In e l ->
          has_slash (e_src e) = false
          /\ exists p gs, In (p, gs) files /\ e_src e = basename p)
    /\ (forall h l m, In (h, l) (exact_index st) -> In m l ->
          has_slash (snd m) = false
          /\ exists p gs, In (p, gs) files /\ snd m = basename p)
    /\ (forall c m, In c (clusters r) -> In m c ->
          has_slash (snd m) = false
          /\ exists p gs, In (p, gs) files /\ snd m = basename p)
    /\ (forall n, In n (near_clones r) ->
          has_slash (e_src (n_left n)) = false /\ has_slash (e_src (n_right n)) = false)
    /\ (forall d f gs k l e,
          has_slash f = false ->
          files = [(String.append d (String "/"%char f), gs)] ->
          In (k, l) (sig_buckets st) -> In e l -> e_src e = f).
Proof.
  destruct (ingest_all_indices files) as (st & Hst & He & Hb & _).
  exists st, (report_of (List.length files) (stream files)).
  split; [assumption |]. split; [apply main_report |].
  assert (Hacc : forall e, In e (accepted (stream files)) ->
            has_slash (e_src e) = false
            /\ exists p gs, In (p, gs) files /\ e_src e = basename p).
  { intros e H. destruct (accepted_source _ _ H) as (gp & Hin & Hs).
    split; [rewrite Hs; apply basename_no_slash |].
    destruct (stream_path _ _ Hin) as [gs Hgs]. now exists (snd gp), gs. }
  assert (Hbucket : forall k l e, In (k, l) (run_buckets (stream files)) -> In e l ->
            In e (accepted (stream files))).
  { intros k l e Hkl Hin. now destruct (run_buckets_entries _ _ _ _ Hkl Hin). }
  assert (Hmember : forall h l m, In (h, l) (exact_of (accepted (stream files))) -> In m l ->
            exists e, In e (accepted (stream files)) /\ m = member_of e).
  { intros h l m Hhl Hm.
    assert (H : In m (map snd (map (fun e => (exact_key e, member_of e))
                                   (accepted (stream files))))).
    { apply (group_members String.eqb _ m string_eqb_eq). now exists h, l. }
    rewrite map_map in H. apply in_map_iff in H. destruct H as (e & <- & Hin). now exists e. }
  rewrite Hb, He.
  split; [intros k l e Hkl Hin; apply Hacc; eapply Hbucket; eassumption |].
  split.
  { intros h l m Hhl Hm. destruct (Hmember _ _ _ Hhl Hm) as (e & Hin & ->).
    now apply Hacc. }
  split.
  { intros c m Hc Hm. cbn [report_of clusters] in Hc. unfold exact_clusters in Hc.
    apply in_map_iff in Hc. destruct Hc as ([h l] & <- & Hhl). apply filter_In in Hhl.
    destruct Hhl as [Hhl _]. destruct (Hmember _ _ _ Hhl Hm) as (e & Hin & ->).
    now apply Hacc. }
  split.
  { intros n Hn. cbn [report_of near_clones] in Hn. apply reported_candidate in Hn.
    apply candidates_In in Hn. destruct Hn as (k & l & Hkl & Hp).
    apply bucket_pairs_members in Hp. cbn [fst snd] in Hp. destruct Hp as [Hx Hy].
    split; eapply Hacc, Hbucket; eassumption. }
  intros d f gs k l e Hf Hfiles Hkl Hin.
  destruct (Hacc e (Hbucket _ _ _ Hkl Hin)) as (_ & p & gs' & Hp & ->).
  rewrite Hfiles in Hp. destruct Hp as [Hp | []]. injection Hp as <- _.
  now apply basename_under.
Qed.

(** ** The scan when ids are unique, and its cost *)

(** X17: when no id is carried by two inserted records, the guard on
    [seen_pairs] hides nothing: the near-clones printed are exactly the
    pairs of entries of one bucket, the first before the second, whose
    cosine is at least the threshold. *)
Theorem unique_ids_nothing_hidden (files : list (string * list glyph)) :
  NoDup (map e_id (accepted (stream files))) ->
  exists st r,
    ingest_all init files = Ok st /\ main files = Ok r
    /\ (forall n, In n (near_clones r)
          <-> exists k l l1 x l2 y l3,
                In (k, l) (sig_buckets st) /\ l = (l1 ++ x :: l2 ++ y :: l3)%list
                /\ F64.ge (cosine (e_raw x) (e_raw y)) NEAR_THRESH = true
                /\ n = near_of (x, y)).
Proof.
  intros Hnd.
  destruct (ingest_all_indices files) as (st & Hst & _ & Hb & _).
  exists st, (report_of (List.length files) (stream files)).
  split; [assumption |]. split; [apply main_report |].
  intros n. cbn [report_of near_clones]. rewrite Hb.
  rewrite reported_In by (apply candidates_keys, Hnd). split.
  - intros ([x y] & Hp & Hc & ->). apply candidates_In in Hp.
    destruct Hp as (k & l & Hkl & Hp). apply bucket_pairs_In in Hp.
    destruct Hp as (l1 & l2 & l3 & ->).
    exists k, (l1 ++ x :: l2 ++ y :: l3)%list, l1, x, l2, y, l3. auto.
  - intros (k & l & l1 & x & l2 & y & l3 & Hkl & -> & Hc & ->).
    exists (x, y). split; [| now split].
    apply candidates_In. exists k, (l1 ++ x :: l2 ++ y :: l3)%list. split; [exact Hkl |].
    apply bucket_pairs_In. now exists l1, l2, l3.
Qed.

Lemma unique_ids_nothing_hidden_witness :
  exists st r,
    ingest_all init Ex.scenario = Ok st /\ main Ex.scenario = Ok r
    /\ (forall n, In n (near_clones r)
          <-> exists k l l1 x l2 y l3,
                In (k, l) (sig_buckets st) /\ l = (l1 ++ x :: l2 ++ y :: l3)%list
                /\ F64.ge (cosine (e_raw x) (e_raw y)) NEAR_THRESH = true
                /\ n = near_of (x, y)).
Proof.
  apply (unique_ids_nothing_hidden Ex.scenario).
  vm_compute. repeat constructor; simpl; intuition discriminate.
Defined.

Lemma bucket_pairs_length (l : list entry) :
  (2 * List.length (bucket_pairs l) = List.length l * (List.length l - 1))%nat.
Proof.
  induction l as [| e l IH]; [reflexivity |].
  cbn [bucket_pairs]. rewrite length_app, length_map. simpl List.length.
  destruct l as [| e' l']; [reflexivity |]. simpl List.length in *. nia.
Qed.

Lemma candidates_length (buckets : list (list Z * list entry)) :
  (2 * List.length (candidates buckets)
   <= List.length (List.concat (map snd buckets))
      * (List.length (List.concat (map snd buckets)) - 1))%nat.
Proof.
  unfold candidates. induction buckets as [| [k l] bs IH]; [simpl; lia |].
  cbn [flat_map map snd List.concat]. rewrite !length_app.
  pose proof (bucket_pairs_length l) as Hl. nia.
Qed.

Lemma occurrences_from_length {A : Type} (pre l : list A) :
  List.length (occurrences_from pre l) = List.length l.
Proof. revert pre. induction l as [| x l IH]; intros pre; simpl; [| rewrite IH]; reflexivity. Qed.

Lemma reported_length (cands : list (entry * entry)) :
  (List.length (reported cands) <= List.length cands)%nat.
Proof.
  unfold reported, occurrences. rewrite length_map.
  etransitivity; [apply filter_length_le |]. now rewrite occurrences_from_length.
Qed.

(** X18: a bucket of [n] entries gives [n (n - 1) / 2] pairs to the
    scan, every two positions once and no entry with itself; over a run,
    the pairs compared are at most those of one bucket holding every
    inserted record, and the near-clones printed are at most the pairs
    compared. *)
Theorem scan_pairs_count (files : list (string * list glyph)) :
  (forall l, (2 * List.length (bucket_pairs l) = List.length l * (List.length l - 1))%nat)
  /\ exists st r,
       ingest_all init files = Ok st /\ main files = Ok r
       /\ (List.length (near_clones r) <= List.length (candidates (sig_buckets st)))%nat
       /\ (2 * List.length (candidates (sig_buckets st)) <= scanned r * (scanned r - 1))%nat.
Proof.
  split; [apply bucket_pairs_length |].
  destruct (ingest_all_indices files) as (st & Hst & _ & Hb & _).
  exists st, (report_of (List.length files) (stream files)).
  split; [assumption |]. split; [apply main_report |].
  cbn [report_of near_clones scanned]. rewrite Hb. split; [apply reported_length |].
  rewrite <- (Permutation_length (run_buckets_concat (stream files))).
  apply candidates_length.
Qed.

(** ** The state across files *)

Lemma first_dims_unset (s : list (glyph * string)) :
  first_dims s = None <-> forall gp, In gp s -> eligible (fst gp) = false.
Proof.
  split; [| apply first_dims_none].
  unfold first_dims. intros H gp Hin.
  destruct (find (fun gp => eligible (fst gp)) s) eqn:E; [discriminate |].
  apply (find_none _ _ E gp Hin).
Qed.

(** X19: [R] is set exactly when [dims] is, and is then the twelve
    projections drawn with the seed 47 for that dimension, whatever the
    records that follow; [dims] is unset at the end exactly when no record
    had both an id and a list under [vec]. *)
Theorem projections_follow_dims (files : list (string * list glyph)) :
  exists st,
    ingest_all init files = Ok st
    /\ R st = option_map (fun d => gen_projections d N_PROJ 47) (dims st)
    /\ (dims st = None
        <-> forall gp, In gp (stream files) -> eligible (fst gp) = false)
    /\ (forall d basis, dims st = Some d -> R st = Some basis ->
          List.length basis = N_PROJ /\ Forall (fun r => List.length r = d) basis).
Proof.
  eexists. split; [apply ingest_all_init |]. cbn [state_of R dims].
  split; [reflexivity |]. split; [apply first_dims_unset |].
  intros d basis Hd Hb. rewrite Hd in Hb. injection Hb as <-.
  destruct (basis_of_shape d) as [Hl Hf]. split; [assumption |].
  eapply Forall_impl; [| exact Hf]. now intros r [H _].
Qed.





